(** * mpf-host: plugin lifecycle manager and event bus

    A shallow embedding of [src/src/plugin_manager.cpp],
    [src/src/event_bus_service.cpp] and
    [src/src/navigation_service.cpp], with the properties of plugin
    discovery, the dependency resolver, the load sweep, the topic
    matcher, the publish/subscribe and request/response paths, and the
    routes and the stack of the navigation service. *)

From stdpp Require Import gmap strings list fin_maps sorting relations pretty.
From Stdlib Require Import ZArith Lia Ascii.

Set Default Proof Using "Type*".
Open Scope string_scope.
Open Scope nat_scope.
Open Scope stdpp_scope.
Open Scope list_scope.

(** * Part I: the embedding

    What is left out: [qDebug] and [qWarning] output (but for the
    "Circular dependency detected" warning of [computeLoadOrder], kept
    as [cycleWarnings]), the signals of the bus, the mutex (every
    function is run to its end before the next one starts) and
    [deepCopy], which returns a value equal to its argument.  The signals
    of [loadAll] are kept.  [int] and [qint64] counters are [Z]: they
    count events and subscriptions and stay inside their range. *)

(** ** Library behaviour the code relies on

    [QHash] iterates its entries in the order of its hash table: by the
    hashes of the keys, and among keys whose hashes collide by the
    history of the table.  A table is a [gmap]; the iteration order is
    an interface: any enumeration of the entries, each exactly once,
    the same for equal tables. *)

Class QHashOrder := {
  qhash_iter : ∀ V : Type, gmap string V → list (string * V);
  qhash_iter_perm : ∀ (V : Type) (m : gmap string V),
      qhash_iter V m ≡ₚ map_to_list m
}.
Arguments qhash_iter {_ _} _.

(** The enumeration that lists the entries by key. *)
Definition keyOrder : QHashOrder :=
  {| qhash_iter := λ V (m : gmap string V), map_to_list m;
     qhash_iter_perm := λ V m, reflexivity _ |}.

Section qhash_defs.
Context `{QHashOrder} {V : Type}.

Definition qhash_keys (m : gmap string V) : list string := (qhash_iter m).*1.

Definition qhash_values (m : gmap string V) : list V := (qhash_iter m).*2.

End qhash_defs.

(** [QString::isEmpty]. *)
Definition isEmpty (s : string) : bool := bool_decide (s = "").

(** [QStringList::join]. *)
Fixpoint join (sep : string) (l : list string) : string :=
  match l with
  | [] => ""
  | [x] => x
  | x :: rest => x +:+ sep +:+ join sep rest
  end.

(** [a] occurs at an earlier index than [b] in the list [l]. *)
Definition precedes {A} (a b : A) (l : list A) : Prop :=
  ∃ i j, l !! i = Some a ∧ l !! j = Some b ∧ i < j.

(** ** The plugin manager ([src/src/plugin_manager.cpp]) *)

Module PluginManager.

(** [QVersionNumber], as far as the manager uses it. *)
Class QVersionNumber := {
  Version : Type;
  version_lt : Version → Version → bool;
  version_toString : Version → string
}.

(** The module behind a [PluginLoader]: [load()] and [errorString()].
    [Library] is the state of the underlying shared library. *)
Class Loadable := {
  Library : Type;
  library_load : Library → bool * Library;
  library_errorString : Library → string
}.

Section manager.
Context `{QHashOrder} `{QVersionNumber} `{Loadable}.

(** Modelled from the spec: [PluginDependency::Type] of
    [plugin_metadata.h], the two kinds compared in [checkDependencies]
    and [topologicalSort]. *)
Inductive DependencyType := Plugin | Service.

(** Modelled from the spec: [PluginDependency] of [plugin_metadata.h],
    with the fields [type], [id], [minVersion] and [optional] read by
    [plugin_manager.cpp]. *)
Record PluginDependency := {
  dep_type : DependencyType;
  dep_id : string;
  minVersion : Version;
  optional : bool
}.

(** Modelled from the spec: [PluginMetadata] of [plugin_metadata.h],
    with the accessors [id()], [version()], [provides()] and
    [requires()] called by [plugin_manager.cpp]. *)
Record PluginMetadata := {
  meta_id : string;
  version : Version;
  provides : list string;
  requires : list PluginDependency
}.

(** Modelled from the spec: [PluginLoader] of [plugin_loader.h], as
    far as [loadAll] and the resolver use it: the metadata read at
    discovery and the module to load. *)
Record PluginLoader := {
  metadata : PluginMetadata;
  library : Library
}.

(** [PluginLoader::load]: delegates to the module, the metadata stays. *)
Definition load (l : PluginLoader) : bool * PluginLoader :=
  let '(ok, lib) := library_load (library l) in
  (ok, {| metadata := metadata l; library := lib |}).

Definition errorString (l : PluginLoader) : string :=
  library_errorString (library l).

(** Modelled from the spec: the two tables of [plugin_manager.h] that
    the resolver and the sweep read, both keyed by string.
    [m_pluginMap] holds the loaders themselves (the code holds pointers
    into [m_loaders], one loader per id); it is iterated in the order
    of [QHashOrder], which covers a hash table and a sorted map alike. *)
Record Manager := {
  m_pluginMap : gmap string PluginLoader;
  m_serviceProviderMap : gmap string string
}.

(** The part of [discover] that follows the validity check of one
    candidate: reject a duplicate id, else enter the loader and claim
    its services, first registrant wins. *)
Definition claimService (pluginId : string) (providers : gmap string string)
    (service : string) : gmap string string :=
  match providers !! service with
  | Some _ => providers
  | None => <[service := pluginId]> providers
  end.

Definition accept (loader : PluginLoader) (mgr : Manager) : Manager * nat :=
  let pluginId := meta_id (metadata loader) in
  match m_pluginMap mgr !! pluginId with
  | Some _ => (mgr, 0)
  | None =>
      ({| m_pluginMap := <[pluginId := loader]> (m_pluginMap mgr);
          m_serviceProviderMap :=
            foldl (claimService pluginId) (m_serviceProviderMap mgr)
                  (provides (metadata loader)) |}, 1)
  end.

(** [QHash::value]: the default-constructed string when absent. *)
Definition resolveServiceProvider (mgr : Manager) (serviceId : string) : string :=
  default "" (m_serviceProviderMap mgr !! serviceId).

(** *** checkDependencies *)

Definition checkDependency (mgr : Manager) (unsatisfied : list string)
    (dep : PluginDependency) : list string :=
  if optional dep then unsatisfied
  else
    match dep_type dep with
    | Plugin =>
        match m_pluginMap mgr !! dep_id dep with
        | None => unsatisfied ++ ["plugin:" +:+ dep_id dep]
        | Some depPlugin =>
            if version_lt (version (metadata depPlugin)) (minVersion dep)
            then unsatisfied ++
                   ["plugin:" +:+ dep_id dep +:+ ">=" +:+
                    version_toString (minVersion dep)]
            else unsatisfied
        end
    | Service =>
        let providerId := resolveServiceProvider mgr (dep_id dep) in
        if isEmpty providerId
        then unsatisfied ++ ["service:" +:+ dep_id dep]
        else unsatisfied
    end.

Definition checkDependencies (mgr : Manager) (meta : PluginMetadata) : list string :=
  foldl (checkDependency mgr) [] (requires meta).

(** *** computeLoadOrder and topologicalSort *)

(** Colours of the depth-first search: 0 unvisited, 1 visiting,
    2 visited.  [QHash::value] gives 0 for an absent key. *)
Definition color (state : gmap string nat) (k : string) : nat :=
  default 0 (state !! k).

(** The pair of reference arguments [state] and [order]. *)
Definition Walk : Type := gmap string nat * list string.

(** The plugin id a dependency points at ([depPluginId]). *)
Definition depPluginId (mgr : Manager) (dep : PluginDependency) : string :=
  match dep_type dep with
  | Plugin => dep_id dep
  | Service => resolveServiceProvider mgr (dep_id dep)
  end.

(** The loop over [requires()] inside [topologicalSort]; [visit] is the
    recursive call.  The recursion of the code is bounded by the number
    of plugins; here it is counted down by [fuel], and [None] is the
    fuel run out, which [computeLoadOrder_fuel] shows never happens with
    the fuel that [computeLoadOrder_run] gives. *)
Fixpoint visitRequires (mgr : Manager)
    (visit : string → Walk → option (bool * Walk))
    (deps : list PluginDependency) (w : Walk) : option (bool * Walk) :=
  match deps with
  | [] => Some (true, w)
  | dep :: rest =>
      let target := depPluginId mgr dep in
      if negb (isEmpty target) && bool_decide (is_Some (m_pluginMap mgr !! target))
      then
        match visit target w with
        | None => None
        | Some (false, w') => Some (false, w')
        | Some (true, w') => visitRequires mgr visit rest w'
        end
      else visitRequires mgr visit rest w
  end.

Fixpoint topologicalSort (mgr : Manager) (fuel : nat) (pluginId : string)
    (w : Walk) : option (bool * Walk) :=
  match fuel with
  | 0 => None
  | S fuel' =>
      let '(state, order) := w in
      if bool_decide (color state pluginId = 2) then Some (true, w)
      else if bool_decide (color state pluginId = 1) then Some (false, w)
      else
        let state1 := <[pluginId := 1]> state in
        match m_pluginMap mgr !! pluginId with
        | Some loader =>
            match visitRequires mgr (topologicalSort mgr fuel')
                    (requires (metadata loader)) (state1, order) with
            | None => None
            | Some (false, w') => Some (false, w')
            | Some (true, (state2, order2)) =>
                Some (true, (<[pluginId := 2]> state2, order2 ++ [pluginId]))
            end
        | None => Some (true, (<[pluginId := 2]> state1, order ++ [pluginId]))
        end
  end.

(** The second loop of [computeLoadOrder]; [warnings] collects the ids
    named by the "Circular dependency detected" diagnostic. *)
Fixpoint sortEach (mgr : Manager) (fuel : nat) (keys : list string)
    (w : Walk) (warnings : list string) : option (Walk * list string) :=
  match keys with
  | [] => Some (w, warnings)
  | k :: rest =>
      match topologicalSort mgr fuel k w with
      | None => None
      | Some (true, w') => sortEach mgr fuel rest w' warnings
      | Some (false, w') => sortEach mgr fuel rest w' (warnings ++ [k])
      end
  end.

(** The first loop of [computeLoadOrder]. *)
Definition unvisited (keys : list string) : gmap string nat :=
  foldl (λ state k, <[k := 0]> state) ∅ keys.

(** The recursion depth never exceeds the number of plugins, which is
    the fuel given (see [computeLoadOrder_fuel]). *)
Definition computeLoadOrder_run (mgr : Manager) : option (list string * list string) :=
  let keys := qhash_keys (m_pluginMap mgr) in
  match sortEach mgr (S (length keys)) keys (unvisited keys, []) [] with
  | Some ((_, order), warnings) => Some (order, warnings)
  | None => None
  end.

Definition computeLoadOrder (mgr : Manager) : list string :=
  match computeLoadOrder_run mgr with
  | Some (order, _) => order
  | None => []
  end.

Definition cycleWarnings (mgr : Manager) : list string :=
  match computeLoadOrder_run mgr with
  | Some (_, warnings) => warnings
  | None => []
  end.

(** *** loadAll *)

Inductive Signal :=
  | pluginError (pluginId message : string)
  | pluginLoaded (pluginId : string).

(** The loop variables of [loadAll]: the flag, the signals emitted so
    far and the manager, whose loaders [load()] changes in place. *)
Definition Sweep : Type := bool * list Signal * Manager.

Definition loadStep (s : Sweep) (pluginId : string) : Sweep :=
  let '(allLoaded, signals, mgr) := s in
  match m_pluginMap mgr !! pluginId with
  | None => s
  | Some loader =>
      let unsatisfied := checkDependencies mgr (metadata loader) in
      if negb (bool_decide (unsatisfied = []))
      then (false,
            signals ++ [pluginError pluginId
                          ("Unsatisfied dependencies: " +:+ join ", " unsatisfied)],
            mgr)
      else
        let '(ok, loader') := load loader in
        let mgr' := {| m_pluginMap := <[pluginId := loader']> (m_pluginMap mgr);
                       m_serviceProviderMap := m_serviceProviderMap mgr |} in
        if negb ok
        then (false, signals ++ [pluginError pluginId (errorString loader')], mgr')
        else (allLoaded, signals ++ [pluginLoaded pluginId], mgr')
  end.

Definition loadAll (mgr : Manager) : Sweep :=
  foldl loadStep (true, [], mgr) (computeLoadOrder mgr).


(** *** discover *)

(** The state of the loop of [discover]: the manager, [count] and the
    ids signalled by [pluginDiscovered]. *)
Definition Discovery : Type := Manager * nat * list string.

(** One file of the directory.  A file is [None] when it carries no
    metadata object; else it is the loader made for it, whose
    [metadata()] is the metadata read from the file.  [isValid] is
    [PluginMetadata::isValid]. *)
Definition discoverStep (isValid : PluginMetadata → bool) (s : Discovery)
    (file : option PluginLoader) : Discovery :=
  let '(mgr, count, emitted) := s in
  match file with
  | None => s
  | Some loader =>
      if negb (isValid (metadata loader)) then s
      else
        let '(mgr', accepted) := accept loader mgr in
        match accepted with
        | 0 => s
        | _ => (mgr', count + accepted, emitted ++ [meta_id (metadata loader)])
        end
  end.

(** [listing] is [None] when the directory does not exist, else the
    files that [entryInfoList] gives, in its order. *)
Definition discover (isValid : PluginMetadata → bool) (mgr : Manager)
    (listing : option (list (option PluginLoader))) : Discovery :=
  match listing with
  | None => (mgr, 0, [])
  | Some files => foldl (discoverStep isValid) (mgr, 0, []) files
  end.

(** *** stopAll and unloadAll: the order of the sweep

    [order] after [std::reverse]. *)
Definition teardownOrder (mgr : Manager) : list string := reverse (computeLoadOrder mgr).

(** *** The dependency graph

    [dependsOn mgr b d]: plugin [b] is discovered and one of its
    requirements points at the discovered plugin [d]; these are the
    edges [topologicalSort] follows. *)
Definition dependsOn (mgr : Manager) (b d : string) : Prop :=
  ∃ loader dep,
    m_pluginMap mgr !! b = Some loader ∧ dep ∈ requires (metadata loader) ∧
    depPluginId mgr dep = d ∧ d ≠ "" ∧ is_Some (m_pluginMap mgr !! d).

(** A cycle can be reached from [x] along the edges. *)
Definition reachesCycle (mgr : Manager) (x : string) : Prop :=
  ∃ c, rtc (dependsOn mgr) x c ∧ tc (dependsOn mgr) c c.

Definition acyclic (mgr : Manager) : Prop := ∀ x, ¬ tc (dependsOn mgr) x x.

(** *** Invariants of the walk *)

Definition white (state : gmap string nat) (k : string) : Prop :=
  color state k ≠ 1 ∧ color state k ≠ 2.

#[local] Instance white_dec state k : Decision (white state k).
Proof. unfold white. apply _. Defined.

Definition whiteCount (mgr : Manager) (state : gmap string nat) : nat :=
  length (filter (white state) (qhash_keys (m_pluginMap mgr))).

(** [order] lists the visited plugins, each once and after everything
    it depends on. *)
Record WalkInv (mgr : Manager) (w : Walk) : Prop := {
  inv_nodup : NoDup w.2;
  inv_black : ∀ k, k ∈ w.2 ↔ color w.1 k = 2;
  inv_closed : ∀ b d, color w.1 b = 2 → dependsOn mgr b d → precedes d b w.2;
  inv_keys : ∀ k, k ∈ w.2 → is_Some (m_pluginMap mgr !! k)
}.

(** What any part of the walk does: colours other than "unvisited" stay
    and [order] only grows at its end. *)
Definition walkStep (mgr : Manager) (w w' : Walk) : Prop :=
  WalkInv mgr w' ∧
  (∀ k, ¬ white w.1 k → color w'.1 k = color w.1 k) ∧
  (∃ added, w'.2 = w.2 ++ added).

Definition sameGrey (w w' : Walk) : Prop :=
  ∀ k, color w'.1 k = 1 ↔ color w.1 k = 1.

Definition greyExcused (mgr : Manager) (w w' : Walk) : Prop :=
  ∀ k, color w'.1 k = 1 → color w.1 k = 1 ∨ reachesCycle mgr k.

Definition visitPre (mgr : Manager) (target : string) (w : Walk) : Prop :=
  is_Some (m_pluginMap mgr !! target) ∧
  WalkInv mgr w ∧
  ∀ g, color w.1 g = 1 → tc (dependsOn mgr) g target ∨ reachesCycle mgr g.

Definition visitPost (mgr : Manager) (target : string) (w : Walk) (r : bool * Walk) : Prop :=
  walkStep mgr w r.2 ∧
  (r.1 = true → color r.2.1 target = 2 ∧ sameGrey w r.2) ∧
  (r.1 = false →
     reachesCycle mgr target ∧ greyExcused mgr w r.2 ∧ color r.2.1 target = 1).

(** [visit] returns, with the postcondition, on every walk that has
    fewer than [bound] unvisited plugins. *)
Definition visits (mgr : Manager) (bound : nat)
    (visit : string → Walk → option (bool * Walk)) : Prop :=
  ∀ target w, whiteCount mgr w.1 < bound → visitPre mgr target w →
    ∃ r, visit target w = Some r ∧ visitPost mgr target w r.

Definition validTarget (mgr : Manager) (dep : PluginDependency) : Prop :=
  depPluginId mgr dep ≠ "" ∧ is_Some (m_pluginMap mgr !! depPluginId mgr dep).

(** *** The dependency check and the load sweep, one plugin at a time

    The descriptor of one unresolved requirement as the specification
    words it: [plugin:<id>] when the plugin is not discovered,
    [plugin:<id>>=<minVersion>] when it is discovered with a smaller
    version, [service:<id>] when the provider map has no entry for the
    service; none when the requirement is resolved. *)
Definition unresolvedDescriptor (mgr : Manager) (dep : PluginDependency) : option string :=
  match dep_type dep with
  | Plugin =>
      match m_pluginMap mgr !! dep_id dep with
      | None => Some ("plugin:" +:+ dep_id dep)
      | Some found =>
          if version_lt (version (metadata found)) (minVersion dep)
          then Some ("plugin:" +:+ dep_id dep +:+ ">=" +:+ version_toString (minVersion dep))
          else None
      end
  | Service =>
      match m_serviceProviderMap mgr !! dep_id dep with
      | None => Some ("service:" +:+ dep_id dep)
      | Some _ => None
      end
  end.

Definition mandatory (dep : PluginDependency) : Prop := optional dep = false.

#[local] Instance mandatory_dec dep : Decision (mandatory dep).
Proof. unfold mandatory. apply _. Defined.

(** Every registered provider has a name; [discover] enters only
    plugins whose metadata passed validation. *)
Definition providersNamed (mgr : Manager) : Prop :=
  map_Forall (λ _ provider, provider ≠ "") (m_serviceProviderMap mgr).

(** What the sweep reports for one plugin, read off the manager as it
    is before the sweep. *)
Definition loadOutcome (mgr : Manager) (pluginId : string) : option Signal :=
  match m_pluginMap mgr !! pluginId with
  | None => None
  | Some loader =>
      match checkDependencies mgr (metadata loader) with
      | [] =>
          if (load loader).1 then Some (pluginLoaded pluginId)
          else Some (pluginError pluginId (errorString (load loader).2))
      | unsatisfied =>
          Some (pluginError pluginId
                  ("Unsatisfied dependencies: " +:+ join ", " unsatisfied))
      end
  end.

(** The loader of [k] once the plugins in [done] have been swept. *)
Definition loaderDuring (mgr : Manager) (done : list string) (k : string)
    : option PluginLoader :=
  match m_pluginMap mgr !! k with
  | None => None
  | Some loader =>
      if bool_decide (k ∈ done)
         && bool_decide (checkDependencies mgr (metadata loader) = [])
      then Some (load loader).2
      else Some loader
  end.

(** The loader of one plugin after the sweep. *)
Definition loaderAfter (mgr : Manager) (pluginId : string) : option PluginLoader :=
  loaderDuring mgr (computeLoadOrder mgr) pluginId.

Definition isLoadedSignal (s : Signal) : bool :=
  match s with
  | pluginLoaded _ => true
  | pluginError _ _ => false
  end.

(** The state of the sweep after the plugins in [done]. *)
Definition sweepInv (mgr : Manager) (done : list string) (s : Sweep) : Prop :=
  s.1.2 = omap (loadOutcome mgr) done ∧
  s.1.1 = forallb isLoadedSignal s.1.2 ∧
  m_serviceProviderMap s.2 = m_serviceProviderMap mgr ∧
  ∀ k, m_pluginMap s.2 !! k = loaderDuring mgr done k.

(** *** What discovery establishes

    Every loader is entered under the id of its metadata; every
    provider named for a service is a discovered plugin that provides
    it; every service that a discovered plugin provides has a
    provider. *)
Record wellDiscovered (mgr : Manager) : Prop := {
  keyed_by_id : ∀ k loader,
    m_pluginMap mgr !! k = Some loader → meta_id (metadata loader) = k;
  providers_discovered : ∀ service p,
    m_serviceProviderMap mgr !! service = Some p →
    ∃ loader, m_pluginMap mgr !! p = Some loader ∧ service ∈ provides (metadata loader);
  services_claimed : ∀ k loader service,
    m_pluginMap mgr !! k = Some loader → service ∈ provides (metadata loader) →
    is_Some (m_serviceProviderMap mgr !! service)
}.

(** What one run of the loop leaves, relative to its start. *)
Definition grownFrom (start s : Discovery) : Prop :=
  m_pluginMap start.1.1 ⊆ m_pluginMap s.1.1 ∧
  m_serviceProviderMap start.1.1 ⊆ m_serviceProviderMap s.1.1 ∧
  size (m_pluginMap s.1.1) + start.1.2 = size (m_pluginMap start.1.1) + s.1.2 ∧
  (∃ new, s.2 = start.2 ++ new ∧ length new + start.1.2 = s.1.2 ∧ NoDup new ∧
          ∀ k, is_Some (m_pluginMap s.1.1 !! k) ↔
               is_Some (m_pluginMap start.1.1 !! k) ∨ k ∈ new).

(** The metadata with the minimal versions of its service requirements
    replaced. *)
Definition relaxService (wanted : PluginDependency → Version) (dep : PluginDependency)
    : PluginDependency :=
  match dep_type dep with
  | Service => {| dep_type := Service; dep_id := dep_id dep; minVersion := wanted dep;
                  optional := optional dep |}
  | Plugin => dep
  end.

Definition relaxServices (wanted : PluginDependency → Version) (meta : PluginMetadata)
    : PluginMetadata :=
  {| meta_id := meta_id meta; version := version meta; provides := provides meta;
     requires := relaxService wanted <$> requires meta |}.

End manager.

#[export] Existing Instance white_dec.
#[export] Existing Instance mandatory_dec.

End PluginManager.


(** *** Managers to run the definitions on *)

Module ManagerExamples.
Import PluginManager.

#[local] Existing Instance keyOrder.

(** Versions of one segment. *)
#[local] Instance natVersion : QVersionNumber :=
  {| Version := nat; version_lt := Nat.ltb; version_toString := pretty |}.

(** A library is the pair of "can be loaded" and "is loaded". *)
#[local] Instance flagLibrary : Loadable :=
  {| Library := bool * bool;
     library_load := λ l, (l.1, (l.1, l.1));
     library_errorString := λ _, "Cannot load library" |}.

Definition requirePlugin (pluginId : string) : PluginDependency :=
  {| dep_type := Plugin; dep_id := pluginId; minVersion := 1; optional := false |}.

Definition requireService (service : string) : PluginDependency :=
  {| dep_type := Service; dep_id := service; minVersion := 1; optional := false |}.

Definition plugin (pluginId : string) (needs : list PluginDependency)
    (offers : list string) : PluginLoader :=
  {| metadata := {| meta_id := pluginId; version := 1; provides := offers;
                    requires := needs |};
     library := (true, false) |}.

Definition noPlugins : Manager := {| m_pluginMap := ∅; m_serviceProviderMap := ∅ |}.

Definition discoverAll (candidates : list PluginLoader) : Manager :=
  foldl (λ mgr loader, (accept loader mgr).1) noPlugins candidates.

(** Two plugins that require each other. *)
Definition mutual : Manager :=
  discoverAll [plugin "com.test.a" [requirePlugin "com.test.b"] [];
               plugin "com.test.b" [requirePlugin "com.test.a"] []].

(** A provider of [FooService] and a consumer of it, the consumer
    discovered first. *)
Definition consumer : PluginLoader :=
  plugin "com.test.consumer" [requireService "FooService"] [].

Definition provider : PluginLoader :=
  plugin "com.test.provider" [] ["FooService"].

Definition shop : Manager := discoverAll [consumer; provider].

End ManagerExamples.

(** *** A directory to discover, and a plugin that does not load *)

Module DiscoveryExamples.
Import PluginManager ManagerExamples.

#[local] Existing Instance keyOrder.
#[local] Existing Instance natVersion.
#[local] Existing Instance flagLibrary.

(** The part of the validity check that looks at the id. *)
Definition named (meta : PluginMetadata) : bool := negb (isEmpty (meta_id meta)).

(** The consumer, a file that is no plugin, the provider, and a second
    file with the id of the provider. *)
Definition pluginsDirectory : list (option PluginLoader) :=
  [Some consumer; None; Some provider; Some (plugin "com.test.provider" [] ["BarService"])].

(** A plugin whose library cannot be loaded, and a plugin that requires
    it. *)
Definition broken : PluginLoader :=
  {| metadata := {| meta_id := "com.test.broken"; version := 1; provides := [];
                    requires := [] |};
     library := (false, false) |}.

Definition dependent : PluginLoader :=
  plugin "com.test.dependent" [requirePlugin "com.test.broken"] [].

Definition fragile : Manager := discoverAll [dependent; broken].

End DiscoveryExamples.

(** ** Topic patterns ([compilePattern], [matchesTopic]) *)

Module TopicPattern.

Definition inRange (lo hi c : ascii) : bool :=
  (nat_of_ascii lo <=? nat_of_ascii c)%nat && (nat_of_ascii c <=? nat_of_ascii hi)%nat.

(** The characters [QRegularExpression::escape] leaves alone:
    [a-zA-Z0-9_]. *)
Definition isWordChar (c : ascii) : bool :=
  inRange "a" "z" c || inRange "A" "Z" c || inRange "0" "9" c || Ascii.eqb c "_".

Definition isNul (c : ascii) : bool := Ascii.eqb c "000".

(** [QRegularExpression::escape]: NUL becomes backslash-zero, every
    character outside [a-zA-Z0-9_] gets a backslash. *)
Fixpoint escape (s : string) : string :=
  match s with
  | EmptyString => EmptyString
  | String c rest =>
      if isNul c then String "\" (String "0" (escape rest))
      else if isWordChar c then String c (escape rest)
      else String "\" (String c (escape rest))
  end.

(** [s] begins with [before]. *)
Fixpoint startsWith (before s : string) : bool :=
  match before with
  | EmptyString => true
  | String a before' =>
      match s with
      | EmptyString => false
      | String c s' => Ascii.eqb a c && startsWith before' s'
      end
  end.

(** [QString::replace(before, after)] for a non-empty [before]: every
    occurrence, found left to right, the search resuming after the
    replaced text.  [skip] counts the characters of an occurrence still
    to be dropped. *)
Fixpoint replaceFrom (before after : string) (skip : nat) (s : string) : string :=
  match s with
  | EmptyString => EmptyString
  | String c rest =>
      match skip with
      | S k => replaceFrom before after k rest
      | 0 =>
          if startsWith before s
          then after +:+ replaceFrom before after (String.length before - 1) rest
          else String c (replaceFrom before after 0 rest)
      end
  end.

Definition replace (before after s : string) : string :=
  replaceFrom before after 0 s.

Definition compilePattern (pattern : string) : string :=
  let regex := escape pattern in
  let regex := replace "\*\*" "<<DOUBLE_STAR>>" regex in
  let regex := replace "\*" "[^/]+" regex in
  let regex := replace "<<DOUBLE_STAR>>" ".+" regex in
  "^" +:+ regex +:+ "$".

(** *** QRegularExpression on the expressions [compilePattern] builds

    The expressions are a start anchor, a sequence of literal
    characters, [[^/]+] and [.+], and an end anchor.  Other syntax is
    outside this fragment ([None]). *)
Inductive Item :=
  | Lit (c : ascii)
  | NotSlashPlus
  | AnyPlus.

(** The characters with a meaning of their own in an expression. *)
Definition isMeta (c : ascii) : bool :=
  bool_decide (c ∈ ["\"; "^"; "$"; "."; "["; "]"; "|"; "("; ")"; "?"; "*"; "+";
                    "{"; "}"]%char).

Definition isOctal (c : ascii) : bool := inRange "0" "7" c.

Definition octalValue (c : ascii) : nat := nat_of_ascii c - 48.

(** What follows a backslash: a character that is not alphanumeric
    stands for itself; [0] starts an octal code of up to two further
    digits.  The result is the character and the number of characters
    read after the backslash. *)
Definition escapeSequence (s : string) : option (ascii * nat) :=
  match s with
  | EmptyString => None
  | String d rest =>
      if Ascii.eqb d "0" then
        match rest with
        | String d1 rest1 =>
            if isOctal d1 then
              match rest1 with
              | String d2 _ =>
                  if isOctal d2
                  then Some (ascii_of_nat (8 * octalValue d1 + octalValue d2), 3)
                  else Some (ascii_of_nat (octalValue d1), 2)
              | EmptyString => Some (ascii_of_nat (octalValue d1), 2)
              end
            else Some ("000"%char, 1)
        | EmptyString => Some ("000"%char, 1)
        end
      else if isWordChar d && negb (Ascii.eqb d "_") then None
      else Some (d, 1)
  end.

(** The items after the start anchor, up to the end anchor at the end
    of the expression. *)
Fixpoint parseItems (skip : nat) (s : string) : option (list Item) :=
  match s with
  | EmptyString => None
  | String c rest =>
      match skip with
      | S k => parseItems k rest
      | 0 =>
          if Ascii.eqb c "\" then
            match escapeSequence rest with
            | Some (d, n) => cons (Lit d) <$> parseItems n rest
            | None => None
            end
          else if startsWith "[^/]+" s then cons NotSlashPlus <$> parseItems 4 rest
          else if startsWith ".+" s then cons AnyPlus <$> parseItems 1 rest
          else if Ascii.eqb c "$" then
            match rest with EmptyString => Some [] | _ => None end
          else if isMeta c then None
          else cons (Lit c) <$> parseItems 0 rest
      end
  end.

Definition parseRegex (regex : string) : option (list Item) :=
  match regex with
  | String "^" body => parseItems 0 body
  | _ => None
  end.

Definition isNewline (c : ascii) : bool := Ascii.eqb c "010".

(** One or more characters satisfying [p], then [k] on the rest. *)
Fixpoint oneOrMore (p : ascii → bool) (k : string → bool) (s : string) : bool :=
  match s with
  | EmptyString => false
  | String c rest => p c && (k rest || oneOrMore p k rest)
  end.

(** The end anchor holds at the end of the subject and before a line
    feed that ends it. *)
Definition atEnd (s : string) : bool :=
  match s with
  | EmptyString => true
  | String c EmptyString => isNewline c
  | _ => false
  end.

(** What an expression of the fragment matches: the subject from its
    start to the end anchor, with every way of ending a repetition
    tried.  The dot matches any character but the line feed. *)
Fixpoint matchItems (items : list Item) (s : string) : bool :=
  match items with
  | [] => atEnd s
  | Lit c :: more =>
      match s with
      | String d rest => Ascii.eqb c d && matchItems more rest
      | EmptyString => false
      end
  | NotSlashPlus :: more => oneOrMore (λ c, negb (Ascii.eqb c "/")) (matchItems more) s
  | AnyPlus :: more => oneOrMore (λ c, negb (isNewline c)) (matchItems more) s
  end.

(** [s] begins with a character satisfying [p]. *)
Definition startsRun (p : ascii → bool) (s : string) : bool :=
  match s with
  | String c _ => p c
  | EmptyString => false
  end.

(** What is left of [s] after its longest beginning of characters
    satisfying [p]. *)
Fixpoint skipRun (p : ascii → bool) (s : string) : string :=
  match s with
  | String c rest => if p c then skipRun p rest else s
  | EmptyString => EmptyString
  end.

(** The first attempt of a backtracking search: every repetition takes
    the longest run there is, and nothing is given back. *)
Fixpoint longestRuns (items : list Item) (s : string) : bool :=
  match items with
  | [] => atEnd s
  | Lit c :: more =>
      match s with
      | String d rest => Ascii.eqb c d && longestRuns more rest
      | EmptyString => false
      end
  | NotSlashPlus :: more =>
      startsRun (λ c, negb (Ascii.eqb c "/")) s
      && longestRuns more (skipRun (λ c, negb (Ascii.eqb c "/")) s)
  | AnyPlus :: more =>
      startsRun (λ c, negb (isNewline c)) s
      && longestRuns more (skipRun (λ c, negb (isNewline c)) s)
  end.

(** *** The engine

    [regex.match(subject).hasMatch()] is the library's: PCRE2 searches
    by backtracking, the longest run of a repetition first, and gives
    up when the search reaches the match limit; [hasMatch()] is then
    false although the expression may match.  The engine is an
    interface.  On the expressions of the fragment, what it reports as a
    match is one, and it reports the match that its first attempt
    finds, for which nothing has to be given back.  Whether it reports a
    match that needs backtracking is left open, as is what it does
    outside the fragment. *)
Class RegexEngine := {
  hasMatch : string → string → bool;
  hasMatch_sound : ∀ (regex : string) (items : list Item) (subject : string),
      parseRegex regex = Some items →
      hasMatch regex subject = true → matchItems items subject = true;
  hasMatch_longest : ∀ (regex : string) (items : list Item) (subject : string),
      parseRegex regex = Some items →
      longestRuns items subject = true → hasMatch regex subject = true
}.

(** An engine without match limit, to run the definitions on. *)
Definition searchAll (regex subject : string) : bool :=
  match parseRegex regex with
  | Some items => matchItems items subject
  | None => false
  end.

Lemma oneOrMore_skipRun (p : ascii → bool) (k : string → bool) (s : string) :
  startsRun p s = true → k (skipRun p s) = true → oneOrMore p k s = true.
Proof.
  induction s as [|c s IH]; simpl; [done|]. intros Hc. rewrite Hc. simpl.
  destruct s as [|d s]; simpl in *.
  - intros ->. done.
  - destruct (p d); [|by intros ->].
    intros Hk. rewrite (IH eq_refl Hk). apply orb_true_r.
Qed.

Lemma longestRuns_matchItems (items : list Item) (s : string) :
  longestRuns items s = true → matchItems items s = true.
Proof.
  revert s. induction items as [|[c| |] items IH]; intros s; simpl.
  - done.
  - destruct s as [|d s]; [done|]. rewrite !andb_true_iff. intros [? ?]. auto.
  - rewrite andb_true_iff. intros [? ?]. apply oneOrMore_skipRun; auto.
  - rewrite andb_true_iff. intros [? ?]. apply oneOrMore_skipRun; auto.
Qed.

Lemma searchAll_sound (regex : string) (items : list Item) (subject : string) :
  parseRegex regex = Some items →
  searchAll regex subject = true → matchItems items subject = true.
Proof. unfold searchAll. by intros ->. Qed.

Lemma searchAll_longest (regex : string) (items : list Item) (subject : string) :
  parseRegex regex = Some items →
  longestRuns items subject = true → searchAll regex subject = true.
Proof. unfold searchAll. intros ->. apply longestRuns_matchItems. Qed.

Definition unlimited : RegexEngine :=
  {| hasMatch := searchAll;
     hasMatch_sound := searchAll_sound;
     hasMatch_longest := searchAll_longest |}.

Definition matchesTopic `{RegexEngine} (topic pattern : string) : bool :=
  hasMatch (compilePattern pattern) topic.

(** *** The pattern read directly

    The items a pattern stands for: a pair of stars, a single star, any
    other character. *)
Fixpoint patternItems (pattern : string) : list Item :=
  match pattern with
  | EmptyString => []
  | String c rest =>
      if Ascii.eqb c "*" then
        match rest with
        | String c' rest' =>
            if Ascii.eqb c' "*" then AnyPlus :: patternItems rest'
            else NotSlashPlus :: patternItems rest
        | EmptyString => [NotSlashPlus]
        end
      else Lit c :: patternItems rest
  end.

(** The expression after each step of [compilePattern], read off the
    pattern: [dbl] stands where a pair of stars was, [single] where a
    single star was, and every other character is escaped. *)
Definition escapeChar (c : ascii) : string :=
  if isNul c then "\0"
  else if isWordChar c then String c ""
  else String "\" (String c "").

Fixpoint render (dbl single : string) (pattern : string) : string :=
  match pattern with
  | EmptyString => EmptyString
  | String c rest =>
      if Ascii.eqb c "*" then
        match rest with
        | String c' rest' =>
            if Ascii.eqb c' "*" then dbl +:+ render dbl single rest'
            else single +:+ render dbl single rest
        | EmptyString => single
        end
      else escapeChar c +:+ render dbl single rest
  end.

(** The mark of the first replacement and the class of the second. *)
Definition doubleStarMark : string := "<<DOUBLE_STAR>>".

Definition notSlashRun : string := "[^/]+".

(** The pattern holds no NUL character. *)
Definition nulFree (pattern : string) : Prop :=
  Forall (λ c, c ≠ "000"%char) (String.list_ascii_of_string pattern).

(** A topic is matched by a list of items when it splits into one piece
    per item, in order, up to a line feed that ends it. *)
Inductive Matches : list Item → string → Prop :=
  | Matches_end : Matches [] ""
  | Matches_end_newline : Matches [] (String "010" "")
  | Matches_lit c items s :
      Matches items s → Matches (Lit c :: items) (String c s)
  | Matches_star piece items s :
      piece ≠ "" →
      (∀ c, c ∈ String.list_ascii_of_string piece → c ≠ "/"%char) →
      Matches items s → Matches (NotSlashPlus :: items) (piece +:+ s)
  | Matches_double_star piece items s :
      piece ≠ "" →
      (∀ c, c ∈ String.list_ascii_of_string piece → c ≠ "010"%char) →
      Matches items s → Matches (AnyPlus :: items) (piece +:+ s).

(** *** The segment-wise reading of the specification

    Modelled on the words of the specification, to compare with
    [matchesTopic]: pattern and topic are split at ['/']; a segment [*]
    takes one non-empty topic segment, a final segment [**] takes all
    remaining segments, of which there is at least one, and any other
    segment takes an equal topic segment. *)
Fixpoint splitFrom (sep : ascii) (current : string) (s : string) : list string :=
  match s with
  | EmptyString => [current]
  | String c rest =>
      if Ascii.eqb c sep then current :: splitFrom sep "" rest
      else splitFrom sep (current +:+ String c "") rest
  end.

Definition segments (s : string) : list string := splitFrom "/" "" s.

Fixpoint segmentsMatch (pattern topic : list string) : bool :=
  match pattern with
  | [] => bool_decide (topic = [])
  | p :: more =>
      if bool_decide (p = "**") && bool_decide (more = [])
      then negb (bool_decide (topic = []))
      else
        match topic with
        | [] => false
        | t :: rest =>
            (if bool_decide (p = "*") then negb (isEmpty t) else bool_decide (p = t))
            && segmentsMatch more rest
        end
  end.

Definition specMatches (topic pattern : string) : bool :=
  segmentsMatch (segments pattern) (segments topic).

(** *** Where the two readings meet

    The vocabulary of the comparison of [matchesTopic] with
    [specMatches]. *)

(** The first segment of a string and, when a slash ends it, what
    follows the slash. *)
Fixpoint firstSegment (s : string) : string * option string :=
  match s with
  | EmptyString => ("", None)
  | String c rest =>
      if Ascii.eqb c "/" then ("", Some rest)
      else let '(t, r) := firstSegment rest in (String c t, r)
  end.

Definition starFree (s : string) : bool :=
  forallb (λ c, negb (Ascii.eqb c "*")) (String.list_ascii_of_string s).

(** The patterns in which the stars stand as the specification has
    them: every segment is [*], holds no star, or is a final [**]. *)
Fixpoint wholeSegments (pattern : list string) : bool :=
  match pattern with
  | [] => true
  | p :: more =>
      (bool_decide (p = "*") || starFree p
       || (bool_decide (p = "**") && bool_decide (more = [])))
      && wholeSegments more
  end.

(** The string holds no line feed. *)
Definition noNewline (s : string) : bool :=
  forallb (λ c, negb (isNewline c)) (String.list_ascii_of_string s).

(** The topics of non-empty segments without line feed. *)
Definition plainTopic (topic : string) : bool :=
  forallb (λ t, negb (isEmpty t)) (segments topic) && noNewline topic.

(** What a continuation says of the text after the slash, if there is
    one. *)
Definition afterSlash (k : string → bool) (r : option string) : bool :=
  match r with
  | Some rest => k rest
  | None => false
  end.

(** The items of a text without star. *)
Definition literal (p : string) : list Item := Lit <$> String.list_ascii_of_string p.

End TopicPattern.

(** ** The event bus ([src/src/event_bus_service.cpp]) *)

(** [std::sort]: some rearrangement of the input in which no element is
    followed by one that the comparison puts before it.  Elements the
    comparison does not separate may come out in any order. *)
Class StdSort := {
  std_sort : ∀ A : Type, (A → A → bool) → list A → list A;
  std_sort_perm : ∀ (A : Type) (comp : A → A → bool) (l : list A),
      std_sort A comp l ≡ₚ l;
  std_sort_sorted : ∀ (A : Type) (comp : A → A → bool) (key : A → Z) (l : list A),
      (∀ a b, comp a b = bool_decide (key b < key a)%Z) →
      Sorted (λ a b, comp b a = false) (std_sort A comp l)
}.
Arguments std_sort {_ _} _ _.

Module EventBus.
Import TopicPattern.

(** [QVariantMap], and the state of the program around the bus that the
    handlers read and change. *)
Class Payload := {
  QVariantMap : Type;
  World : Type
}.

Section bus.
Context `{QHashOrder} `{StdSort} `{Payload} `{RegexEngine}.

Inductive Exception :=
  | std_exception (what : string)
  | other_exception.

(** A call returns a value or leaves by an exception; either way the
    world is the one it left behind. *)
Inductive Outcome (A : Type) :=
  | Returned (a : A) (w : World)
  | Raised (e : Exception) (w : World).
Arguments Returned {A} a w.
Arguments Raised {A} e w.

(** Modelled from the spec: [Event] of [ieventbus.h], with the four
    fields assigned in [publish]. *)
Record Event := {
  topic : string;
  senderId : string;
  data : QVariantMap;
  timestamp : Z
}.

(** Modelled from the spec: [SubscriptionOptions] of [ieventbus.h],
    with the three fields read in [deliverEvent]. *)
Record SubscriptionOptions := {
  priority : Z;
  async : bool;
  receiveOwnEvents : bool
}.

(** Modelled from the spec: [EventHandler] and [RequestHandler] of
    [ieventbus.h], callables on an event; a call may change the world
    and may throw. *)
Definition EventHandler : Type := Event → World → Outcome unit.

Definition RequestHandler : Type := Event → World → Outcome QVariantMap.

Record Subscription := {
  sub_id : string;
  pattern : string;
  subscriberId : string;
  options : SubscriptionOptions;
  regex : string;
  handler : EventHandler
}.

Record TopicData := {
  stats_topic : string;
  eventCount : Z;
  lastEventTime : Z
}.

Record HandlerEntry := {
  entry_topic : string;
  handlerId : string;
  entry_handler : RequestHandler
}.

Record Bus := {
  m_subscriptions : gmap string Subscription;
  m_subscriberIndex : gmap string (list string);
  m_topicStats : gmap string TopicData;
  m_requestHandlers : gmap string HandlerEntry;
  m_handlerIndex : gmap string (list string)
}.

Definition newBus : Bus :=
  {| m_subscriptions := ∅; m_subscriberIndex := ∅; m_topicStats := ∅;
     m_requestHandlers := ∅; m_handlerIndex := ∅ |}.

(** A call queued with [Qt::QueuedConnection]: the handler and its copy
    of the event. *)
Record Task := {
  task_handler : EventHandler;
  task_event : Event
}.

Definition findMatchingSubscriptions (bus : Bus) (topic : string) : list Subscription :=
  filter (λ sub, hasMatch (regex sub) topic = true) (qhash_values (m_subscriptions bus)).

(** The comparison given to [std::sort]. *)
Definition byPriority (a b : Subscription) : bool :=
  bool_decide (priority (options b) < priority (options a))%Z.

(** The test that makes [deliverEvent] pass over a match. *)
Definition skipped (event : Event) (sub : Subscription) : bool :=
  negb (receiveOwnEvents (options sub)) && bool_decide (subscriberId sub = senderId event).

(** The loop of [deliverEvent] over the sorted matches.  A call posted
    with [Qt::QueuedConnection] is in the event queue from then on:
    [queue] holds the calls posted so far, in the order of posting.  An
    exception of an inline handler leaves the loop and the function;
    the calls posted before it stay posted. *)
Fixpoint deliverLoop (event : Event) (synchronous : bool) (matches : list Subscription)
    (notified : Z) (queue : list Task) (w : World) : list Task * Outcome Z :=
  match matches with
  | [] => (queue, Returned notified w)
  | sub :: rest =>
      if skipped event sub then deliverLoop event synchronous rest notified queue w
      else
        let notified := (notified + 1)%Z in
        if async (options sub) && negb synchronous
        then deliverLoop event synchronous rest notified
               (queue ++ [{| task_handler := handler sub; task_event := event |}]) w
        else
          match handler sub event w with
          | Returned _ w' => deliverLoop event synchronous rest notified queue w'
          | Raised e w' => (queue, Raised e w')
          end
  end.

(** [m_topicStats[event.topic]] with its three assignments. *)
Definition recordEvent (event : Event) (stats : gmap string TopicData) : gmap string TopicData :=
  let old := default {| stats_topic := ""; eventCount := 0; lastEventTime := 0 |}
                     (stats !! topic event) in
  <[topic event := {| stats_topic := topic event;
                      eventCount := (eventCount old + 1)%Z;
                      lastEventTime := timestamp event |}]> stats.

(** The results are the bus, the calls posted to the event queue and
    the outcome of the call: the count returned, or the exception. *)
Definition deliverEvent (bus : Bus) (event : Event) (synchronous : bool) (w : World)
    : Bus * list Task * Outcome Z :=
  let bus' := {| m_subscriptions := m_subscriptions bus;
                 m_subscriberIndex := m_subscriberIndex bus;
                 m_topicStats := recordEvent event (m_topicStats bus);
                 m_requestHandlers := m_requestHandlers bus;
                 m_handlerIndex := m_handlerIndex bus |} in
  let matches := findMatchingSubscriptions bus' (topic event) in
  match matches with
  | [] => (bus', [], Returned 0%Z w)
  | _ =>
      let run := deliverLoop event synchronous (std_sort byPriority matches) 0 [] w in
      (bus', run.1, run.2)
  end.

(** [now] is [QDateTime::currentMSecsSinceEpoch()]. *)
Definition publish (bus : Bus) (topic : string) (data : QVariantMap) (senderId : string)
    (now : Z) (w : World) : Bus * list Task * Outcome Z :=
  deliverEvent bus {| topic := topic; senderId := senderId; data := data; timestamp := now |}
               false w.

Definition publishSync (bus : Bus) (topic : string) (data : QVariantMap) (senderId : string)
    (now : Z) (w : World) : Bus * list Task * Outcome Z :=
  deliverEvent bus {| topic := topic; senderId := senderId; data := data; timestamp := now |}
               true w.

(** [uuid] is the string of [QUuid::createUuid()]; a null handler is
    [None]. *)
Definition subscribe (bus : Bus) (pattern subscriberId : string)
    (handler : option EventHandler) (options : SubscriptionOptions) (uuid : string)
    : Bus * string :=
  match handler with
  | None => (bus, "")
  | Some h =>
      let sub := {| sub_id := uuid; pattern := pattern; subscriberId := subscriberId;
                    options := options; regex := compilePattern pattern; handler := h |} in
      ({| m_subscriptions := <[uuid := sub]> (m_subscriptions bus);
          m_subscriberIndex :=
            <[subscriberId := default [] (m_subscriberIndex bus !! subscriberId) ++ [uuid]]>
              (m_subscriberIndex bus);
          m_topicStats := m_topicStats bus;
          m_requestHandlers := m_requestHandlers bus;
          m_handlerIndex := m_handlerIndex bus |}, uuid)
  end.

(** [QList::removeAll]. *)
Definition removeAll (x : string) (l : list string) : list string :=
  filter (λ y, y ≠ x) l.

(** [index[key].removeAll(x)] and the removal of the entry once its
    list is empty; [operator[]] enters an empty list for a missing key. *)
Definition dropFromIndex (key x : string) (index : gmap string (list string))
    : gmap string (list string) :=
  let remaining := removeAll x (default [] (index !! key)) in
  match remaining with
  | [] => delete key index
  | _ => <[key := remaining]> index
  end.

Definition unsubscribe (bus : Bus) (subscriptionId : string) : Bus * bool :=
  match m_subscriptions bus !! subscriptionId with
  | None => (bus, false)
  | Some sub =>
      ({| m_subscriptions := delete subscriptionId (m_subscriptions bus);
          m_subscriberIndex :=
            dropFromIndex (subscriberId sub) subscriptionId (m_subscriberIndex bus);
          m_topicStats := m_topicStats bus;
          m_requestHandlers := m_requestHandlers bus;
          m_handlerIndex := m_handlerIndex bus |}, true)
  end.

Definition unsubscribeAll (bus : Bus) (subscriberId : string) : Bus :=
  let ids := default [] (m_subscriberIndex bus !! subscriberId) in
  {| m_subscriptions := foldl (λ subs i, delete i subs) (m_subscriptions bus) ids;
     m_subscriberIndex := delete subscriberId (m_subscriberIndex bus);
     m_topicStats := m_topicStats bus;
     m_requestHandlers := m_requestHandlers bus;
     m_handlerIndex := m_handlerIndex bus |}.

Definition registerHandler (bus : Bus) (topic handlerId : string)
    (handler : option RequestHandler) : Bus * bool :=
  match handler with
  | None => (bus, false)
  | Some h =>
      if isEmpty topic then (bus, false)
      else
        match m_requestHandlers bus !! topic with
        | Some _ => (bus, false)
        | None =>
            let entry := {| entry_topic := topic; handlerId := handlerId;
                            entry_handler := h |} in
            ({| m_subscriptions := m_subscriptions bus;
                m_subscriberIndex := m_subscriberIndex bus;
                m_topicStats := m_topicStats bus;
                m_requestHandlers := <[topic := entry]> (m_requestHandlers bus);
                m_handlerIndex :=
                  <[handlerId := default [] (m_handlerIndex bus !! handlerId) ++ [topic]]>
                    (m_handlerIndex bus) |}, true)
        end
  end.

Definition unregisterHandler (bus : Bus) (topic : string) : Bus * bool :=
  match m_requestHandlers bus !! topic with
  | None => (bus, false)
  | Some entry =>
      ({| m_subscriptions := m_subscriptions bus;
          m_subscriberIndex := m_subscriberIndex bus;
          m_topicStats := m_topicStats bus;
          m_requestHandlers := delete topic (m_requestHandlers bus);
          m_handlerIndex := dropFromIndex (handlerId entry) topic (m_handlerIndex bus) |},
       true)
  end.

Definition unregisterAllHandlers (bus : Bus) (handlerId : string) : Bus :=
  let topics := default [] (m_handlerIndex bus !! handlerId) in
  {| m_subscriptions := m_subscriptions bus;
     m_subscriberIndex := m_subscriberIndex bus;
     m_topicStats := m_topicStats bus;
     m_requestHandlers := foldl (λ hs t, delete t hs) (m_requestHandlers bus) topics;
     m_handlerIndex := delete handlerId (m_handlerIndex bus) |}.

(** [try { ... } catch (const std::exception&) { ... } catch (...) { ... }] *)
Definition tryCatch {A} (body : Outcome A)
    (onStdException : string → World → Outcome A)
    (onOther : World → Outcome A) : Outcome A :=
  match body with
  | Returned a w => Returned a w
  | Raised (std_exception what) w => onStdException what w
  | Raised other_exception w => onOther w
  end.

Definition request (bus : Bus) (topic : string) (data : QVariantMap) (senderId : string)
    (timeoutMs : Z) (now : Z) (w : World) : Outcome (option QVariantMap) :=
  match m_requestHandlers bus !! topic with
  | None => Returned None w
  | Some entry =>
      let event := {| topic := topic; senderId := senderId; data := data;
                      timestamp := now |} in
      tryCatch
        (match entry_handler entry event w with
         | Returned response w' => Returned (Some response) w'
         | Raised e w' => Raised e w'
         end)
        (λ _ w', Returned None w')
        (λ w', Returned None w')
  end.

Definition hasHandler (bus : Bus) (topic : string) : bool :=
  bool_decide (is_Some (m_requestHandlers bus !! topic)).

Definition subscriberCount (bus : Bus) (topic : string) : nat :=
  length (findMatchingSubscriptions bus topic).

Definition subscriptionsFor (bus : Bus) (subscriberId : string) : list string :=
  default [] (m_subscriberIndex bus !! subscriberId).

Definition totalSubscribers (bus : Bus) : nat := size (m_subscriptions bus).


(** *** Queries on the tables *)

(** Modelled from the spec: [TopicStats] of [ieventbus.h], with the
    four fields that [topicStats] assigns; the three counters of a new
    [TopicStats] are zero, as those of [TopicData] are. *)
Record TopicStats := {
  ts_topic : string;
  ts_subscriberCount : Z;
  ts_eventCount : Z;
  ts_lastEventTime : Z
}.

(** The loop of [topicStats] over the table: one more for every
    subscription whose expression matches the topic. *)
Definition countMatching (topic : string) (subs : list Subscription) : Z :=
  foldl (λ count sub, if hasMatch (regex sub) topic then (count + 1)%Z else count) 0%Z subs.

Definition topicStats (bus : Bus) (topic : string) : TopicStats :=
  let count := countMatching topic (qhash_values (m_subscriptions bus)) in
  match m_topicStats bus !! topic with
  | Some recorded =>
      {| ts_topic := topic; ts_subscriberCount := count;
         ts_eventCount := eventCount recorded;
         ts_lastEventTime := lastEventTime recorded |}
  | None =>
      {| ts_topic := topic; ts_subscriberCount := count;
         ts_eventCount := 0; ts_lastEventTime := 0 |}
  end.

(** [QSet<QString>] is a hash table of its elements; [values()] lists
    them in the order of the table. *)
Definition activeTopics (bus : Bus) : list string :=
  qhash_keys
    (foldl (λ (patterns : gmap string ()) sub, <[pattern sub := ()]> patterns) ∅
       (qhash_values (m_subscriptions bus))).

(** *** The subscription table and the subscriber index *)

(** The number of ids held across an index. *)
Definition indexTotal (index : gmap string (list string)) : nat :=
  map_fold (λ _ ids n, length ids + n) 0 index.

(** The index lists under a subscriber exactly the keys of the
    subscriptions it owns, each once; no list is empty; the table has
    as many entries as the index holds ids. *)
Record indexConsistent (bus : Bus) : Prop := {
  index_owner : ∀ s sid,
    sid ∈ default [] (m_subscriberIndex bus !! s) ↔
    ∃ sub, m_subscriptions bus !! sid = Some sub ∧ subscriberId sub = s;
  index_lists : ∀ s ids,
    m_subscriberIndex bus !! s = Some ids → ids ≠ [] ∧ NoDup ids;
  index_total : totalSubscribers bus = indexTotal (m_subscriberIndex bus)
}.

(** *** Delivery, one subscription at a time *)

(** The matches [deliverEvent] does not pass over. *)
Definition notifiedOf (event : Event) (subs : list Subscription) : list Subscription :=
  filter (λ sub, skipped event sub = false) subs.

(** Whether [deliverEvent] queues the call of a subscription instead of
    making it. *)
Definition queuedFor (synchronous : bool) (sub : Subscription) : bool :=
  async (options sub) && negb synchronous.

Definition inlineOf (synchronous : bool) (subs : list Subscription) : list Subscription :=
  filter (λ sub, queuedFor synchronous sub = false) subs.

Definition queuedOf (synchronous : bool) (subs : list Subscription) : list Subscription :=
  filter (λ sub, queuedFor synchronous sub = true) subs.

Definition taskFor (event : Event) (sub : Subscription) : Task :=
  {| task_handler := handler sub; task_event := event |}.

(** The handlers of [subs] called one after the other, each on the
    world the one before left; the first exception ends the run. *)
Fixpoint runHandlers (event : Event) (subs : list Subscription) (w : World) : Outcome unit :=
  match subs with
  | [] => Returned () w
  | sub :: rest =>
      match handler sub event w with
      | Returned _ w' => runHandlers event rest w'
      | Raised e w' => Raised e w'
      end
  end.

(** The subscriptions of [subs] that a delivery gets to: all of them
    when every handler called inline returns, else those up to the one
    whose handler raises. *)
Fixpoint reachedOf (event : Event) (synchronous : bool) (subs : list Subscription)
    (w : World) : list Subscription :=
  match subs with
  | [] => []
  | sub :: rest =>
      if queuedFor synchronous sub then sub :: reachedOf event synchronous rest w
      else
        match handler sub event w with
        | Returned _ w' => sub :: reachedOf event synchronous rest w'
        | Raised _ _ => [sub]
        end
  end.

(** No subscription is followed by one of higher priority. *)
Definition descending (a b : Subscription) : Prop :=
  (priority (options b) ≤ priority (options a))%Z.

(** What a request amounts to when [h] is the handler of its topic. *)
Definition answerOf (h : RequestHandler) (event : Event) (w : World)
    : Outcome (option QVariantMap) :=
  match h event w with
  | Returned response w' => Returned (Some response) w'
  | Raised _ w' => Returned None w'
  end.

(** *** A table and the index of its owners

    The bus keeps two tables of this shape: the subscriptions with the
    subscriber index, and the request handlers with the handler
    index.  The index lists under an owner exactly the keys of the
    entries it owns, each once, and holds no empty list. *)
Record ownedBy {V : Type} (owner : V → string) (table : gmap string V)
    (index : gmap string (list string)) : Prop := {
  owned_keys : ∀ o k,
    k ∈ default [] (index !! o) ↔ ∃ v, table !! k = Some v ∧ owner v = o;
  owned_lists : ∀ o ks, index !! o = Some ks → ks ≠ [] ∧ NoDup ks
}.

Definition handlersConsistent (bus : Bus) : Prop :=
  ownedBy handlerId (m_requestHandlers bus) (m_handlerIndex bus).

(** Every subscription of the table carries the expression compiled
    from its own pattern. *)
Definition compiledMatchers (bus : Bus) : Prop :=
  map_Forall (λ _ sub, regex sub = compilePattern (pattern sub)) (m_subscriptions bus).

(** The bus after a series of deliveries, each with its event, its
    mode and the world it starts from. *)
Definition afterDeliveries (bus : Bus) (runs : list (Event * bool * World)) : Bus :=
  foldl (λ b run, (deliverEvent b run.1.1 run.1.2 run.2).1.1) bus runs.

(** The events of a topic among [runs], and the time of the last one
    ([latest] if there is none). *)
Definition eventsOn (t : string) (runs : list (Event * bool * World)) : list Event :=
  filter (λ event, topic event = t) (runs.*1.*1).

Definition lastTime (latest : Z) (events : list Event) : Z :=
  default latest (timestamp <$> last events).

End bus.

Arguments Returned {_ _} a w.
Arguments Raised {_ _} e w.

End EventBus.

(** *** A bus to run the definitions on *)

Module BusExamples.
Import EventBus.

#[local] Existing Instance keyOrder.
#[local] Existing Instance TopicPattern.unlimited.

(** A sorting function within the contract of [std::sort]. *)
Definition mergeSort (A : Type) (comp : A → A → bool) (l : list A) : list A :=
  @merge_sort A (λ a b, comp b a = false) (λ a b, decide (comp b a = false)) l.

Lemma mergeSort_perm (A : Type) (comp : A → A → bool) (l : list A) :
  mergeSort A comp l ≡ₚ l.
Proof. apply merge_sort_Permutation. Qed.

Lemma mergeSort_sorted (A : Type) (comp : A → A → bool) (key : A → Z) (l : list A) :
  (∀ a b, comp a b = bool_decide (key b < key a)%Z) →
  Sorted (λ a b, comp b a = false) (mergeSort A comp l).
Proof.
  intros Hkey. apply Sorted_merge_sort. intros a b.
  rewrite !Hkey, !bool_decide_eq_false. lia.
Qed.

#[local] Instance stableSort : StdSort :=
  {| std_sort := mergeSort;
     std_sort_perm := mergeSort_perm;
     std_sort_sorted := mergeSort_sorted |}.

(** The data of an event is a list of pairs; the world is the list of
    the names the handlers have written down. *)
#[local] Instance logPayload : Payload :=
  {| QVariantMap := list (string * string); World := list string |}.

(** A handler that writes its name, as in [testPriority]. *)
Definition writes (name : string) : EventHandler :=
  λ _ w, Returned () (w ++ [name]).

(** A handler that throws, as in [testRequestHandlerException]. *)
Definition throws (what : string) : EventHandler :=
  λ _ w, Raised (std_exception what) w.

Definition answers (response : list (string * string)) : RequestHandler :=
  λ _ w, Returned response w.

Definition fails (what : string) : RequestHandler :=
  λ _ w, Raised (std_exception what) w.

Definition inlineAt (p : Z) : SubscriptionOptions :=
  {| priority := p; async := false; receiveOwnEvents := false |}.

Definition firstId : string := "d3b07384-d9a0-4c9b-8f5e-5a1c2b3d4e5f".

Definition secondId : string := "1f0e9d8c-7b6a-4f5e-9d3c-2b1a0f9e8d7c".

(** Two subscriptions of equal priority to the same topic, "first" made
    before "second"; the ids are those the two subscribers were
    given. *)
Definition firstThenSecond : Bus :=
  (subscribe (subscribe newBus "test" "first" (Some (writes "first")) (inlineAt 0) firstId).1
     "test" "second" (Some (writes "second")) (inlineAt 0) secondId).1.

(** A low and a high priority, subscribed in this order
    ([testPriority]). *)
Definition lowThenHigh : Bus :=
  (subscribe (subscribe newBus "test" "low" (Some (writes "low")) (inlineAt 1) secondId).1
     "test" "high" (Some (writes "high")) (inlineAt 10) firstId).1.

(** A handler that throws ahead of one that writes. *)
Definition throwsFirst : Bus :=
  (subscribe (subscribe newBus "test" "broken" (Some (throws "boom")) (inlineAt 10) firstId).1
     "test" "fine" (Some (writes "fine")) (inlineAt 1) secondId).1.

(** An asynchronous subscription ahead of a handler that throws. *)
Definition queuedThenThrows : Bus :=
  (subscribe
     (subscribe newBus "test" "later" (Some (writes "later"))
        {| priority := 10; async := true; receiveOwnEvents := false |} firstId).1
     "test" "broken" (Some (throws "boom")) (inlineAt 1) secondId).1.

(** The two subscriptions of [throwsFirst]. *)
Definition brokenSubscription : Subscription :=
  {| sub_id := firstId; pattern := "test"; subscriberId := "broken";
     options := inlineAt 10; regex := TopicPattern.compilePattern "test";
     handler := throws "boom" |}.

Definition fineSubscription : Subscription :=
  {| sub_id := secondId; pattern := "test"; subscriberId := "fine";
     options := inlineAt 1; regex := TopicPattern.compilePattern "test";
     handler := writes "fine" |}.
End BusExamples.


(** *** The request entry point of QML

    [requestFromQml] writes into the response, so here [QVariantMap] is
    what it is in Qt, a map from strings to [QVariant]; [fromBool] and
    [fromString] are the conversions of a [bool] and of a string
    literal to [QVariant]. *)

Module QmlRequests.
Import EventBus.

Section qml.
Context `{QHashOrder} `{StdSort}.
Context {QVariant Host : Type} (fromBool : bool → QVariant) (fromString : string → QVariant).

#[local] Instance variantPayload : Payload :=
  {| QVariantMap := gmap string QVariant; World := Host |}.

Definition requestFromQml (bus : Bus) (topic : string) (data : QVariantMap)
    (senderId : string) (timeoutMs : Z) (now : Z) (w : World) : Outcome QVariantMap :=
  match request bus topic data senderId timeoutMs now w with
  | Returned (Some response) w' =>
      Returned (<["__success" := fromBool true]> response) w'
  | Returned None w' =>
      Returned (<["__success" := fromBool false]>
                  (<["__error" := fromString "No handler or handler failed"]> ∅)) w'
  | Raised e w' => Raised e w'
  end.

Definition hasHandlerQml (bus : Bus) (topic : string) : bool := hasHandler bus topic.

End qml.

End QmlRequests.

(** ** The navigation service ([src/src/navigation_service.cpp])

    The routes and the stack of the service.  The QML side is an
    input: each call that reaches it is given what it answers.  The
    signals are left out. *)

Module NavigationService.

(** [QString::endsWith]. *)
Fixpoint endsWith (suffix s : string) : bool :=
  String.eqb s suffix ||
  match s with
  | EmptyString => false
  | String _ rest => endsWith suffix rest
  end.

(** [QString::left]. *)
Fixpoint left (n : nat) (s : string) : string :=
  match n, s with
  | S n', String c rest => String c (left n' rest)
  | _, _ => EmptyString
  end.

(** [QString::startsWith]. *)
Definition startsWith (prefix s : string) : bool := TopicPattern.startsWith prefix s.

Section navigation.
Context {QVariantMap : Type}.

Record RouteEntry := {
  pattern : string;
  component : string
}.

Record StackEntry := {
  route : string;
  params : QVariantMap
}.

(** [m_stack] has its top at the end, as [QStack] has. *)
Record Navigation := {
  m_routes : list RouteEntry;
  m_stack : list StackEntry
}.

Definition registerRoute (nav : Navigation) (route qmlComponent : string) : Navigation :=
  {| m_routes := m_routes nav ++ [{| pattern := route; component := qmlComponent |}];
     m_stack := m_stack nav |}.

(** The loop of [resolveComponent] over the routes.  The result is the
    string that the [QUrl] of the component is made from. *)
Fixpoint findRoute (routes : list RouteEntry) (route : string) : option string :=
  match routes with
  | [] => None
  | entry :: rest =>
      if String.eqb (pattern entry) route || String.eqb (pattern entry) "*"
      then Some (component entry)
      else if endsWith "/*" (pattern entry)
              && startsWith (left (String.length (pattern entry) - 2) (pattern entry)) route
      then Some (component entry)
      else findRoute rest route
  end.

(** [None] is the invalid [QVariant]. *)
Definition resolveComponent (nav : Navigation) (route : string) : option string :=
  match findRoute (m_routes nav) route with
  | Some url => Some url
  | None => if endsWith ".qml" route then Some route else None
  end.

(** What the QML side answers during one call: whether the stack view
    is found, whether the component made from a URL has errors, and
    whether the method invoked on the view returns a valid value. *)
Record View := {
  found : bool;
  hasErrors : string → bool;
  answers : bool
}.

Definition push (nav : Navigation) (route : string) (params : QVariantMap) (view : View)
    : Navigation * bool :=
  if negb (found view) then (nav, false)
  else
    match resolveComponent nav route with
    | None => (nav, false)
    | Some url =>
        if hasErrors view url then (nav, false)
        else if answers view
        then ({| m_routes := m_routes nav;
                 m_stack := m_stack nav ++ [{| route := route; params := params |}] |}, true)
        else (nav, false)
    end.

(** [QStack::pop] on a stack that is not empty. *)
Definition dropTop (stack : list StackEntry) : list StackEntry := removelast stack.

Definition pop (nav : Navigation) (view : View) : Navigation * bool :=
  if negb (found view) || (length (m_stack nav) <=? 1) then (nav, false)
  else if answers view
  then ({| m_routes := m_routes nav; m_stack := dropTop (m_stack nav) |}, true)
  else (nav, false).

(** The loop [while (m_stack.size() > 1) m_stack.pop()] runs once for
    every entry above the first. *)
Definition popToRoot (nav : Navigation) (view : View) : Navigation :=
  if negb (found view) then nav
  else {| m_routes := m_routes nav;
          m_stack := Nat.iter (length (m_stack nav) - 1) dropTop (m_stack nav) |}.

Definition replace (nav : Navigation) (route : string) (params : QVariantMap) (view : View)
    : Navigation * bool :=
  if negb (found view) then (nav, false)
  else
    match resolveComponent nav route with
    | None => (nav, false)
    | Some url =>
        if answers view
        then ({| m_routes := m_routes nav;
                 m_stack := (match m_stack nav with
                             | [] => []
                             | stack => dropTop stack
                             end) ++ [{| route := route; params := params |}] |}, true)
        else (nav, false)
    end.

Definition currentRoute (nav : Navigation) : string :=
  match last (m_stack nav) with
  | None => ""
  | Some top => route top
  end.

Definition stackDepth (nav : Navigation) : nat := length (m_stack nav).

Definition canGoBack (nav : Navigation) : bool := 1 <? length (m_stack nav).

(** *** Vocabulary *)

(** An entry with this pattern is taken for the route. *)
Definition accepts (pattern route : string) : bool :=
  String.eqb pattern route || String.eqb pattern "*" ||
  (endsWith "/*" pattern && startsWith (left (String.length pattern - 2) pattern) route).

End navigation.

Arguments RouteEntry : clear implicits.
Arguments StackEntry : clear implicits.
Arguments Navigation : clear implicits.

End NavigationService.

(** * Part II: properties *)

(** ** Lists and hash tables *)

Section precedes_facts.
Context {A : Type}.
Implicit Types l : list A.

Lemma precedes_app_l (a b : A) l l' : precedes a b l → precedes a b (l ++ l').
Proof.
  intros (i & j & Hi & Hj & Hlt). exists i, j.
  split_and!; [by apply lookup_app_l_Some..|done].
Qed.

Lemma precedes_snoc (a b : A) l : a ∈ l → precedes a b (l ++ [b]).
Proof.
  intros [i Hi]%list_elem_of_lookup. exists i, (length l).
  split_and!.
  - by apply lookup_app_l_Some.
  - by rewrite list_lookup_middle.
  - by eapply lookup_lt_Some.
Qed.

Lemma precedes_trans (a b c : A) l :
  NoDup l → precedes a b l → precedes b c l → precedes a c l.
Proof.
  intros Hnd (i & j & Hi & Hj & Hij) (j' & k & Hj' & Hk & Hjk).
  assert (j = j') as <- by (eapply NoDup_lookup; eauto).
  exists i, k. split_and!; [done..|lia].
Qed.

Lemma precedes_irrefl (a : A) l : NoDup l → ¬ precedes a a l.
Proof.
  intros Hnd (i & j & Hi & Hj & Hij).
  assert (i = j) by (eapply NoDup_lookup; eauto). lia.
Qed.

Lemma precedes_elem_of_l (a b : A) l : precedes a b l → a ∈ l.
Proof. intros (i & j & Hi & _). by eapply list_elem_of_lookup_2. Qed.

Lemma precedes_elem_of_r (a b : A) l : precedes a b l → b ∈ l.
Proof. intros (i & j & _ & Hj & _). by eapply list_elem_of_lookup_2. Qed.
End precedes_facts.

Section list_count.
Context {A : Type} (P Q : A → Prop) `{∀ x, Decision (P x)} `{∀ x, Decision (Q x)}.

Lemma length_filter_mono (l : list A) :
  (∀ x, x ∈ l → P x → Q x) → length (filter P l) ≤ length (filter Q l).
Proof.
  induction l as [|a l IH]; intros Himp; [done|].
  rewrite !filter_cons.
  assert (length (filter P l) ≤ length (filter Q l)) as Hle.
  { apply IH. intros x Hx. apply Himp. by right. }
  destruct (decide (P a)) as [Hp|Hp].
  - rewrite decide_True by (apply Himp; [left|done]). simpl. lia.
  - destruct (decide (Q a)); simpl; lia.
Qed.

Lemma length_filter_lt (l : list A) (a : A) :
  a ∈ l → Q a → ¬ P a → (∀ x, x ∈ l → P x → Q x) →
  length (filter P l) < length (filter Q l).
Proof.
  induction l as [|b l IH]; intros Hin Hq Hnp Himp; [by apply elem_of_nil in Hin|].
  rewrite !filter_cons.
  assert (∀ x, x ∈ l → P x → Q x) as Himp' by (intros x Hx; apply Himp; by right).
  pose proof (length_filter_mono l Himp') as Hle.
  apply elem_of_cons in Hin as [<-|Hin].
  - rewrite decide_False by done. rewrite decide_True by done. simpl. lia.
  - specialize (IH Hin Hq Hnp Himp').
    destruct (decide (P b)) as [Hp|Hp].
    + rewrite decide_True by (apply Himp; [left|done]). simpl. lia.
    + destruct (decide (Q b)); simpl; lia.
Qed.
End list_count.

Section qhash.
Context `{QHashOrder} {V : Type}.
Implicit Types m : gmap string V.

Lemma elem_of_qhash_iter m k v : (k, v) ∈ qhash_iter m ↔ m !! k = Some v.
Proof. rewrite qhash_iter_perm. apply elem_of_map_to_list. Qed.

Lemma NoDup_qhash_keys m : NoDup (qhash_keys m).
Proof.
  unfold qhash_keys. rewrite qhash_iter_perm. apply NoDup_fst_map_to_list.
Qed.

Lemma elem_of_qhash_keys m k : k ∈ qhash_keys m ↔ is_Some (m !! k).
Proof.
  unfold qhash_keys. rewrite list_elem_of_fmap. split.
  - intros [[k' v] [-> Hin]]. apply elem_of_qhash_iter in Hin. eauto.
  - intros [v Hv]. exists (k, v). split; [done|]. by apply elem_of_qhash_iter.
Qed.

Lemma length_qhash_keys m : length (qhash_keys m) = size m.
Proof.
  unfold qhash_keys. rewrite length_fmap, qhash_iter_perm.
  apply length_map_to_list.
Qed.

Lemma elem_of_qhash_values m v : v ∈ qhash_values m ↔ ∃ k, m !! k = Some v.
Proof.
  unfold qhash_values. rewrite list_elem_of_fmap. split.
  - intros [[k v'] [-> Hin]]. apply elem_of_qhash_iter in Hin. eauto.
  - intros [k Hk]. exists (k, v). split; [done|]. by apply elem_of_qhash_iter.
Qed.
End qhash.

(** ** The depth-first walk of the resolver *)

Section resolver.
Import PluginManager.
Context `{QHashOrder} `{QVersionNumber} `{Loadable}.
Variable mgr : Manager.

Lemma color_insert (state : gmap string nat) k v : color (<[k := v]> state) k = v.
Proof. unfold color. by rewrite lookup_insert_eq. Qed.

Lemma color_insert_ne (state : gmap string nat) k k' v :
  k ≠ k' → color (<[k := v]> state) k' = color state k'.
Proof. intros. unfold color. by rewrite lookup_insert_ne. Qed.

Lemma whiteCount_mono (state state' : gmap string nat) :
  (∀ k, ¬ white state k → color state' k = color state k) →
  whiteCount mgr state' ≤ whiteCount mgr state.
Proof.
  intros Hkeep. apply length_filter_mono. intros k _ Hw.
  destruct (decide (white state k)) as [|Hn]; [done|].
  specialize (Hkeep k Hn). unfold white in *. rewrite Hkeep in Hw. done.
Qed.

Lemma whiteCount_grey (state : gmap string nat) k :
  is_Some (m_pluginMap mgr !! k) → white state k →
  whiteCount mgr (<[k := 1]> state) < whiteCount mgr state.
Proof.
  intros Hkey Hw. apply (length_filter_lt _ _ _ k).
  - by apply elem_of_qhash_keys.
  - done.
  - unfold white. rewrite color_insert. intros [? _]. done.
  - intros x _. unfold white. destruct (decide (k = x)) as [->|Hne].
    + rewrite color_insert. intros [? _]. done.
    + by rewrite color_insert_ne.
Qed.

Lemma whiteCount_le_size (state : gmap string nat) :
  whiteCount mgr state ≤ length (qhash_keys (m_pluginMap mgr)).
Proof. apply length_filter. Qed.

Lemma reachesCycle_dependsOn b d :
  dependsOn mgr b d → reachesCycle mgr d → reachesCycle mgr b.
Proof. intros Hbd (c & Hdc & Hcc). exists c. split; [by eapply rtc_l|done]. Qed.

Lemma reachesCycle_rtc b d :
  rtc (dependsOn mgr) b d → reachesCycle mgr d → reachesCycle mgr b.
Proof. intros Hbd (c & Hdc & Hcc). exists c. split; [by etrans|done]. Qed.

Lemma reachesCycle_self c : tc (dependsOn mgr) c c → reachesCycle mgr c.
Proof. intros. by exists c. Qed.

Lemma walkStep_refl w : WalkInv mgr w → walkStep mgr w w.
Proof. intros. split_and!; [done|done|]. exists []. by rewrite app_nil_r. Qed.

Lemma walkStep_white w w' k : walkStep mgr w w' → white w'.1 k → white w.1 k.
Proof.
  intros (_ & Hkeep & _) Hw. destruct (decide (white w.1 k)) as [|Hn]; [done|].
  specialize (Hkeep k Hn). unfold white in *. by rewrite Hkeep in Hw.
Qed.

Lemma walkStep_trans w1 w2 w3 :
  walkStep mgr w1 w2 → walkStep mgr w2 w3 → walkStep mgr w1 w3.
Proof.
  intros H12 H23.
  pose proof H12 as (_ & Hk12 & [a12 Ha12]). pose proof H23 as (Hinv & Hk23 & [a23 Ha23]).
  split_and!; [done| |].
  - intros k Hn. rewrite Hk23, Hk12; [done..|].
    intros Hw. apply Hn. by eapply walkStep_white.
  - exists (a12 ++ a23). by rewrite Ha23, Ha12, app_assoc.
Qed.

Lemma walkStep_count w w' :
  walkStep mgr w w' → whiteCount mgr w'.1 ≤ whiteCount mgr w.1.
Proof. intros (_ & Hkeep & _). by apply whiteCount_mono. Qed.

Lemma walkStep_black w w' k : walkStep mgr w w' → color w.1 k = 2 → color w'.1 k = 2.
Proof.
  intros (_ & Hkeep & _) Hb. rewrite Hkeep; [done|]. unfold white. intros [_ ?]. done.
Qed.

Lemma visit_guard dep :
  negb (isEmpty (depPluginId mgr dep))
    && bool_decide (is_Some (m_pluginMap mgr !! depPluginId mgr dep)) = true
  ↔ validTarget mgr dep.
Proof.
  unfold validTarget, isEmpty.
  rewrite andb_true_iff, negb_true_iff, bool_decide_eq_false, bool_decide_eq_true.
  done.
Qed.

Lemma visitRequires_spec bound visit parent loader :
  visits mgr bound visit →
  m_pluginMap mgr !! parent = Some loader →
  ∀ deps w,
    deps ⊆ requires (metadata loader) →
    whiteCount mgr w.1 < bound →
    WalkInv mgr w →
    (∀ g, color w.1 g = 1 → rtc (dependsOn mgr) g parent ∨ reachesCycle mgr g) →
    ∃ r, visitRequires mgr visit deps w = Some r ∧
      walkStep mgr w r.2 ∧
      (r.1 = true → sameGrey w r.2 ∧
         ∀ dep, dep ∈ deps → validTarget mgr dep → color r.2.1 (depPluginId mgr dep) = 2) ∧
      (r.1 = false → reachesCycle mgr parent ∧ greyExcused mgr w r.2).
Proof.
  intros Hvisit Hparent deps.
  induction deps as [|dep rest IH]; intros w Hsub Hcount Hinv Hgrey.
  { exists (true, w). split_and!; [done|by apply walkStep_refl| |done].
    intros _. split; [done|]. intros dep Hin. by apply elem_of_nil in Hin. }
  assert (rest ⊆ requires (metadata loader)) as Hsub' by set_solver.
  simpl.
  destruct (negb (isEmpty (depPluginId mgr dep))
            && bool_decide (is_Some (m_pluginMap mgr !! depPluginId mgr dep))) eqn:Hguard.
  - apply visit_guard in Hguard as Hvalid. destruct Hvalid as [Hne Hkey].
    assert (dependsOn mgr parent (depPluginId mgr dep)) as Hedge.
    { exists loader, dep. split_and!; [done|set_solver|done..]. }
    destruct (Hvisit (depPluginId mgr dep) w Hcount) as ([ok1 w1] & Hrun & Hstep1 & Hok1 & Hfail1).
    { split_and!; [done..|]. intros g Hg.
      destruct (Hgrey g Hg) as [Hr|Hr]; [left|by right].
      eapply tc_rtc_l; [done|by apply tc_once]. }
    simpl in *. rewrite Hrun. destruct ok1.
    + destruct (Hok1 eq_refl) as [Hblack1 Hsame1].
      destruct (IH w1) as ([ok2 w2] & Hrun2 & Hstep2 & Hok2 & Hfail2).
      * done.
      * pose proof (walkStep_count _ _ Hstep1). lia.
      * apply Hstep1.
      * intros g Hg. apply Hgrey. by apply Hsame1.
      * exists (ok2, w2). simpl in *. split_and!; [done|by eapply walkStep_trans| |].
        -- intros ->. destruct (Hok2 eq_refl) as [Hsame2 Hdeps2]. split.
           ++ intros k. etrans; [apply Hsame2|apply Hsame1].
           ++ intros dep' [->|Hin]%elem_of_cons Hv; [|by apply Hdeps2].
              by eapply walkStep_black.
        -- intros ->. destruct (Hfail2 eq_refl) as [Hcyc Hexc]. split; [done|].
           intros k Hk. destruct (Hexc k Hk) as [Hk1|?]; [|by right].
           left. by apply Hsame1.
    + exists (false, w1). simpl. destruct (Hfail1 eq_refl) as (Hcyc & Hexc & _).
      split_and!; [done|done|done|]. intros _. split; [|done].
      by eapply reachesCycle_dependsOn.
  - destruct (IH w Hsub' Hcount Hinv Hgrey) as (r & Hrun & Hstep & Hok & Hfail).
    exists r. split_and!; [done..| |done].
    intros Hr. destruct (Hok Hr) as [Hsame Hdeps]. split; [done|].
    intros dep' [->|Hin]%elem_of_cons Hv; [|by apply Hdeps].
    apply visit_guard in Hv. congruence.
Qed.

Lemma topologicalSort_visits fuel : visits mgr fuel (topologicalSort mgr fuel).
Proof.
  induction fuel as [|fuel IH]; intros target [state order] Hcount (Hkey & Hinv & Hgrey).
  { simpl in Hcount. lia. }
  simpl in *.
  case_bool_decide as Hblack.
  { exists (true, (state, order)). split; [done|]. split_and!.
    - by apply walkStep_refl.
    - done.
    - done. }
  case_bool_decide as Hvisiting.
  { exists (false, (state, order)). split; [done|]. split_and!.
    - by apply walkStep_refl.
    - done.
    - intros _. split_and!; [|by left|done].
      destruct (Hgrey target Hvisiting) as [Hc|Hc]; [by apply reachesCycle_self|done]. }
  destruct Hkey as [loader Hloader]. rewrite Hloader.
  assert (white state target) as Hwhite by done.
  assert (WalkInv mgr (<[target := 1]> state, order)) as Hinv1.
  { destruct Hinv as [Hnd Hbl Hcl Hks]. simpl in *. split; simpl.
    - done.
    - intros k. rewrite Hbl. destruct (decide (target = k)) as [->|Hne].
      + rewrite color_insert. split; [done|lia].
      + by rewrite color_insert_ne.
    - intros b d Hb. destruct (decide (target = b)) as [->|Hne].
      + rewrite color_insert in Hb. lia.
      + rewrite color_insert_ne in Hb by done. by apply Hcl.
    - done. }
  destruct (visitRequires_spec fuel (topologicalSort mgr fuel) target loader IH Hloader
              (requires (metadata loader)) (<[target := 1]> state, order))
    as ([ok [state2 order2]] & Hrun & Hstep & Hok & Hfail).
  { done. }
  { simpl. pose proof (whiteCount_grey state target (mk_is_Some _ _ Hloader) Hwhite). lia. }
  { done. }
  { simpl. intros g Hg. destruct (decide (target = g)) as [->|Hne]; [by left|].
    rewrite color_insert_ne in Hg by done.
    destruct (Hgrey g Hg) as [Hc|Hc]; [left|by right]. by apply tc_rtc. }
  rewrite Hrun. simpl in *.
  destruct Hstep as (Hinv2 & Hkeep2 & [added Hadded]). simpl in *.
  assert (∀ k, ¬ white state k → color state2 k = color state k) as Hkeep.
  { intros k Hk. assert (target ≠ k) as Hne by (intros ->; done).
    rewrite Hkeep2.
    - by rewrite color_insert_ne.
    - unfold white. by rewrite color_insert_ne. }
  assert (color state2 target = 1) as Htarget2.
  { rewrite Hkeep2.
    - by rewrite color_insert.
    - unfold white. rewrite color_insert. intros [? _]. done. }
  destruct ok.
  - destruct (Hok eq_refl) as [Hsame Hdeps]. unfold sameGrey in Hsame. simpl in *.
    exists (true, (<[target := 2]> state2, order2 ++ [target])). split; [done|].
    destruct Hinv2 as [Hnd2 Hbl2 Hcl2 Hks2]. simpl in *.
    split_and!; simpl.
    + split_and!; simpl.
      * split; simpl.
        -- apply NoDup_app. split_and!; [done| |apply NoDup_singleton].
           intros x Hx ->%list_elem_of_singleton. apply Hbl2 in Hx. lia.
        -- intros k. rewrite elem_of_app, list_elem_of_singleton, Hbl2.
           destruct (decide (target = k)) as [->|Hne].
           ++ rewrite color_insert. split; [done|by right].
           ++ rewrite color_insert_ne by done. split; [|by left].
              intros [?|?]; [done|congruence].
        -- intros b d Hb Hedge. destruct (decide (target = b)) as [->|Hne].
           ++ apply precedes_snoc. apply Hbl2.
              destruct Hedge as (loader' & dep & Hl' & Hin & Hd & Hne' & Hkey').
              assert (loader' = loader) as -> by congruence. subst d.
              by apply Hdeps.
           ++ rewrite color_insert_ne in Hb by done. apply precedes_app_l. by apply Hcl2.
        -- intros k [Hk| ->%list_elem_of_singleton]%elem_of_app; [by apply Hks2|done].
      * intros k Hk. assert (target ≠ k) as Hne by (intros ->; done).
        rewrite color_insert_ne by done. by apply Hkeep.
      * exists (added ++ [target]). by rewrite Hadded, app_assoc.
    + intros _. split; [by rewrite color_insert|].
      intros k. unfold sameGrey. simpl. destruct (decide (target = k)) as [->|Hne].
      * rewrite color_insert. destruct Hwhite as [? _]. split; [lia|done].
      * rewrite color_insert_ne by done. rewrite Hsame. by rewrite color_insert_ne.
    + done.
  - destruct (Hfail eq_refl) as [Hcyc Hexc]. unfold greyExcused in Hexc. simpl in *.
    exists (false, (state2, order2)). split; [done|]. split_and!; simpl.
    + split_and!; simpl; [done|done|by exists added].
    + done.
    + intros _. split_and!; [done| |done]. intros k Hk. simpl in *.
      destruct (Hexc k Hk) as [Hk1|?]; [|by right].
      destruct (decide (target = k)) as [->|Hne]; [by right|].
      rewrite color_insert_ne in Hk1 by done. by left.
Qed.

Lemma black_closed w b d :
  WalkInv mgr w → color w.1 b = 2 → tc (dependsOn mgr) b d →
  precedes d b w.2 ∧ color w.1 d = 2.
Proof.
  intros Hinv Hb Htc. induction Htc as [b d Hedge|b z d Hedge Htc IH].
  - pose proof (inv_closed _ _ Hinv b d Hb Hedge) as Hp. split; [done|].
    apply (inv_black _ _ Hinv). by eapply precedes_elem_of_l.
  - pose proof (inv_closed _ _ Hinv b z Hb Hedge) as Hp.
    assert (color w.1 z = 2) as Hz.
    { apply (inv_black _ _ Hinv). by eapply precedes_elem_of_l. }
    destruct (IH Hz) as [Hp' Hd]. split; [|done].
    eapply precedes_trans; [apply Hinv|done..].
Qed.

Lemma black_not_reachesCycle w b :
  WalkInv mgr w → color w.1 b = 2 → ¬ reachesCycle mgr b.
Proof.
  intros Hinv Hb (c & Hbc & Hcc).
  assert (color w.1 c = 2) as Hc.
  { apply rtc_tc in Hbc as [<-|Htc]; [done|]. by eapply black_closed. }
  destruct (black_closed w c c Hinv Hc Hcc) as [Hp _].
  by eapply precedes_irrefl; [apply Hinv|].
Qed.

Lemma not_white state k : ¬ white state k ↔ color state k = 1 ∨ color state k = 2.
Proof. unfold white. lia. Qed.

Lemma sortEach_spec fuel :
  length (qhash_keys (m_pluginMap mgr)) < fuel →
  ∀ keys w warnings,
    (∀ k, k ∈ keys → is_Some (m_pluginMap mgr !! k)) →
    WalkInv mgr w →
    (∀ g, color w.1 g = 1 → reachesCycle mgr g) →
    ∃ w' warnings',
      sortEach mgr fuel keys w warnings = Some (w', warnings') ∧
      walkStep mgr w w' ∧
      (∀ g, color w'.1 g = 1 → reachesCycle mgr g) ∧
      (∀ k, k ∈ keys → ¬ white w'.1 k) ∧
      (∀ k, k ∈ warnings' ↔ k ∈ warnings ∨ (k ∈ keys ∧ reachesCycle mgr k)).
Proof.
  intros Hfuel keys.
  induction keys as [|k rest IH]; intros w warnings Hkeys Hinv Hgrey.
  { exists w, warnings. split_and!; [done|by apply walkStep_refl|done| |].
    - intros k Hk. by apply elem_of_nil in Hk.
    - intros k. rewrite elem_of_nil. tauto. }
  simpl.
  destruct (topologicalSort_visits fuel k w) as ([ok w1] & Hrun & Hstep & Hok & Hfail).
  { pose proof (whiteCount_le_size w.1). lia. }
  { split_and!; [apply Hkeys; by left|done|]. intros g Hg. right. by apply Hgrey. }
  rewrite Hrun. simpl in *.
  assert (∀ k, k ∈ rest → is_Some (m_pluginMap mgr !! k)) as Hkeys'.
  { intros k' Hk'. apply Hkeys. by right. }
  assert (WalkInv mgr w1) as Hinv1 by apply Hstep.
  destruct ok.
  - destruct (Hok eq_refl) as [Hblack Hsame].
    destruct (IH w1 warnings Hkeys' Hinv1) as (w' & warnings' & Hrun' & Hstep' & Hgrey' & Hdone & Hwarn).
    { intros g Hg. apply Hgrey. by apply Hsame. }
    exists w', warnings'. split_and!; [done|by eapply walkStep_trans|done| |].
    + intros k' [->|Hk']%elem_of_cons; [|by apply Hdone].
      apply not_white. right. by eapply walkStep_black.
    + intros k'. rewrite Hwarn, elem_of_cons.
      pose proof (black_not_reachesCycle w1 k Hinv1 Hblack).
      split; [tauto|]. intros [?|[[ -> |?] ?]]; tauto.
  - destruct (Hfail eq_refl) as (Hcyc & Hexc & Hvisiting).
    destruct (IH w1 (warnings ++ [k]) Hkeys' Hinv1)
      as (w' & warnings' & Hrun' & Hstep' & Hgrey' & Hdone & Hwarn).
    { intros g Hg. destruct (Hexc g Hg); [by apply Hgrey|done]. }
    exists w', warnings'. split_and!; [done|by eapply walkStep_trans|done| |].
    + intros k' [->|Hk']%elem_of_cons; [|by apply Hdone].
      intros Hw. eapply walkStep_white in Hw; [|done].
      destruct Hw as [? _]. done.
    + intros k'. rewrite Hwarn, elem_of_app, list_elem_of_singleton, elem_of_cons.
      split; [|tauto]. intros [[?| ->]|[? ?]]; tauto.
Qed.

Lemma color_unvisited keys k : color (unvisited keys) k = 0.
Proof.
  unfold unvisited.
  assert (∀ acc : gmap string nat, color acc k = 0 →
            color (foldl (λ state k0, <[k0 := 0]> state) acc keys) k = 0) as Hgen.
  { induction keys as [|k0 keys IH]; intros acc Hacc; [done|]. simpl. apply IH.
    destruct (decide (k0 = k)) as [->|Hne].
    - by rewrite color_insert.
    - by rewrite color_insert_ne. }
  apply Hgen. done.
Qed.

Lemma WalkInv_unvisited keys : WalkInv mgr (unvisited keys, []).
Proof.
  split; simpl.
  - constructor.
  - intros k. rewrite color_unvisited, elem_of_nil. split; [done|lia].
  - intros b d. rewrite color_unvisited. lia.
  - intros k Hk. by apply elem_of_nil in Hk.
Qed.

(** The warnings are issued while the keys are gone through, at most
    one for a key. *)
Lemma sortEach_warnings fuel keys w warnings w' warnings' :
  sortEach mgr fuel keys w warnings = Some (w', warnings') →
  ∃ named, warnings' = warnings ++ named ∧ named `sublist_of` keys.
Proof.
  revert w warnings. induction keys as [|k rest IH]; intros w warnings; simpl.
  { intros [= <- <-]. exists []. by rewrite app_nil_r. }
  destruct (topologicalSort mgr fuel k w) as [[[] w1]|]; [| |done].
  - intros (named & -> & Hsub)%IH. exists named. split; [done|]. by apply sublist_cons.
  - intros (named & -> & Hsub)%IH. exists (k :: named).
    split; [by rewrite <- app_assoc|]. by apply sublist_skip.
Qed.

Lemma computeLoadOrder_run_spec :
  ∃ order warnings,
    computeLoadOrder_run mgr = Some (order, warnings) ∧
    NoDup order ∧
    (∀ k, k ∈ order ↔ is_Some (m_pluginMap mgr !! k) ∧ ¬ reachesCycle mgr k) ∧
    (∀ k, k ∈ warnings ↔ is_Some (m_pluginMap mgr !! k) ∧ reachesCycle mgr k) ∧
    (∀ b d, b ∈ order → dependsOn mgr b d → precedes d b order).
Proof.
  unfold computeLoadOrder_run.
  set (keys := qhash_keys (m_pluginMap mgr)).
  destruct (sortEach_spec (S (length keys)) (Nat.lt_succ_diag_r _) keys (unvisited keys, []) [])
    as ([state order] & warnings & Hrun & Hstep & Hgrey & Hdone & Hwarn).
  { intros k. apply elem_of_qhash_keys. }
  { apply WalkInv_unvisited. }
  { simpl. intros g. rewrite color_unvisited. lia. }
  rewrite Hrun. exists order, warnings. simpl in *.
  destruct Hstep as (Hinv & _ & _).
  split_and!; [done|apply Hinv| | |].
  - intros k. split.
    + intros Hk. split; [by apply (inv_keys _ _ Hinv)|].
      eapply black_not_reachesCycle; [done|]. by apply (inv_black _ _ Hinv).
    + intros [Hkey Hno]. apply (inv_black _ _ Hinv). simpl.
      assert (k ∈ keys) as Hin by by apply elem_of_qhash_keys.
      apply Hdone, not_white in Hin as [Hg|Hb]; [|done].
      destruct Hno. by apply Hgrey.
  - intros k. rewrite Hwarn, elem_of_nil. unfold keys. rewrite elem_of_qhash_keys.
    tauto.
  - intros b d Hb. apply (inv_closed _ _ Hinv). by apply (inv_black _ _ Hinv).
Qed.
End resolver.

(** ** The resolver: [computeLoadOrder] *)

Section load_order.
Import PluginManager.
Context `{QHashOrder} `{QVersionNumber} `{Loadable}.
Variable mgr : Manager.

(** The fuel given to the walk is enough: [computeLoadOrder] and
    [cycleWarnings] are the two results of a walk that returns. *)
Lemma computeLoadOrder_fuel :
  computeLoadOrder_run mgr = Some (computeLoadOrder mgr, cycleWarnings mgr).
Proof.
  unfold computeLoadOrder, cycleWarnings.
  destruct (computeLoadOrder_run_spec mgr) as (order & warnings & -> & _). done.
Qed.

Lemma computeLoadOrder_spec :
  NoDup (computeLoadOrder mgr) ∧
  (∀ k, k ∈ computeLoadOrder mgr ↔ is_Some (m_pluginMap mgr !! k) ∧ ¬ reachesCycle mgr k) ∧
  (∀ k, k ∈ cycleWarnings mgr ↔ is_Some (m_pluginMap mgr !! k) ∧ reachesCycle mgr k) ∧
  (∀ b d, b ∈ computeLoadOrder mgr → dependsOn mgr b d → precedes d b (computeLoadOrder mgr)).
Proof.
  unfold computeLoadOrder, cycleWarnings.
  destruct (computeLoadOrder_run_spec mgr) as (order & warnings & -> & Hspec). done.
Qed.

Lemma dependsOn_discovered b d : dependsOn mgr b d → is_Some (m_pluginMap mgr !! b).
Proof. intros (loader & dep & Hb & _). eauto. Qed.

Lemma tc_dependsOn_discovered b d :
  tc (dependsOn mgr) b d → is_Some (m_pluginMap mgr !! b).
Proof. intros Htc. destruct Htc; by eapply dependsOn_discovered. Qed.

(** No warning means no cycle, and conversely. *)
Lemma acyclic_no_warnings : cycleWarnings mgr = [] ↔ acyclic mgr.
Proof.
  destruct computeLoadOrder_spec as (_ & _ & Hwarn & _). split.
  - intros Hnone x Hx.
    assert (x ∈ cycleWarnings mgr) as Hin.
    { apply Hwarn. split; [by eapply tc_dependsOn_discovered|by apply reachesCycle_self]. }
    rewrite Hnone in Hin. by apply elem_of_nil in Hin.
  - intros Hacyclic. destruct (cycleWarnings mgr) as [|k rest] eqn:Hw; [done|].
    assert (k ∈ k :: rest) as Hin by left.
    apply Hwarn in Hin as [_ (c & _ & Hc)]. by destruct (Hacyclic c).
Qed.

Lemma cycleWarnings_sublist : cycleWarnings mgr `sublist_of` qhash_keys (m_pluginMap mgr).
Proof.
  pose proof computeLoadOrder_fuel as Hrun. unfold computeLoadOrder_run in Hrun.
  destruct (sortEach mgr _ _ _ []) as [[[state order] warnings]|] eqn:Hsort; [|done].
  apply sortEach_warnings in Hsort as (named & -> & Hsub).
  injection Hrun as _ <-. done.
Qed.

(** X30.  For every set of discovered plugins the walk of
    [computeLoadOrder] returns: the order has no duplicates and holds
    exactly the discovered plugin ids from which no dependency cycle can
    be reached, each after the discovered plugins it depends on; the
    warnings name exactly the discovered ids from which one can be
    reached, each once and in the order of the plugin table, and these
    are left out of the order; when no warning is issued every
    discovered id is in the order. *)
Theorem computeLoadOrder_contents :
  computeLoadOrder_run mgr = Some (computeLoadOrder mgr, cycleWarnings mgr) ∧
  NoDup (computeLoadOrder mgr) ∧
  (∀ k, k ∈ computeLoadOrder mgr ↔ is_Some (m_pluginMap mgr !! k) ∧ ¬ reachesCycle mgr k) ∧
  (∀ b d, b ∈ computeLoadOrder mgr → dependsOn mgr b d →
          precedes d b (computeLoadOrder mgr)) ∧
  (∀ k, k ∈ cycleWarnings mgr ↔ is_Some (m_pluginMap mgr !! k) ∧ reachesCycle mgr k) ∧
  NoDup (cycleWarnings mgr) ∧
  cycleWarnings mgr `sublist_of` qhash_keys (m_pluginMap mgr) ∧
  (cycleWarnings mgr = [] →
     ∀ k, is_Some (m_pluginMap mgr !! k) → k ∈ computeLoadOrder mgr).
Proof.
  destruct computeLoadOrder_spec as (Hnd & Horder & Hwarn & Hbefore).
  split_and!; [apply computeLoadOrder_fuel|done..| |apply cycleWarnings_sublist|].
  - apply (sublist_NoDup _ _ (NoDup_qhash_keys (m_pluginMap mgr))), cycleWarnings_sublist.
  - intros Hnone k Hk. apply Horder. split; [done|].
    intros (c & _ & Hc). apply acyclic_no_warnings in Hnone. by destruct (Hnone c).
Qed.

(** C4.  In an acyclic dependency graph, a discovered plugin [a] that
    the provider map names for a service required by the discovered
    plugin [b], or that [b] requires as a plugin, comes before [b] in
    the order of the resolver.  This holds for mandatory requirements
    and for optional ones. *)
Theorem provider_precedes_consumer (a b : string) (loader : PluginLoader)
    (dep : PluginDependency) :
  acyclic mgr →
  a ≠ "" →
  is_Some (m_pluginMap mgr !! a) →
  m_pluginMap mgr !! b = Some loader →
  dep ∈ requires (metadata loader) →
  (dep_type dep = Service ∧ m_serviceProviderMap mgr !! dep_id dep = Some a) ∨
  (dep_type dep = Plugin ∧ dep_id dep = a) →
  precedes a b (computeLoadOrder mgr).
Proof.
  intros Hacyclic Hne Ha Hb Hdep Hkind.
  destruct computeLoadOrder_spec as (_ & Horder & _ & Hbefore).
  apply Hbefore.
  - apply Horder. split; [eauto|]. intros (c & _ & Hc). by destruct (Hacyclic c).
  - exists loader, dep. split_and!; [done|done| |done|done].
    unfold depPluginId, resolveServiceProvider.
    destruct Hkind as [[-> Hs]|[-> Hp]]; [by rewrite Hs|done].
Qed.
End load_order.

Section load_order_examples.
Import PluginManager ManagerExamples.

Lemma mutual_discovered k :
  is_Some (m_pluginMap mutual !! k) ↔ k = "com.test.a" ∨ k = "com.test.b".
Proof.
  rewrite <- elem_of_dom.
  assert (dom (m_pluginMap mutual) = ({["com.test.a"; "com.test.b"]} : gset string)) as ->
    by (vm_compute; reflexivity).
  set_solver.
Qed.

Lemma mutual_a_b : dependsOn mutual "com.test.a" "com.test.b".
Proof.
  exists (plugin "com.test.a" [requirePlugin "com.test.b"] []), (requirePlugin "com.test.b").
  split_and!; [by vm_compute|left|done|done|]. apply mutual_discovered. by right.
Qed.

Lemma mutual_b_a : dependsOn mutual "com.test.b" "com.test.a".
Proof.
  exists (plugin "com.test.b" [requirePlugin "com.test.a"] []), (requirePlugin "com.test.a").
  split_and!; [by vm_compute|left|done|done|]. apply mutual_discovered. by left.
Qed.

Lemma mutual_all_on_cycle k :
  is_Some (m_pluginMap mutual !! k) → reachesCycle mutual k.
Proof.
  intros [-> | ->]%mutual_discovered; apply reachesCycle_self.
  - eapply tc_l; [apply mutual_a_b|apply tc_once, mutual_b_a].
  - eapply tc_l; [apply mutual_b_a|apply tc_once, mutual_a_b].
Qed.

(** Two plugins that require each other: the order is empty, whatever
    the iteration order of the plugin table. *)
Lemma mutual_order_empty (order : QHashOrder) : @computeLoadOrder order _ _ mutual = [].
Proof.
  destruct (@computeLoadOrder_spec order _ _ mutual) as (_ & Hin & _).
  destruct (@computeLoadOrder order _ _ mutual) as [|k rest]; [done|].
  destruct (Hin k) as [[Hk Hno] _]; [left|]. destruct Hno. by apply mutual_all_on_cycle.
Qed.

(** C1.  The code at a failing input: two discovered plugins that
    require each other.  Whatever the iteration order of the plugin
    table, the walk returns, a warning names each of the two, once,
    and the order returned is empty: neither discovered plugin is in
    it. *)
Theorem cycle_members_left_out (order : QHashOrder) :
  is_Some (m_pluginMap mutual !! "com.test.a") ∧
  is_Some (m_pluginMap mutual !! "com.test.b") ∧
  @computeLoadOrder_run order _ _ mutual = Some ([], @cycleWarnings order _ _ mutual) ∧
  @cycleWarnings order _ _ mutual ≡ₚ ["com.test.a"; "com.test.b"] ∧
  @computeLoadOrder order _ _ mutual = [].
Proof.
  split_and!.
  - apply mutual_discovered. by left.
  - apply mutual_discovered. by right.
  - by rewrite (@computeLoadOrder_fuel order), mutual_order_empty.
  - destruct (@computeLoadOrder_spec order _ _ mutual) as (_ & _ & Hwarn & _).
    apply NoDup_Permutation.
    + apply (sublist_NoDup _ _ (NoDup_qhash_keys (m_pluginMap mutual))),
        (@cycleWarnings_sublist order).
    + apply NoDup_cons. split; [|apply NoDup_singleton].
      rewrite list_elem_of_singleton. discriminate.
    + intros k. rewrite Hwarn, !elem_of_cons, elem_of_nil. split.
      * intros [Hk%mutual_discovered _]. tauto.
      * intros [->|[->|[]]]; (split; [|apply mutual_all_on_cycle]); apply mutual_discovered;
          tauto.
  - apply mutual_order_empty.
Qed.

#[local] Existing Instance keyOrder.

Lemma provider_precedes_consumer_shop :
  precedes "com.test.provider" "com.test.consumer" (computeLoadOrder shop).
Proof.
  apply (provider_precedes_consumer shop "com.test.provider" "com.test.consumer"
           consumer (requireService "FooService")).
  - apply acyclic_no_warnings. vm_compute. reflexivity.
  - done.
  - vm_compute. eauto.
  - vm_compute. reflexivity.
  - left.
  - left. split; [reflexivity|]. vm_compute. reflexivity.
Defined.
End load_order_examples.

(** ** [checkDependencies] *)

Section check_dependencies.
Import PluginManager.
Context `{QHashOrder} `{QVersionNumber} `{Loadable}.
Variable mgr : Manager.

Lemma checkDependency_descriptor unsatisfied dep :
  providersNamed mgr →
  checkDependency mgr unsatisfied dep =
    unsatisfied ++ omap (unresolvedDescriptor mgr) (filter mandatory [dep]).
Proof.
  intros Hnamed. unfold checkDependency.
  rewrite filter_cons, filter_nil.
  destruct (decide (mandatory dep)) as [Hm|Hm]; unfold mandatory in Hm.
  2: { destruct (optional dep); [by rewrite app_nil_r|done]. }
  rewrite Hm. simpl. unfold unresolvedDescriptor.
  destruct (dep_type dep).
  - destruct (m_pluginMap mgr !! dep_id dep) as [found|]; [|done].
    destruct (version_lt _ _); [done|by rewrite app_nil_r].
  - unfold resolveServiceProvider.
    destruct (m_serviceProviderMap mgr !! dep_id dep) as [provider|] eqn:Hp; simpl.
    + apply Hnamed in Hp. unfold isEmpty. rewrite bool_decide_eq_false_2 by done.
      by rewrite app_nil_r.
    + done.
Qed.

Lemma foldl_checkDependency unsatisfied deps :
  providersNamed mgr →
  foldl (checkDependency mgr) unsatisfied deps =
    unsatisfied ++ omap (unresolvedDescriptor mgr) (filter mandatory deps).
Proof.
  intros Hnamed. revert unsatisfied.
  induction deps as [|dep deps IH]; intros unsatisfied; simpl.
  { by rewrite app_nil_r. }
  rewrite IH, checkDependency_descriptor by done.
  rewrite <- app_assoc. f_equal.
  change (dep :: deps) with ([dep] ++ deps).
  by rewrite filter_app, omap_app.
Qed.

(** C8.  [checkDependencies] returns, in the order of the
    requirements, the descriptor of every mandatory requirement that is
    unresolved and nothing else: optional requirements contribute
    nothing, and a record whose only requirement is a mandatory one on
    a service without provider yields exactly [service:<id>]. *)
Theorem checkDependencies_descriptors (meta : PluginMetadata) :
  providersNamed mgr →
  checkDependencies mgr meta
    = omap (unresolvedDescriptor mgr) (filter mandatory (requires meta)) ∧
  ((∀ dep, dep ∈ requires meta → optional dep = true) → checkDependencies mgr meta = []) ∧
  (∀ service wanted,
     requires meta = [{| dep_type := Service; dep_id := service;
                         minVersion := wanted; optional := false |}] →
     m_serviceProviderMap mgr !! service = None →
     checkDependencies mgr meta = ["service:" +:+ service]).
Proof.
  intros Hnamed.
  assert (checkDependencies mgr meta
            = omap (unresolvedDescriptor mgr) (filter mandatory (requires meta))) as Heq.
  { unfold checkDependencies. by rewrite foldl_checkDependency. }
  split_and!; [done| |].
  - intros Hopt. rewrite Heq.
    assert (∀ deps : list PluginDependency,
              (∀ dep, dep ∈ deps → optional dep = true) → filter mandatory deps = [])
      as Hnone.
    { induction deps as [|dep deps IH]; intros Hall; [done|].
      rewrite filter_cons, decide_False.
      - apply IH. intros dep' Hin. apply Hall. by right.
      - unfold mandatory. rewrite (Hall dep) by left. done. }
    by rewrite Hnone.
  - intros service wanted Hreq Hnone. rewrite Heq, Hreq.
    rewrite filter_cons, filter_nil, decide_True by done.
    simpl. unfold unresolvedDescriptor. simpl. by rewrite Hnone.
Qed.

Lemma claimService_named pluginId providers service :
  pluginId ≠ "" → map_Forall (λ _ provider : string, provider ≠ "") providers →
  map_Forall (λ _ provider : string, provider ≠ "") (claimService pluginId providers service).
Proof.
  intros Hne Hall. unfold claimService.
  destruct (providers !! service); [done|]. by apply map_Forall_insert_2.
Qed.

(** [discover] keeps the providers named as long as the plugins it
    enters are. *)
Lemma accept_providersNamed loader :
  meta_id (metadata loader) ≠ "" → providersNamed mgr →
  providersNamed (accept loader mgr).1.
Proof.
  intros Hne Hnamed. unfold accept, providersNamed in *.
  destruct (m_pluginMap mgr !! meta_id (metadata loader)); [done|]. simpl.
  generalize dependent (m_serviceProviderMap mgr).
  induction (provides (metadata loader)) as [|service services IH]; intros providers Hp;
    [done|].
  simpl. apply IH. by apply claimService_named.
Qed.
End check_dependencies.

Section check_examples.
Import PluginManager ManagerExamples.
#[local] Existing Instance keyOrder.

Lemma missing_service_reported :
  checkDependencies shop (metadata (plugin "com.test.orders" [requireService "OrdersService"] []))
    = ["service:OrdersService"].
Proof.
  destruct (checkDependencies_descriptors shop
              (metadata (plugin "com.test.orders" [requireService "OrdersService"] [])))
    as (_ & _ & Hone).
  - unfold providersNamed. refine (bool_decide_unpack _ _). vm_compute. exact I.
  - apply (Hone "OrdersService" 1); vm_compute; reflexivity.
Defined.
End check_examples.

(** ** [loadAll] *)

Section load_all.
Import PluginManager.
Context `{QHashOrder} `{QVersionNumber} `{Loadable}.
Variable mgr : Manager.

Lemma load_metadata loader : metadata (load loader).2 = metadata loader.
Proof. unfold load. by destruct (library_load (library loader)). Qed.

Lemma loaderDuring_metadata done k :
  metadata <$> loaderDuring mgr done k = metadata <$> (m_pluginMap mgr !! k).
Proof.
  unfold loaderDuring. destruct (m_pluginMap mgr !! k) as [loader|]; [|done].
  destruct (_ && _); simpl; [|done]. by rewrite load_metadata.
Qed.

Lemma checkDependency_during (cur : Manager) unsatisfied dep :
  m_serviceProviderMap cur = m_serviceProviderMap mgr →
  (∀ k, metadata <$> (m_pluginMap cur !! k) = metadata <$> (m_pluginMap mgr !! k)) →
  checkDependency cur unsatisfied dep = checkDependency mgr unsatisfied dep.
Proof.
  intros Hprov Hmeta. unfold checkDependency, resolveServiceProvider. rewrite Hprov.
  destruct (optional dep); [done|]. destruct (dep_type dep); [|done].
  specialize (Hmeta (dep_id dep)).
  destruct (m_pluginMap cur !! dep_id dep), (m_pluginMap mgr !! dep_id dep);
    simplify_eq/=; [|done]. by rewrite Hmeta.
Qed.

Lemma checkDependencies_during (cur : Manager) meta :
  m_serviceProviderMap cur = m_serviceProviderMap mgr →
  (∀ k, metadata <$> (m_pluginMap cur !! k) = metadata <$> (m_pluginMap mgr !! k)) →
  checkDependencies cur meta = checkDependencies mgr meta.
Proof.
  intros Hprov Hmeta. unfold checkDependencies. generalize (@nil string).
  induction (requires meta) as [|dep deps IH]; intros acc; [done|]. simpl.
  by rewrite IH, checkDependency_during.
Qed.

Lemma forallb_snoc {A} (f : A → bool) l x : forallb f (l ++ [x]) = forallb f l && f x.
Proof. rewrite forallb_app. simpl. by rewrite andb_true_r. Qed.

Lemma loaderDuring_snoc_ne done k pluginId :
  k ≠ pluginId → loaderDuring mgr (done ++ [pluginId]) k = loaderDuring mgr done k.
Proof.
  intros Hne. unfold loaderDuring. destruct (m_pluginMap mgr !! k); [|done].
  assert (bool_decide (k ∈ done ++ [pluginId]) = bool_decide (k ∈ done)) as ->; [|done].
  apply bool_decide_ext. rewrite elem_of_app, list_elem_of_singleton. tauto.
Qed.

Lemma loadStep_inv done s pluginId :
  pluginId ∉ done → sweepInv mgr done s → sweepInv mgr (done ++ [pluginId]) (loadStep s pluginId).
Proof.
  intros Hfresh (Hsig & Hflag & Hprov & Hmap).
  destruct s as [[allLoaded signals] cur]. simpl in *.
  assert (∀ k, metadata <$> (m_pluginMap cur !! k) = metadata <$> (m_pluginMap mgr !! k))
    as Hmeta.
  { intros k. rewrite Hmap. apply loaderDuring_metadata. }
  assert (m_pluginMap cur !! pluginId = m_pluginMap mgr !! pluginId) as Hcur.
  { rewrite Hmap. unfold loaderDuring. destruct (m_pluginMap mgr !! pluginId); [|done].
    by rewrite bool_decide_eq_false_2. }
  unfold loadStep, sweepInv. rewrite omap_app. simpl.
  rewrite Hcur. unfold loadOutcome.
  destruct (m_pluginMap mgr !! pluginId) as [loader|] eqn:Hloader; simpl.
  2: { rewrite app_nil_r. split_and!; [done..|]. intros k. rewrite Hmap.
       destruct (decide (k = pluginId)) as [->|Hne].
       - unfold loaderDuring. by rewrite Hloader.
       - by rewrite loaderDuring_snoc_ne. }
  rewrite checkDependencies_during by done.
  destruct (checkDependencies mgr (metadata loader)) as [|u us] eqn:Hcheck; simpl.
  - destruct (load loader) as [ok loader'] eqn:Hload. simpl.
    assert (∀ k, <[pluginId := loader']> (m_pluginMap cur) !! k
                 = loaderDuring mgr (done ++ [pluginId]) k) as Hmap'.
    { intros k. destruct (decide (k = pluginId)) as [->|Hne].
      - rewrite lookup_insert_eq. unfold loaderDuring. rewrite Hloader, Hcheck.
        rewrite bool_decide_eq_true_2 by (apply elem_of_app; right; left).
        rewrite bool_decide_eq_true_2 by done. simpl. by rewrite Hload.
      - rewrite lookup_insert_ne by done. by rewrite Hmap, loaderDuring_snoc_ne. }
    destruct ok; simpl.
    + split_and!; [by rewrite Hsig| |done|done].
      rewrite forallb_snoc. simpl. by rewrite andb_true_r.
    + split_and!; [by rewrite Hsig| |done|done].
      rewrite forallb_snoc. simpl. by rewrite andb_false_r.
  - split_and!; [by rewrite Hsig| |done|].
    + rewrite forallb_snoc. simpl. by rewrite andb_false_r.
    + intros k. rewrite Hmap. destruct (decide (k = pluginId)) as [->|Hne].
      * unfold loaderDuring. rewrite Hloader, Hcheck.
        rewrite (bool_decide_eq_false_2 (_ = [])) by done. by rewrite !andb_false_r.
      * by rewrite loaderDuring_snoc_ne.
Qed.

Lemma foldl_loadStep_inv ids :
  ∀ done s, NoDup (done ++ ids) → sweepInv mgr done s →
    sweepInv mgr (done ++ ids) (foldl loadStep s ids).
Proof.
  induction ids as [|pluginId ids IH]; intros done s Hnd Hinv; simpl.
  { by rewrite app_nil_r. }
  change (pluginId :: ids) with ([pluginId] ++ ids). rewrite app_assoc.
  apply IH.
  - by rewrite <- app_assoc.
  - apply loadStep_inv; [|done].
    apply NoDup_app in Hnd as (_ & Hdisj & _). intros Hin. apply (Hdisj _ Hin). left.
Qed.

Lemma loadAll_inv : sweepInv mgr (computeLoadOrder mgr) (loadAll mgr).
Proof.
  unfold loadAll.
  apply (foldl_loadStep_inv (computeLoadOrder mgr) [] (true, [], mgr)).
  - apply computeLoadOrder_spec.
  - unfold sweepInv. simpl. split_and!; [done..|]. intros k. unfold loaderDuring.
    destruct (m_pluginMap mgr !! k); [|done].
    by rewrite bool_decide_eq_false_2 by apply not_elem_of_nil.
Qed.

Lemma loadOutcome_discovered k :
  is_Some (m_pluginMap mgr !! k) → is_Some (loadOutcome mgr k).
Proof.
  intros [loader Hl]. unfold loadOutcome. rewrite Hl.
  destruct (checkDependencies mgr (metadata loader)); [|eauto].
  destruct ((load loader).1); eauto.
Qed.

Lemma loadOutcome_names k s :
  loadOutcome mgr k = Some s → isLoadedSignal s = true → s = pluginLoaded k.
Proof.
  unfold loadOutcome. destruct (m_pluginMap mgr !! k) as [loader|]; [|done].
  destruct (checkDependencies mgr (metadata loader)).
  - destruct ((load loader).1); intros [= <-]; [done|]. simpl. done.
  - intros [= <-]. simpl. done.
Qed.

(** The sweep, relative to the order of the resolver.  [loadAll] goes
    through the ids of that order, in that order, and reports on every
    one of them: an error and no [load()] for a plugin with unmet
    mandatory dependencies, an error for a plugin whose [load()] fails,
    and "loaded" otherwise; no failure ends the sweep.  The flag is
    true exactly when every plugin of the order loaded.  Plugins that
    the resolver left out of its order are not touched. *)
Theorem loadAll_sweep :
  (loadAll mgr).1.2 = omap (loadOutcome mgr) (computeLoadOrder mgr) ∧
  length (loadAll mgr).1.2 = length (computeLoadOrder mgr) ∧
  ((loadAll mgr).1.1 = true ↔
     ∀ k, k ∈ computeLoadOrder mgr → loadOutcome mgr k = Some (pluginLoaded k)) ∧
  m_serviceProviderMap (loadAll mgr).2 = m_serviceProviderMap mgr ∧
  (∀ k, m_pluginMap (loadAll mgr).2 !! k = loaderAfter mgr k).
Proof.
  destruct loadAll_inv as (Hsig & Hflag & Hprov & Hmap).
  destruct (computeLoadOrder_spec mgr) as (_ & Horder & _).
  assert (∀ ids, (∀ k, k ∈ ids → is_Some (m_pluginMap mgr !! k)) →
            length (omap (loadOutcome mgr) ids) = length ids ∧
            (forallb isLoadedSignal (omap (loadOutcome mgr) ids) = true ↔
               ∀ k, k ∈ ids → loadOutcome mgr k = Some (pluginLoaded k))) as Hall.
  { induction ids as [|k ids IH]; intros Hkeys.
    { split; [done|]. split; [|done]. intros _ k Hk. by apply elem_of_nil in Hk. }
    destruct IH as [IHlen IHall]; [intros k' Hk'; apply Hkeys; by right|].
    destruct (loadOutcome_discovered k) as [s Hs]; [apply Hkeys; left|].
    simpl. rewrite Hs. simpl. split; [by f_equal|].
    rewrite andb_true_iff, IHall. split.
    - intros [Hk Hrest] k' [->|Hk']%elem_of_cons; [|by apply Hrest].
      rewrite Hs. f_equal. by eapply loadOutcome_names.
    - intros Hevery. split.
      + assert (loadOutcome mgr k = Some (pluginLoaded k)) as Hk by (apply Hevery; left).
        rewrite Hs in Hk. by injection Hk as ->.
      + intros k' Hk'. apply Hevery. by right. }
  destruct (Hall (computeLoadOrder mgr)) as [Hlen Hevery].
  { intros k Hk. by apply Horder in Hk as [? _]. }
  split_and!; [done|by rewrite Hsig|by rewrite Hflag, Hsig|done|done].
Qed.
End load_all.

Section load_examples.
Import PluginManager ManagerExamples.

End load_examples.

(** ** [discover] *)

Section discover.
Import PluginManager.
Context `{QHashOrder} `{QVersionNumber} `{Loadable}.
Implicit Types mgr : Manager.

Lemma lookup_claimService pluginId services (providers : gmap string string) service :
  foldl (claimService pluginId) providers services !! service
  = match providers !! service with
    | Some p => Some p
    | None => if decide (service ∈ services) then Some pluginId else None
    end.
Proof.
  revert providers. induction services as [|s services IH]; intros providers.
  { cbn [foldl]. destruct (providers !! service); [done|].
    case_decide as Hin; [by apply elem_of_nil in Hin|done]. }
  cbn [foldl]. rewrite IH. unfold claimService.
  destruct (decide (s = service)) as [->|Hne].
  - destruct (providers !! service) as [p|] eqn:Hp.
    + by rewrite Hp.
    + rewrite lookup_insert_eq. cbv iota. by rewrite decide_True by left.
  - assert ((match providers !! s with
             | Some _ => providers
             | None => <[s := pluginId]> providers
             end) !! service = providers !! service) as ->.
    { destruct (providers !! s); [done|]. by rewrite lookup_insert_ne. }
    destruct (providers !! service); [done|]. clear IH.
    destruct (decide (service ∈ services)) as [Hin|Hout].
    + by rewrite decide_True by (by right).
    + rewrite decide_False; [done|]. intros [?|?]%elem_of_cons; congruence.
Qed.

Lemma accept_fresh mgr loader :
  m_pluginMap mgr !! meta_id (metadata loader) = None →
  accept loader mgr
  = ({| m_pluginMap := <[meta_id (metadata loader) := loader]> (m_pluginMap mgr);
        m_serviceProviderMap :=
          foldl (claimService (meta_id (metadata loader))) (m_serviceProviderMap mgr)
                (provides (metadata loader)) |}, 1).
Proof. intros Hfresh. unfold accept. by rewrite Hfresh. Qed.

Lemma accept_duplicate mgr loader :
  is_Some (m_pluginMap mgr !! meta_id (metadata loader)) → accept loader mgr = (mgr, 0).
Proof. intros [old Hold]. unfold accept. by rewrite Hold. Qed.

Lemma accept_wellDiscovered mgr loader :
  wellDiscovered mgr → wellDiscovered (accept loader mgr).1.
Proof.
  intros [Hkeyed Hprov Hclaimed].
  destruct (m_pluginMap mgr !! meta_id (metadata loader)) as [old|] eqn:Hold.
  { rewrite accept_duplicate by eauto. by split. }
  rewrite accept_fresh by done. set (pluginId := meta_id (metadata loader)) in *.
  split; simpl.
  - intros k l. destruct (decide (k = pluginId)) as [->|Hne].
    + rewrite lookup_insert_eq. by intros [= <-].
    + rewrite lookup_insert_ne by done. apply Hkeyed.
  - intros service p. rewrite lookup_claimService.
    destruct (m_serviceProviderMap mgr !! service) as [q|] eqn:Hq.
    + intros [= <-]. destruct (Hprov service q Hq) as (l & Hl & Hin).
      exists l. split; [|done]. rewrite lookup_insert_ne; [done|]. congruence.
    + destruct (decide (service ∈ provides (metadata loader))); [|done].
      intros [= <-]. exists loader. split; [apply lookup_insert_eq|done].
  - intros k l service. rewrite lookup_claimService.
    destruct (decide (k = pluginId)) as [->|Hne].
    + rewrite lookup_insert_eq. intros [= <-] Hin.
      destruct (m_serviceProviderMap mgr !! service); [eauto|].
      rewrite decide_True by done. eauto.
    + rewrite lookup_insert_ne by done. intros Hl Hin.
      destruct (Hclaimed k l service Hl Hin) as [p ->]. eauto.
Qed.

Lemma discoverStep_wellDiscovered isValid (s : Discovery) file :
  wellDiscovered s.1.1 → wellDiscovered (discoverStep isValid s file).1.1.
Proof.
  destruct s as [[mgr count] emitted]. simpl. intros Hinv.
  destruct file as [loader|]; [|done]. destruct (isValid (metadata loader)); [|done]. simpl.
  pose proof (accept_wellDiscovered mgr loader Hinv) as Hnext.
  destruct (accept loader mgr) as [mgr' [|accepted]]; done.
Qed.

(** X14.  [discover] keeps the tables of the manager well formed:
    every loader stands under the id of its own metadata, every
    provider entered for a service is a discovered plugin that lists
    the service in its [provides], and every service that a discovered
    plugin provides has a provider. *)
Theorem discover_wellDiscovered isValid mgr listing :
  wellDiscovered mgr → wellDiscovered (discover isValid mgr listing).1.1.
Proof.
  intros Hinv. unfold discover. destruct listing as [files|]; [|done].
  assert (∀ s : Discovery, wellDiscovered s.1.1 →
            wellDiscovered (foldl (discoverStep isValid) s files).1.1) as Hfold.
  { induction files as [|file files IH]; intros s Hs; [done|]. simpl.
    by apply IH, discoverStep_wellDiscovered. }
  by apply Hfold.
Qed.

Lemma claimService_subseteq pluginId services (providers : gmap string string) :
  providers ⊆ foldl (claimService pluginId) providers services.
Proof.
  apply map_subseteq_spec. intros service p Hp. by rewrite lookup_claimService, Hp.
Qed.

Lemma grownFrom_refl s : grownFrom s s.
Proof.
  split_and!; [done|done|done|]. exists []. rewrite app_nil_r.
  split_and!; [done|done|constructor|]. intros k. rewrite elem_of_nil. tauto.
Qed.

Lemma discoverStep_grownFrom isValid start s file :
  grownFrom start s → grownFrom start (discoverStep isValid s file).
Proof.
  intros Hgrown. destruct s as [[mgr count] emitted].
  unfold discoverStep. destruct file as [loader|]; [|done].
  destruct (isValid (metadata loader)); [|done]. simpl.
  destruct (m_pluginMap mgr !! meta_id (metadata loader)) as [old|] eqn:Hold.
  { by rewrite accept_duplicate by eauto. }
  rewrite accept_fresh by done.
  destruct Hgrown as (Hmap & Hprov & Hsize & new & Hnew & Hlen & Hnd & Hkeys).
  simpl in *. split_and!; simpl.
  - etrans; [done|]. by apply insert_subseteq.
  - etrans; [done|]. apply claimService_subseteq.
  - rewrite map_size_insert_None by done. lia.
  - exists (new ++ [meta_id (metadata loader)]). split_and!.
    + by rewrite Hnew, app_assoc.
    + rewrite length_app. simpl. lia.
    + apply NoDup_app. split_and!; [done| |apply NoDup_singleton].
      intros k Hk ->%list_elem_of_singleton.
      assert (is_Some (m_pluginMap mgr !! meta_id (metadata loader))) as [? ?]
        by (apply Hkeys; by right).
      congruence.
    + intros k. rewrite lookup_insert_is_Some, elem_of_app, list_elem_of_singleton, Hkeys.
      split.
      * intros [<-|[_ [Hk|Hk]]]; [right; by right|by left|right; by left].
      * intros Hk. destruct (decide (meta_id (metadata loader) = k)) as [|Hne]; [by left|].
        right. split; [done|]. destruct Hk as [Hk|[Hk| ->]]; [by left|by right|done].
Qed.

(** X15.  [discover] only adds: a plugin already in the table is never
    replaced and neither is the provider of a service, so of several
    files with one id, or several plugins providing one service, the
    first seen stays.  The count returned is the number of plugins
    entered, which are the ids signalled, each once and none of them
    known before; a directory that does not exist leaves the manager
    as it is and gives 0. *)
Theorem discover_grows isValid mgr listing :
  let '(mgr', count, emitted) := discover isValid mgr listing in
  m_pluginMap mgr ⊆ m_pluginMap mgr' ∧
  m_serviceProviderMap mgr ⊆ m_serviceProviderMap mgr' ∧
  size (m_pluginMap mgr') = size (m_pluginMap mgr) + count ∧
  length emitted = count ∧ NoDup emitted ∧
  (∀ k, is_Some (m_pluginMap mgr' !! k) ↔ is_Some (m_pluginMap mgr !! k) ∨ k ∈ emitted) ∧
  (listing = None → mgr' = mgr ∧ count = 0).
Proof.
  assert (grownFrom (mgr, 0, []) (discover isValid mgr listing)) as Hgrown.
  { unfold discover. destruct listing as [files|]; [|apply grownFrom_refl].
    assert (∀ s, grownFrom (mgr, 0, []) s →
              grownFrom (mgr, 0, []) (foldl (discoverStep isValid) s files)) as Hfold.
    { induction files as [|file files IH]; intros s Hs; [done|]. simpl.
      by apply IH, discoverStep_grownFrom. }
    apply Hfold, grownFrom_refl. }
  destruct (discover isValid mgr listing) as [[mgr' count] emitted] eqn:Hrun.
  destruct Hgrown as (Hmap & Hprov & Hsize & new & Hnew & Hlen & Hnd & Hkeys). simpl in *.
  subst emitted. split_and!; [done|done|lia|lia|done|done|].
  intros ->. simpl in Hrun. by injection Hrun as <- <- _.
Qed.

End discover.
(** ** Topic patterns *)

Section strings.
Implicit Types s t u : string.

Lemma elem_of_list_ascii_cons c d s :
  c ∈ String.list_ascii_of_string (String d s) ↔ c = d ∨ c ∈ String.list_ascii_of_string s.
Proof. simpl. apply elem_of_cons. Qed.
End strings.

Section appending.
Implicit Types s t u : string.

Lemma append_nil_l s : "" +:+ s = s.
Proof. reflexivity. Qed.

Lemma append_cons c s t : String c s +:+ t = String c (s +:+ t).
Proof. reflexivity. Qed.

Lemma append_nil_r s : s +:+ "" = s.
Proof. induction s as [|c s IH]; [done|]. by rewrite append_cons, IH. Qed.

Lemma append_assoc s t u : (s +:+ t) +:+ u = s +:+ t +:+ u.
Proof. induction s as [|c s IH]; [done|]. by rewrite !append_cons, IH. Qed.
End appending.

Section matching.
Import TopicPattern.

Lemma oneOrMore_spec (p : ascii → bool) (k : string → bool) (s : string) :
  oneOrMore p k s = true ↔
  ∃ piece rest, s = piece +:+ rest ∧ piece ≠ "" ∧
    (∀ c, c ∈ String.list_ascii_of_string piece → p c = true) ∧ k rest = true.
Proof.
  split.
  - induction s as [|c s IH]; simpl; [done|].
    rewrite andb_true_iff, orb_true_iff. intros [Hc [Hk|Hmore]].
    + exists (String c ""), s. split_and!; [done|done| |done].
      intros d [->|Hd]%elem_of_list_ascii_cons; [done|]. by apply elem_of_nil in Hd.
    + destruct (IH Hmore) as (piece & rest & -> & Hne & Hall & Hk).
      exists (String c piece), rest. split_and!; [done|done| |done].
      intros d [->|Hd]%elem_of_list_ascii_cons; [done|by apply Hall].
  - intros (piece & rest & -> & Hne & Hall & Hk).
    induction piece as [|c piece IH]; [done|]. rewrite append_cons. simpl.
    rewrite (Hall c) by (apply elem_of_list_ascii_cons; by left). simpl.
    destruct piece as [|d piece]; [by rewrite append_nil_l, Hk|].
    rewrite IH; [by rewrite orb_true_r|done|].
    intros e He. apply Hall. apply elem_of_list_ascii_cons. by right.
Qed.

Lemma atEnd_spec s : atEnd s = true ↔ s = "" ∨ s = String "010" "".
Proof.
  unfold atEnd, isNewline. destruct s as [|c [|d s]].
  - split; [by left|done].
  - destruct (Ascii.eqb_spec c "010") as [->|Hne].
    + split; [by right|done].
    + split; [done|]. intros [|[= ?]]; done.
  - split; [done|]. intros [|]; done.
Qed.

Lemma matchItems_Matches items s : matchItems items s = true ↔ Matches items s.
Proof.
  revert s. induction items as [|item items IH]; intros s.
  - simpl. rewrite atEnd_spec. split.
    + intros [->| ->]; constructor.
    + inversion 1; auto.
  - destruct item as [c| |]; simpl.
    + destruct s as [|d s].
      * split; [done|inversion 1].
      * rewrite andb_true_iff, IH. split.
        -- intros [->%Ascii.eqb_eq Hm]. by constructor.
        -- inversion 1; subst. split; [apply Ascii.eqb_refl|done].
    + rewrite oneOrMore_spec. split.
      * intros (piece & rest & -> & Hne & Hall & Hk). constructor; [done| |by apply IH].
        intros c Hc ->. specialize (Hall _ Hc). done.
      * inversion 1 as [| | |piece items' rest Hne Hall Hm|]; subst.
        exists piece, rest. split_and!; [done|done| |by apply IH].
        intros c Hc. apply negb_true_iff, Ascii.eqb_neq. by apply Hall.
    + rewrite oneOrMore_spec. split.
      * intros (piece & rest & -> & Hne & Hall & Hk). constructor; [done| |by apply IH].
        intros c Hc ->. specialize (Hall _ Hc). done.
      * inversion 1 as [| | | |piece items' rest Hne Hall Hm]; subst.
        exists piece, rest. split_and!; [done|done| |by apply IH].
        intros c Hc. apply negb_true_iff, Ascii.eqb_neq. by apply Hall.
Qed.
End matching.

Section compile.
Import TopicPattern.
Implicit Types (c : ascii) (p s X : string).

#[local] Arguments Ascii.eqb : simpl never.
#[local] Arguments isWordChar : simpl never.
#[local] Arguments isNul : simpl never.
#[local] Arguments isMeta : simpl never.

(** Facts about single characters, by enumeration. *)
Lemma wordChar_plain c :
  isWordChar c = true →
  isNul c = false ∧ isMeta c = false ∧
  Ascii.eqb c "\" = false ∧ Ascii.eqb c "*" = false ∧ Ascii.eqb c "$" = false ∧
  Ascii.eqb "\" c = false ∧ Ascii.eqb "<" c = false ∧ Ascii.eqb "[" c = false ∧
  Ascii.eqb "." c = false ∧ Ascii.eqb "*" c = false.
Proof.
  destruct c as [[] [] [] [] [] [] [] []]; vm_compute; intros Hw;
    first [discriminate Hw | repeat split].
Qed.

Lemma zero_is_word c : isWordChar c = false → Ascii.eqb c "0" = false.
Proof.
  destruct c as [[] [] [] [] [] [] [] []]; vm_compute; intros Hw;
    first [discriminate Hw | reflexivity].
Qed.

Lemma star_not_word : isWordChar "*" = false ∧ isNul "*" = false.
Proof. split; reflexivity. Qed.

Lemma replaceFrom_miss before after c X :
  startsWith before (String c X) = false →
  replaceFrom before after 0 (String c X) = String c (replaceFrom before after 0 X).
Proof. intros Hmiss. simpl. by rewrite Hmiss. Qed.

Lemma startsWith_head a before X :
  startsWith (String a "") X = false → startsWith (String a before) X = false.
Proof.
  destruct X as [|c X]; [done|]. simpl. rewrite andb_true_r. by intros ->.
Qed.

Lemma render_nil dbl single : render dbl single "" = "".
Proof. reflexivity. Qed.

Lemma render_double dbl single p :
  render dbl single (String "*" (String "*" p)) = dbl +:+ render dbl single p.
Proof. reflexivity. Qed.

Lemma render_single dbl single p :
  startsWith "*" p = false →
  render dbl single (String "*" p) = single +:+ render dbl single p.
Proof.
  intros Hp. destruct p as [|c p]; simpl.
  - by rewrite append_nil_r.
  - simpl in Hp. rewrite andb_true_r, Ascii.eqb_sym in Hp. by rewrite Hp.
Qed.

Lemma render_other dbl single c p :
  Ascii.eqb c "*" = false →
  render dbl single (String c p) = escapeChar c +:+ render dbl single p.
Proof. intros Hc. simpl. by rewrite Hc. Qed.

(** Induction over a pattern by its items. *)
Lemma pattern_ind (P : string → Prop) :
  P "" →
  (∀ p, P p → P (String "*" (String "*" p))) →
  (∀ p, startsWith "*" p = false → P p → P (String "*" p)) →
  (∀ c p, Ascii.eqb c "*" = false → P p → P (String c p)) →
  ∀ p, P p.
Proof.
  intros Hnil Hdouble Hsingle Hother p.
  assert (P p ∧ ∀ c, P (String c p)) as [Hp _]; [|done].
  induction p as [|d p [IHp IHc]].
  - split; [done|]. intros c. destruct (Ascii.eqb_spec c "*") as [->|Hne].
    + by apply Hsingle.
    + apply Hother; [by apply Ascii.eqb_neq|done].
  - split; [apply IHc|]. intros c. destruct (Ascii.eqb_spec c "*") as [->|Hne].
    + destruct (Ascii.eqb_spec d "*") as [->|Hd].
      * by apply Hdouble.
      * apply Hsingle; [|apply IHc]. simpl. rewrite andb_true_r.
        apply Ascii.eqb_neq. congruence.
    + apply Hother; [by apply Ascii.eqb_neq|apply IHc].
Qed.

Lemma escape_cons c p : escape (String c p) = escapeChar c +:+ escape p.
Proof.
  cbn [escape]. unfold escapeChar. destruct (isNul c); [done|]. by destruct (isWordChar c).
Qed.

Lemma escape_render p : escape p = render "\*\*" "\*" p.
Proof.
  induction p as [|p IH|p Hp IH|c p Hc IH] using pattern_ind.
  - done.
  - rewrite render_double, !escape_cons, IH. reflexivity.
  - rewrite render_single, escape_cons, IH by done. reflexivity.
  - by rewrite render_other, escape_cons, IH.
Qed.

Lemma startsWith_cons a before c X :
  startsWith (String a before) (String c X) = Ascii.eqb a c && startsWith before X.
Proof. reflexivity. Qed.

Ltac eqb_facts :=
  rewrite ?startsWith_cons;
  repeat match goal with
         | H : Ascii.eqb _ _ = false |- _ => rewrite H
         | H : startsWith _ _ = false |- _ => rewrite H
         end;
  rewrite ?andb_false_r; reflexivity.

Lemma escapeChar_cases c :
  Ascii.eqb c "*" = false →
  (isNul c = true ∧ escapeChar c = "\0") ∨
  (isNul c = false ∧ isWordChar c = true ∧ escapeChar c = String c "") ∨
  (isNul c = false ∧ isWordChar c = false ∧ escapeChar c = String "\" (String c "")).
Proof.
  intros _. unfold escapeChar. destruct (isNul c); [by left|right].
  destruct (isWordChar c); [by left|by right].
Qed.

(** No expression built by [render] from marks that do not begin with a
    star begins with a star. *)
Lemma render_no_star dbl single p :
  startsWith "*" dbl = false → startsWith "*" single = false →
  dbl ≠ "" → single ≠ "" →
  startsWith "*" (render dbl single p) = false.
Proof.
  intros Hd Hs Hdne Hsne.
  induction p as [|p _|p Hp _|c p Hc _] using pattern_ind.
  - done.
  - rewrite render_double. destruct dbl as [|a dbl]; [done|].
    rewrite append_cons. by destruct p.
  - rewrite render_single by done. destruct single as [|a single]; [done|].
    rewrite append_cons. by destruct p.
  - rewrite render_other by done.
    assert (Ascii.eqb "*" c = false) as Hc' by by rewrite Ascii.eqb_sym.
    destruct (escapeChar_cases c Hc) as [[_ ->]|[(_ & Hw & ->)|(_ & _ & ->)]];
      rewrite ?append_cons; eqb_facts.
Qed.

Lemma escaped_no_escaped_star p :
  startsWith "*" p = false → startsWith "\*" (render "\*\*" "\*" p) = false.
Proof.
  intros Hp. destruct p as [|c p]; [done|].
  rewrite startsWith_cons, andb_true_r in Hp.
  assert (Ascii.eqb c "*" = false) as Hc by by rewrite Ascii.eqb_sym.
  rewrite render_other by done.
  destruct (escapeChar_cases c Hc) as [[_ ->]|[(_ & Hw & ->)|(_ & _ & ->)]];
    rewrite ?append_cons.
  - reflexivity.
  - apply wordChar_plain in Hw as (_ & _ & _ & _ & _ & Hb & _). eqb_facts.
  - eqb_facts.
Qed.

(** The first replacement turns each pair of escaped stars into the
    mark and nothing else. *)
Lemma replace_double_star p :
  replace "\*\*" doubleStarMark (render "\*\*" "\*" p) = render doubleStarMark "\*" p.
Proof.
  unfold replace.
  induction p as [|p IH|p Hp IH|c p Hc IH] using pattern_ind.
  - done.
  - rewrite !render_double, <- IH. reflexivity.
  - rewrite !render_single, <- IH by done.
    pose proof (escaped_no_escaped_star p Hp) as Hx.
    rewrite !append_cons, append_nil_l.
    rewrite replaceFrom_miss by eqb_facts.
    rewrite replaceFrom_miss by eqb_facts. done.
  - rewrite !render_other, <- IH by done.
    assert (Ascii.eqb "*" c = false) as Hc' by by rewrite Ascii.eqb_sym.
    pose proof (render_no_star "\*\*" "\*" p eq_refl eq_refl
                  ltac:(done) ltac:(done)) as Hx.
    destruct (escapeChar_cases c Hc) as [[_ ->]|[(_ & Hw & ->)|(_ & _ & ->)]];
      rewrite ?append_cons, ?append_nil_l.
    + reflexivity.
    + apply wordChar_plain in Hw as (_ & _ & _ & _ & _ & Hb & _).
      by rewrite replaceFrom_miss by eqb_facts.
    + rewrite replaceFrom_miss by eqb_facts.
      rewrite replaceFrom_miss; [done|].
      rewrite startsWith_cons, (startsWith_head "*" _ _ Hx). by rewrite andb_false_r.
Qed.

(** The second replacement turns each remaining escaped star into the
    class of one or more characters that are no slash. *)
Lemma replace_single_star p :
  replace "\*" notSlashRun (render doubleStarMark "\*" p) = render doubleStarMark notSlashRun p.
Proof.
  unfold replace.
  induction p as [|p IH|p Hp IH|c p Hc IH] using pattern_ind.
  - done.
  - rewrite !render_double, <- IH. reflexivity.
  - rewrite !render_single, <- IH by done. reflexivity.
  - rewrite !render_other, <- IH by done.
    assert (Ascii.eqb "*" c = false) as Hc' by by rewrite Ascii.eqb_sym.
    pose proof (render_no_star doubleStarMark "\*" p eq_refl eq_refl
                  ltac:(done) ltac:(done)) as Hx.
    destruct (escapeChar_cases c Hc) as [[_ ->]|[(_ & Hw & ->)|(_ & _ & ->)]];
      rewrite ?append_cons, ?append_nil_l.
    + reflexivity.
    + apply wordChar_plain in Hw as (_ & _ & _ & _ & _ & Hb & _).
      by rewrite replaceFrom_miss by eqb_facts.
    + rewrite replaceFrom_miss by eqb_facts.
      rewrite replaceFrom_miss; [done|].
      rewrite startsWith_cons, Hx. by rewrite andb_false_r.
Qed.

Lemma render_no_mark p :
  startsWith "<DOUBLE_STAR>>" (render doubleStarMark notSlashRun p) = false.
Proof.
  induction p as [|p _|p Hp _|c p Hc _] using pattern_ind.
  - done.
  - rewrite render_double. reflexivity.
  - rewrite render_single by done. reflexivity.
  - rewrite render_other by done.
    destruct (escapeChar_cases c Hc) as [[_ ->]|[(_ & Hw & ->)|(_ & _ & ->)]];
      rewrite ?append_cons, ?append_nil_l.
    + reflexivity.
    + apply wordChar_plain in Hw as (_ & _ & _ & _ & _ & _ & Hlt & _). eqb_facts.
    + reflexivity.
Qed.

(** The third replacement turns each mark into the class of one or more
    characters. *)
Lemma replace_mark p :
  replace doubleStarMark ".+" (render doubleStarMark notSlashRun p) = render ".+" notSlashRun p.
Proof.
  unfold replace.
  induction p as [|p IH|p Hp IH|c p Hc IH] using pattern_ind.
  - done.
  - rewrite !render_double, <- IH. reflexivity.
  - rewrite !render_single, <- IH by done. reflexivity.
  - rewrite !render_other, <- IH by done.
    pose proof (render_no_mark p) as Hx.
    destruct (escapeChar_cases c Hc) as [[_ ->]|[(_ & Hw & ->)|(_ & _ & ->)]];
      rewrite ?append_cons, ?append_nil_l.
    + reflexivity.
    + apply wordChar_plain in Hw as (_ & _ & _ & _ & _ & _ & Hlt & _).
      rewrite replaceFrom_miss; [done|]. unfold doubleStarMark. eqb_facts.
    + rewrite replaceFrom_miss by reflexivity.
      rewrite replaceFrom_miss; [done|].
      unfold doubleStarMark at 1. rewrite startsWith_cons, Hx. by rewrite andb_false_r.
Qed.

Lemma compilePattern_render p :
  compilePattern p = String "^" (render ".+" notSlashRun p +:+ "$").
Proof.
  unfold compilePattern.
  change "<<DOUBLE_STAR>>" with doubleStarMark. change "[^/]+" with notSlashRun.
  by rewrite escape_render, replace_double_star, replace_single_star, replace_mark.
Qed.

Lemma nulFree_cons c p : nulFree (String c p) ↔ isNul c = false ∧ nulFree p.
Proof.
  unfold nulFree, isNul. simpl. rewrite Forall_cons.
  split; intros [Hc Hall]; (split; [by apply Ascii.eqb_neq|done]).
Qed.

Lemma patternItems_double p :
  patternItems (String "*" (String "*" p)) = AnyPlus :: patternItems p.
Proof. reflexivity. Qed.

Lemma patternItems_single p :
  startsWith "*" p = false → patternItems (String "*" p) = NotSlashPlus :: patternItems p.
Proof.
  intros Hp. destruct p as [|c p]; [done|].
  rewrite startsWith_cons, andb_true_r, Ascii.eqb_sym in Hp.
  cbn [patternItems]. change (Ascii.eqb "*" "*") with true. cbn iota. by rewrite Hp.
Qed.

Lemma patternItems_other c p :
  Ascii.eqb c "*" = false → patternItems (String c p) = Lit c :: patternItems p.
Proof. intros Hc. cbn [patternItems]. by rewrite Hc. Qed.

Lemma parseItems_cons c rest :
  parseItems 0 (String c rest)
  = if Ascii.eqb c "\" then
      match escapeSequence rest with
      | Some (d, n) => cons (Lit d) <$> parseItems n rest
      | None => None
      end
    else if startsWith "[^/]+" (String c rest) then cons NotSlashPlus <$> parseItems 4 rest
    else if startsWith ".+" (String c rest) then cons AnyPlus <$> parseItems 1 rest
    else if Ascii.eqb c "$" then
      match rest with EmptyString => Some [] | _ => None end
    else if isMeta c then None
    else cons (Lit c) <$> parseItems 0 rest.
Proof. reflexivity. Qed.

(** The expression of a pattern without NUL is read back as the items
    of the pattern. *)
Lemma parseItems_render p :
  nulFree p → parseItems 0 (render ".+" notSlashRun p +:+ "$") = Some (patternItems p).
Proof.
  induction p as [|p IH|p Hp IH|c p Hc IH] using pattern_ind; intros Hnul.
  - reflexivity.
  - apply nulFree_cons in Hnul as [_ [_ Hnul]%nulFree_cons].
    rewrite render_double, patternItems_double, append_assoc.
    change (parseItems 0 (".+" +:+ render ".+" notSlashRun p +:+ "$"))
      with (cons AnyPlus <$> parseItems 0 (render ".+" notSlashRun p +:+ "$")).
    by rewrite IH.
  - apply nulFree_cons in Hnul as [_ Hnul].
    rewrite render_single, patternItems_single, append_assoc by done.
    change (parseItems 0 (notSlashRun +:+ render ".+" notSlashRun p +:+ "$"))
      with (cons NotSlashPlus <$> parseItems 0 (render ".+" notSlashRun p +:+ "$")).
    by rewrite IH.
  - apply nulFree_cons in Hnul as [Hc0 Hnul].
    rewrite render_other, patternItems_other, append_assoc by done.
    destruct (escapeChar_cases c Hc) as [[Hz _]|[(_ & Hw & ->)|(_ & Hw & ->)]];
      [congruence| |]; rewrite ?append_cons, ?append_nil_l, parseItems_cons.
    + apply wordChar_plain in Hw as (_ & Hmeta & Hb & _ & Hd & _ & _ & Hbr & Hdot & _).
      rewrite Hb, !startsWith_cons, Hbr, Hdot, Hd, Hmeta. simpl. by rewrite IH.
    + change (Ascii.eqb "\" "\") with true. cbn iota.
      unfold escapeSequence. rewrite (zero_is_word c Hw), Hw. simpl.
      by rewrite IH.
Qed.

Lemma parseRegex_compilePattern p :
  nulFree p → parseRegex (compilePattern p) = Some (patternItems p).
Proof. intros Hnul. rewrite compilePattern_render. by apply parseItems_render. Qed.

End compile.

Section engine.
Import TopicPattern.
Context `{RegexEngine} `{EventBus.Payload}.

(** Where the first attempt decides, every engine says what the
    expression says. *)
Lemma hasMatch_decided regex items subject :
  parseRegex regex = Some items →
  longestRuns items subject = matchItems items subject →
  hasMatch regex subject = matchItems items subject.
Proof.
  intros Hparse Hsame. destruct (matchItems items subject) eqn:Hm.
  - by eapply hasMatch_longest.
  - destruct (hasMatch regex subject) eqn:Hh; [|done].
    apply (hasMatch_sound _ _ _ Hparse) in Hh. congruence.
Qed.

Lemma matchesTopic_decided topic pattern :
  nulFree pattern →
  longestRuns (patternItems pattern) topic = matchItems (patternItems pattern) topic →
  matchesTopic topic pattern = matchItems (patternItems pattern) topic.
Proof.
  intros Hnul Hdecided. unfold matchesTopic. apply hasMatch_decided; [|done].
  by apply parseRegex_compilePattern.
Qed.

Lemma nulFree_orders_star : nulFree "orders/*".
Proof. unfold nulFree. vm_compute. repeat constructor; discriminate. Qed.

Lemma nulFree_orders_double_star : nulFree "orders/**".
Proof. unfold nulFree. vm_compute. repeat constructor; discriminate. Qed.

(** C3, amended.  For every topic and every pattern without NUL, read
    the pattern from the left: a pair of stars stands for one or more
    characters other than the line feed (slashes included, wherever the
    pair stands), a remaining star for one or more characters other
    than the slash, and any other character for itself.  [matchesTopic]
    holds only if the topic, up to a line feed that ends it, splits
    into one piece per item of the pattern, in order.  It does hold
    when the topic splits so with every star taking the longest run
    there is; for the other splits the library's search has to give
    characters back, and the engine may give up first.  The matcher
    that [subscribe] stores is the expression that [matchesTopic]
    compiles.  In particular [orders/*] matches [orders/created] and
    matches neither [orders/items/added] nor [orders], and [orders/**]
    matches [orders/created] and [orders/items/added] and not
    [orders]. *)
Theorem matchesTopic_items (topic pattern : string) :
  nulFree pattern →
  (matchesTopic topic pattern = true → Matches (patternItems pattern) topic) ∧
  (longestRuns (patternItems pattern) topic = true → matchesTopic topic pattern = true) ∧
  (∀ (bus : EventBus.Bus) subscriberId (handler : EventBus.EventHandler) options uuid,
     ∃ sub,
       EventBus.m_subscriptions
         (EventBus.subscribe bus pattern subscriberId (Some handler) options uuid).1 !! uuid
       = Some sub ∧
       EventBus.regex sub = compilePattern pattern ∧
       hasMatch (EventBus.regex sub) topic = matchesTopic topic pattern) ∧
  matchesTopic "orders/created" "orders/*" = true ∧
  matchesTopic "orders/items/added" "orders/*" = false ∧
  matchesTopic "orders" "orders/*" = false ∧
  matchesTopic "orders/created" "orders/**" = true ∧
  matchesTopic "orders/items/added" "orders/**" = true ∧
  matchesTopic "orders" "orders/**" = false.
Proof.
  intros Hnul. split_and!.
  - unfold matchesTopic. intros Hm. apply matchItems_Matches.
    eapply hasMatch_sound; [|done]. by apply parseRegex_compilePattern.
  - unfold matchesTopic. apply hasMatch_longest. by apply parseRegex_compilePattern.
  - intros bus subscriberId handler options uuid. eexists.
    split; [apply lookup_insert_eq|]. done.
  - by rewrite (matchesTopic_decided _ _ nulFree_orders_star).
  - by rewrite (matchesTopic_decided _ _ nulFree_orders_star).
  - by rewrite (matchesTopic_decided _ _ nulFree_orders_star).
  - by rewrite (matchesTopic_decided _ _ nulFree_orders_double_star).
  - by rewrite (matchesTopic_decided _ _ nulFree_orders_double_star).
  - by rewrite (matchesTopic_decided _ _ nulFree_orders_double_star).
Qed.
End engine.


Section segments.
Import TopicPattern.
Implicit Types s t u : string.

#[local] Arguments Ascii.eqb : simpl never.

Lemma splitFrom_cons sep current s :
  ∃ first more, splitFrom sep "" s = first :: more ∧
                splitFrom sep current s = (current +:+ first) :: more.
Proof.
  revert current. induction s as [|c s IH]; intros current; simpl.
  - exists "", []. by rewrite append_nil_r.
  - destruct (Ascii.eqb c sep).
    + exists "", (splitFrom sep "" s). by rewrite append_nil_r.
    + destruct (IH (String c "")) as (first & more & Hnil & Hone).
      destruct (IH (current +:+ String c "")) as (first' & more' & Hnil' & Hmany).
      rewrite Hnil in Hnil'. injection Hnil' as <- <-.
      exists (String c first), more. rewrite append_nil_l, Hone, Hmany.
      by rewrite append_assoc.
Qed.

Lemma segments_firstSegment s :
  segments s = (firstSegment s).1 :: from_option segments [] (firstSegment s).2.
Proof.
  unfold segments. induction s as [|c s IH]; [done|]. simpl.
  destruct (Ascii.eqb c "/"); [done|].
  destruct (splitFrom_cons "/" (String c "") s) as (first & more & Hnil & Hone).
  rewrite append_nil_l, Hone. rewrite Hnil in IH. injection IH as -> ->.
  by destruct (firstSegment s).
Qed.

Lemma firstSegment_spec s :
  (∀ c, c ∈ String.list_ascii_of_string (firstSegment s).1 → c ≠ "/"%char) ∧
  s = match (firstSegment s).2 with
      | None => (firstSegment s).1
      | Some rest => (firstSegment s).1 +:+ String "/" rest
      end.
Proof.
  induction s as [|c s [IHfree IHs]]; simpl.
  - split; [|done]. intros c Hc. by apply elem_of_nil in Hc.
  - destruct (Ascii.eqb_spec c "/") as [->|Hc]; simpl.
    + split; [|done]. intros c Hc. by apply elem_of_nil in Hc.
    + destruct (firstSegment s) as [t r]. simpl in *. split.
      * intros d [->|Hd]%elem_of_list_ascii_cons; [done|by apply IHfree].
      * destruct r; by rewrite IHs at 1.
Qed.

Lemma segmentsMatch_no_topic pattern : pattern ≠ [] → segmentsMatch pattern [] = false.
Proof.
  destruct pattern as [|p more]; [done|]. intros _. simpl.
  by destruct (bool_decide (p = "**") && bool_decide (more = [])).
Qed.
End segments.

Section whole_segments.
Import TopicPattern.
Context `{RegexEngine}.
Implicit Types s t u : string.

#[local] Arguments Ascii.eqb : simpl never.

(** A star before a slash takes the first segment of the topic. *)
Lemma star_then_slash items s :
  matchItems (NotSlashPlus :: Lit "/" :: items) s
  = negb (isEmpty (firstSegment s).1) && afterSlash (matchItems items) (firstSegment s).2.
Proof.
  cbn [matchItems]. induction s as [|c s IH]; [done|].
  cbn [oneOrMore firstSegment]. rewrite IH. clear IH.
  destruct (Ascii.eqb_spec c "/") as [->|Hc]; [done|]. simpl negb at 1. cbn iota.
  destruct s as [|d s].
  - done.
  - cbn [firstSegment]. rewrite (Ascii.eqb_sym "/" d).
    destruct (Ascii.eqb d "/"); simpl.
    + by rewrite orb_false_r.
    + by destruct (firstSegment s).
Qed.

(** A star that ends the pattern takes a topic of one segment. *)
Lemma star_at_end s :
  noNewline s = true →
  matchItems [NotSlashPlus] s
  = negb (isEmpty (firstSegment s).1) && bool_decide ((firstSegment s).2 = None).
Proof.
  cbn [matchItems]. induction s as [|c s IH]; [done|]. intros Hs.
  unfold noNewline in Hs. simpl in Hs. apply andb_true_iff in Hs as [Hc Hs].
  cbn [oneOrMore firstSegment]. rewrite IH by done. clear IH.
  destruct (Ascii.eqb_spec c "/") as [->|Hslash]; [done|]. simpl negb at 1. cbn iota.
  destruct s as [|d s]; [done|].
  unfold noNewline in Hs. simpl in Hs. apply andb_true_iff in Hs as [Hd Hs].
  assert (atEnd (String d s) = false) as ->.
  { unfold atEnd. destruct s; [|done]. by apply negb_true_iff. }
  cbn [firstSegment]. destruct (Ascii.eqb d "/"); [done|].
  by destruct (firstSegment s).
Qed.

(** A pair of stars that ends the pattern takes any topic but the empty
    one. *)
Lemma double_star_at_end s :
  noNewline s = true → matchItems [AnyPlus] s = negb (isEmpty s).
Proof.
  cbn [matchItems]. induction s as [|c s IH]; [done|]. intros Hs.
  unfold noNewline in Hs. simpl in Hs. apply andb_true_iff in Hs as [Hc Hs].
  cbn [oneOrMore]. rewrite Hc. simpl. destruct s as [|d s]; [done|].
  rewrite IH by done. simpl. by rewrite orb_true_r.
Qed.

Lemma startsRun_firstSegment s :
  startsRun (λ c, negb (Ascii.eqb c "/")) s = negb (isEmpty (firstSegment s).1).
Proof.
  destruct s as [|c s]; [done|]. cbn [startsRun firstSegment].
  destruct (Ascii.eqb c "/"); [done|]. by destruct (firstSegment s).
Qed.

Lemma skipRun_firstSegment s :
  skipRun (λ c, negb (Ascii.eqb c "/")) s
  = match (firstSegment s).2 with
    | Some rest => String "/" rest
    | None => ""
    end.
Proof.
  induction s as [|c s IH]; [done|]. cbn [skipRun firstSegment].
  destruct (Ascii.eqb_spec c "/") as [->|Hc]; [done|]. simpl negb. cbn iota.
  rewrite IH. by destruct (firstSegment s).
Qed.

Lemma skipRun_noNewline s :
  noNewline s = true → skipRun (λ c, negb (isNewline c)) s = "".
Proof.
  induction s as [|c s IH]; [done|]. intros Hs.
  unfold noNewline in Hs. simpl in Hs. apply andb_true_iff in Hs as [Hc Hs].
  cbn [skipRun]. rewrite Hc. by apply IH.
Qed.

(** The same three, for the first attempt of the search. *)
Lemma longest_star_then_slash items s :
  longestRuns (NotSlashPlus :: Lit "/" :: items) s
  = negb (isEmpty (firstSegment s).1) && afterSlash (longestRuns items) (firstSegment s).2.
Proof.
  cbn [longestRuns]. rewrite startsRun_firstSegment, skipRun_firstSegment.
  by destruct (firstSegment s).2.
Qed.

Lemma longest_star_at_end s :
  noNewline s = true →
  longestRuns [NotSlashPlus] s
  = negb (isEmpty (firstSegment s).1) && bool_decide ((firstSegment s).2 = None).
Proof.
  intros _. cbn [longestRuns]. rewrite startsRun_firstSegment, skipRun_firstSegment.
  destruct (firstSegment s).2 as [[|d rest]|]; done.
Qed.

Lemma longest_double_star_at_end s :
  noNewline s = true → longestRuns [AnyPlus] s = negb (isEmpty s).
Proof.
  intros Hs. cbn [longestRuns]. rewrite skipRun_noNewline by done.
  destruct s as [|c s]; [done|].
  unfold noNewline in Hs. simpl in Hs. apply andb_true_iff in Hs as [Hc Hs].
  cbn [startsRun]. rewrite Hc. done.
Qed.

Lemma patternItems_literal p s :
  starFree p = true → patternItems (p +:+ String "/" s) = literal p ++ Lit "/" :: patternItems s.
Proof.
  induction p as [|c p IH]; intros Hp; [done|].
  unfold starFree in Hp. simpl in Hp. apply andb_true_iff in Hp as [Hc Hp].
  apply negb_true_iff in Hc. rewrite append_cons. cbn [patternItems]. rewrite Hc.
  unfold literal. simpl. f_equal. by apply IH.
Qed.

Lemma patternItems_literal_end p : starFree p = true → patternItems p = literal p.
Proof.
  induction p as [|c p IH]; intros Hp; [done|].
  unfold starFree in Hp. simpl in Hp. apply andb_true_iff in Hp as [Hc Hp].
  apply negb_true_iff in Hc. cbn [patternItems]. rewrite Hc.
  unfold literal. simpl. f_equal. by apply IH.
Qed.

Lemma string_eq_cons c d (s t : string) :
  bool_decide (String c s = String d t) = Ascii.eqb c d && bool_decide (s = t).
Proof.
  destruct (Ascii.eqb_spec c d) as [->|Hcd]; simpl.
  - apply bool_decide_ext. split; [by intros [= ->]|by intros ->].
  - apply bool_decide_eq_false. by intros [= ? ?].
Qed.

Lemma noNewline_app s t : noNewline (s +:+ t) = noNewline s && noNewline t.
Proof.
  induction s as [|c s IH]; [done|]. rewrite append_cons. unfold noNewline in *. simpl.
  by rewrite IH, andb_assoc.
Qed.

Lemma plainTopic_rest topic rest :
  plainTopic topic = true → (firstSegment topic).2 = Some rest → plainTopic rest = true.
Proof.
  unfold plainTopic. rewrite !andb_true_iff. intros [Hsegs Hnl] Hrest.
  rewrite segments_firstSegment, Hrest in Hsegs. simpl in Hsegs.
  apply andb_true_iff in Hsegs as [_ Hsegs]. split; [done|].
  destruct (firstSegment_spec topic) as [_ Htopic]. rewrite Hrest in Htopic.
  fold (noNewline topic) in Hnl. rewrite Htopic, noNewline_app in Hnl.
  by apply andb_true_iff in Hnl as [_ Hnl].
Qed.

Lemma plainTopic_not_empty topic : plainTopic topic = true → isEmpty topic = false.
Proof.
  unfold plainTopic. rewrite andb_true_iff. intros [Hsegs _].
  destruct topic; [done|]. by apply bool_decide_eq_false.
Qed.

Lemma starFree_not_stars p : starFree p = true → p ≠ "*" ∧ p ≠ "**".
Proof. split; intros ->; done. Qed.

(** The comparison with the segment-wise reading is made once, for any
    way [m] of matching that takes literal characters one by one and
    whole segments for the stars. *)
Section segment_wise.
Variable m : list Item → string → bool.
Hypothesis m_lit : ∀ c items s,
  m (Lit c :: items) s
  = match s with
    | String d rest => Ascii.eqb c d && m items rest
    | EmptyString => false
    end.
Hypothesis m_end : ∀ s, m [] s = atEnd s.
Hypothesis m_star_then_slash : ∀ items s,
  m (NotSlashPlus :: Lit "/" :: items) s
  = negb (isEmpty (firstSegment s).1) && afterSlash (m items) (firstSegment s).2.
Hypothesis m_star_at_end : ∀ s,
  noNewline s = true →
  m [NotSlashPlus] s
  = negb (isEmpty (firstSegment s).1) && bool_decide ((firstSegment s).2 = None).
Hypothesis m_double_star_at_end : ∀ s,
  noNewline s = true → m [AnyPlus] s = negb (isEmpty s).

(** A segment without star before a slash takes an equal first segment
    of the topic. *)
Lemma literal_then_slash p items s :
  (∀ c, c ∈ String.list_ascii_of_string p → c ≠ "/"%char) →
  m (literal p ++ Lit "/" :: items) s
  = bool_decide (p = (firstSegment s).1) && afterSlash (m items) (firstSegment s).2.
Proof using m_lit.
  revert s. induction p as [|c p IH]; intros s Hfree.
  - unfold literal. simpl. rewrite m_lit. destruct s as [|d s]; [done|].
    cbn [firstSegment].
    rewrite (Ascii.eqb_sym "/" d). destruct (Ascii.eqb d "/"); [done|].
    by destruct (firstSegment s).
  - unfold literal. simpl. fold (literal p). rewrite m_lit. destruct s as [|d s]; [done|].
    rewrite IH by (intros e He; apply Hfree, elem_of_list_ascii_cons; by right).
    cbn [firstSegment]. destruct (Ascii.eqb_spec d "/") as [->|Hd].
    + simpl. assert (Ascii.eqb c "/" = false) as ->; [|done].
      apply Ascii.eqb_neq, Hfree, elem_of_list_ascii_cons. by left.
    + destruct (firstSegment s) as [t r]. simpl. by rewrite string_eq_cons, andb_assoc.
Qed.

(** A segment without star that ends the pattern takes a topic that is
    this one segment. *)
Lemma literal_at_end p s :
  noNewline s = true →
  (∀ c, c ∈ String.list_ascii_of_string p → c ≠ "/"%char) →
  m (literal p) s
  = bool_decide (p = (firstSegment s).1) && bool_decide ((firstSegment s).2 = None).
Proof using m_lit m_end.
  revert s. induction p as [|c p IH]; intros s Hs Hfree.
  - unfold literal. simpl. rewrite m_end. destruct s as [|d s]; [done|].
    unfold noNewline in Hs. simpl in Hs. apply andb_true_iff in Hs as [Hd Hs].
    assert (atEnd (String d s) = false) as ->.
    { unfold atEnd. destruct s; [|done]. by apply negb_true_iff. }
    cbn [firstSegment]. destruct (Ascii.eqb d "/"); [done|].
    by destruct (firstSegment s).
  - unfold literal. simpl. fold (literal p). rewrite m_lit. destruct s as [|d s]; [done|].
    unfold noNewline in Hs. simpl in Hs. apply andb_true_iff in Hs as [Hd Hs].
    rewrite IH by (done || intros e He; apply Hfree, elem_of_list_ascii_cons; by right).
    cbn [firstSegment]. destruct (Ascii.eqb_spec d "/") as [->|Hslash].
    + simpl. assert (Ascii.eqb c "/" = false) as ->; [|done].
      apply Ascii.eqb_neq, Hfree, elem_of_list_ascii_cons. by left.
    + destruct (firstSegment s) as [t r]. simpl. by rewrite string_eq_cons, andb_assoc.
Qed.

(** On the patterns whose stars stand as whole segments, and topics of
    non-empty segments without line feed, the items of the pattern
    match as the segment-wise reading says. *)
Lemma segment_wise_segments pattern :
  wholeSegments (segments pattern) = true →
  ∀ topic, plainTopic topic = true →
  m (patternItems pattern) topic = segmentsMatch (segments pattern) (segments topic).
Proof using m_lit m_end m_star_then_slash m_star_at_end m_double_star_at_end.
  remember (String.length pattern) as n eqn:Hn. revert pattern Hn.
  induction (lt_wf n) as [n _ IH]. intros pattern -> Hwhole topic Htopic.
  assert (noNewline topic = true) as Hnl.
  { unfold plainTopic in Htopic. by apply andb_true_iff in Htopic as [_ ?]. }
  destruct (firstSegment_spec pattern) as [Hfree Hpattern].
  rewrite (segments_firstSegment pattern) in Hwhole |- *.
  rewrite (segments_firstSegment topic).
  destruct (firstSegment pattern) as [p [rest|]]; simpl in Hfree, Hpattern, Hwhole |- *.
  - (* a segment followed by others *)
    assert (segments rest ≠ []) as Hmore by (by rewrite segments_firstSegment).
    apply andb_true_iff in Hwhole as [Hp Hwhole].
    rewrite (bool_decide_eq_false_2 (segments rest = [])), andb_false_r, orb_false_r in Hp
      by done.
    rewrite (bool_decide_eq_false_2 (segments rest = [])), andb_false_r by done.
    assert (∀ rest', (firstSegment topic).2 = Some rest' →
              m (patternItems rest) rest'
              = segmentsMatch (segments rest) (segments rest')) as Hrec.
    { intros rest' Hrest'. eapply (IH (String.length rest)); [|done|done|].
      - rewrite Hpattern. clear. induction p as [|c p IHp]; simpl; lia.
      - by eapply plainTopic_rest. }
    apply orb_true_iff in Hp as [->%bool_decide_eq_true|Hp].
    + rewrite Hpattern, append_cons, append_nil_l.
      change (patternItems (String "*" (String "/" rest)))
        with (NotSlashPlus :: Lit "/" :: patternItems rest).
      rewrite m_star_then_slash. f_equal.
      destruct (firstSegment topic).2 as [rest'|]; simpl.
      * by apply Hrec.
      * by rewrite segmentsMatch_no_topic.
    + destruct (starFree_not_stars p Hp) as [Hone _].
      rewrite (bool_decide_eq_false_2 (p = "*")) by done.
      rewrite Hpattern, patternItems_literal, literal_then_slash by done. f_equal.
      destruct (firstSegment topic).2 as [rest'|]; simpl.
      * by apply Hrec.
      * by rewrite segmentsMatch_no_topic.
  - (* the last segment *)
    subst pattern. rewrite !andb_true_r in Hwhole. rewrite !andb_true_r.
    assert (bool_decide (from_option segments [] (firstSegment topic).2 = [])
            = bool_decide ((firstSegment topic).2 = None)) as ->.
    { destruct (firstSegment topic).2 as [rest'|]; simpl; [|done].
      by rewrite segments_firstSegment. }
    apply orb_true_iff in Hwhole as [Hp| ->%bool_decide_eq_true].
    + apply orb_true_iff in Hp as [->%bool_decide_eq_true|Hp].
      * by rewrite m_star_at_end.
      * destruct (starFree_not_stars p Hp) as [Hone Htwo].
        rewrite (bool_decide_eq_false_2 (p = "*")), (bool_decide_eq_false_2 (p = "**")) by done.
        by rewrite patternItems_literal_end, literal_at_end.
    + change (patternItems "**") with [AnyPlus]. rewrite m_double_star_at_end by done.
      by rewrite plainTopic_not_empty.
Qed.

End segment_wise.

Lemma matchItems_segments pattern topic :
  wholeSegments (segments pattern) = true → plainTopic topic = true →
  matchItems (patternItems pattern) topic = segmentsMatch (segments pattern) (segments topic).
Proof.
  intros Hwhole Htopic.
  apply (segment_wise_segments matchItems); auto using star_then_slash, star_at_end,
    double_star_at_end.
Qed.

Lemma longestRuns_segments pattern topic :
  wholeSegments (segments pattern) = true → plainTopic topic = true →
  longestRuns (patternItems pattern) topic = segmentsMatch (segments pattern) (segments topic).
Proof.
  intros Hwhole Htopic.
  apply (segment_wise_segments longestRuns); auto using longest_star_then_slash,
    longest_star_at_end, longest_double_star_at_end.
Qed.

(** X11.  On a pattern without NUL whose segments are each [*], free of
    stars, or a final [**], and a topic of non-empty segments without
    line feed, [matchesTopic] decides segment by segment: [*] takes
    exactly one segment, a final [**] takes one or more segments, and
    any other segment takes the equal segment of the topic. *)
Lemma matchesTopic_whole_segments topic pattern :
  nulFree pattern → wholeSegments (segments pattern) = true → plainTopic topic = true →
  matchesTopic topic pattern = specMatches topic pattern.
Proof.
  intros Hnul Hwhole Htopic. unfold specMatches.
  rewrite matchesTopic_decided; [by apply matchItems_segments|done|].
  by rewrite longestRuns_segments, matchItems_segments.
Qed.
End whole_segments.

Section pattern_examples.
Import TopicPattern.

(** A star that is only part of a segment: under no engine does
    [matchesTopic] agree with the segment-wise reading. *)
Lemma star_inside_a_segment :
  ¬ ∃ engine : RegexEngine,
      ∀ topic pattern, @matchesTopic engine topic pattern = specMatches topic pattern.
Proof.
  intros [engine Hall]. specialize (Hall "orders/item42" "orders/item*").
  rewrite (@matchesTopic_decided engine) in Hall.
  - vm_compute in Hall. discriminate.
  - unfold nulFree. vm_compute. repeat constructor; discriminate.
  - by vm_compute.
Qed.

#[local] Existing Instance unlimited.
#[local] Existing Instance BusExamples.logPayload.

Lemma matchesTopic_items_orders :
  matchesTopic "orders/created" "orders/*" = true ∧
  Matches (patternItems "orders/*") "orders/created".
Proof.
  destruct (matchesTopic_items "orders/created" "orders/*") as (Hsound & Hlongest & _).
  - unfold nulFree. vm_compute. repeat constructor; discriminate.
  - split; [|apply Hsound]; apply Hlongest; reflexivity.
Defined.
End pattern_examples.
(** ** Patterns without stars, and the empty topic *)

Section literal_patterns.
Import TopicPattern.
Context `{RegexEngine}.

#[local] Arguments Ascii.eqb : simpl never.

Lemma matchItems_literal p s :
  matchItems (literal p) s = true ↔ s = p ∨ s = p +:+ String "010" "".
Proof.
  revert s. induction p as [|c p IH]; intros s.
  - unfold literal. simpl. apply atEnd_spec.
  - unfold literal. simpl. fold (literal p). destruct s as [|d s].
    + split; [done|]. intros [|]; done.
    + rewrite andb_true_iff, IH, append_cons. split.
      * intros [->%Ascii.eqb_eq [-> | ->]]; [by left|by right].
      * intros [[= -> ->]|[= -> ->]]; (split; [apply Ascii.eqb_refl|]); [by left|by right].
Qed.

Lemma longestRuns_literal p s : longestRuns (literal p) s = matchItems (literal p) s.
Proof.
  revert s. induction p as [|c p IH]; intros s; [done|].
  unfold literal. simpl. fold (literal p). destruct s as [|d s]; [done|]. by rewrite IH.
Qed.

(** X12.  A pattern without star and without NUL matches the topic
    equal to it and that topic followed by one line feed, and no other:
    the characters that have a meaning in a regular expression are
    taken literally, and the end anchor lets a final line feed pass. *)
Theorem matchesTopic_literal topic pattern :
  nulFree pattern → starFree pattern = true →
  (matchesTopic topic pattern = true ↔
   topic = pattern ∨ topic = pattern +:+ String "010" "").
Proof.
  intros Hnul Hstar. rewrite matchesTopic_decided by
    (done || rewrite patternItems_literal_end by done; apply longestRuns_literal).
  rewrite patternItems_literal_end by done. apply matchItems_literal.
Qed.

Lemma patternItems_nil pattern : patternItems pattern = [] ↔ pattern = "".
Proof.
  split; [|by intros ->]. destruct pattern as [|c [|d p]]; [done| |]; simpl.
  - by destruct (Ascii.eqb c "*").
  - destruct (Ascii.eqb c "*"); [|done]. by destruct (Ascii.eqb d "*").
Qed.

(** X13.  The empty topic is matched by the empty pattern alone: a
    star, single or double, always takes at least one character. *)
Theorem matchesTopic_empty_topic pattern :
  nulFree pattern → (matchesTopic "" pattern = true ↔ pattern = "").
Proof.
  intros Hnul. rewrite matchesTopic_decided by
    (done || by destruct (patternItems pattern) as [|[c| |] items]).
  rewrite <- patternItems_nil. destruct (patternItems pattern) as [|[c| |] items]; simpl.
  - done.
  - split; done.
  - split; done.
  - split; done.
Qed.
End literal_patterns.

Section more_pattern_examples.
Import TopicPattern.
#[local] Existing Instance unlimited.

Lemma nulFree_orders : nulFree "orders/*/items".
Proof. unfold nulFree. vm_compute. repeat constructor; discriminate. Qed.

Lemma matchesTopic_whole_segments_orders :
  matchesTopic "orders/42/items" "orders/*/items"
  = specMatches "orders/42/items" "orders/*/items".
Proof.
  apply (matchesTopic_whole_segments "orders/42/items" "orders/*/items").
  - apply nulFree_orders.
  - reflexivity.
  - reflexivity.
Defined.

Lemma matchesTopic_literal_dot :
  matchesTopic "axb" "a.b" = true ↔ "axb" = "a.b" ∨ "axb" = "a.b" +:+ String "010" "".
Proof.
  apply (matchesTopic_literal "axb" "a.b").
  - unfold nulFree. vm_compute. repeat constructor; discriminate.
  - reflexivity.
Defined.

Lemma matchesTopic_empty_topic_star :
  matchesTopic "" "*" = true ↔ "*" = "".
Proof.
  apply (matchesTopic_empty_topic "*").
  unfold nulFree. vm_compute. repeat constructor; discriminate.
Defined.
End more_pattern_examples.

(** ** The subscriber index *)

Section index_total.
Import EventBus.
Implicit Types index : gmap string (list string).

Lemma indexTotal_empty : indexTotal ∅ = 0.
Proof. unfold indexTotal. apply map_fold_empty. Qed.

Lemma indexTotal_insert_None index k ids :
  index !! k = None → indexTotal (<[k := ids]> index) = length ids + indexTotal index.
Proof.
  intros Hk. unfold indexTotal. rewrite map_fold_insert_L; [done| |done].
  intros. lia.
Qed.

Lemma indexTotal_delete index k ids :
  index !! k = Some ids → indexTotal index = length ids + indexTotal (delete k index).
Proof.
  intros Hk. rewrite <- (insert_delete_id index k ids) at 1 by done.
  apply indexTotal_insert_None, lookup_delete_eq.
Qed.

Lemma indexTotal_insert index k ids :
  indexTotal (<[k := ids]> index) = length ids + indexTotal (delete k index).
Proof.
  rewrite <- insert_delete_eq. apply indexTotal_insert_None, lookup_delete_eq.
Qed.
End index_total.

Section index_consistent.
Import EventBus.
Context `{QHashOrder} `{StdSort} `{Payload} `{TopicPattern.RegexEngine}.
Implicit Types bus : Bus.

Lemma elem_of_removeAll (y x : string) l : y ∈ removeAll x l ↔ y ∈ l ∧ y ≠ x.
Proof. unfold removeAll. rewrite list_elem_of_filter. tauto. Qed.

Lemma removeAll_absent (x : string) l : x ∉ l → removeAll x l = l.
Proof.
  unfold removeAll. induction l as [|y l IH]; intros Hx; [done|].
  apply not_elem_of_cons in Hx as [Hne Hx].
  rewrite filter_cons, decide_True by done. f_equal. by apply IH.
Qed.

Lemma length_removeAll (x : string) l :
  NoDup l → x ∈ l → S (length (removeAll x l)) = length l.
Proof.
  unfold removeAll. induction 1 as [|y l Hy Hnd IH]; intros Hin.
  { by apply elem_of_nil in Hin. }
  rewrite filter_cons. apply elem_of_cons in Hin as [->|Hin].
  - rewrite decide_False by (intros Hne; by apply Hne). simpl. f_equal.
    f_equal. by apply removeAll_absent.
  - rewrite decide_True by (intros ->; done). simpl. f_equal. by apply IH.
Qed.

Lemma lookup_foldl_delete {V} (m : gmap string V) ids x :
  foldl (λ subs i, delete i subs) m ids !! x = if decide (x ∈ ids) then None else m !! x.
Proof.
  revert m. induction ids as [|i ids IH]; intros m; simpl.
  { destruct (decide (x ∈ [])) as [Hin|]; [by apply elem_of_nil in Hin|done]. }
  rewrite IH. destruct (decide (x = i)) as [->|Hne].
  - rewrite lookup_delete_eq. rewrite (decide_True (P := i ∈ i :: ids)) by left.
    by destruct (decide (i ∈ ids)).
  - rewrite lookup_delete_ne by done.
    destruct (decide (x ∈ ids)) as [Hin|Hin].
    + rewrite decide_True by (by right). done.
    + rewrite decide_False; [done|]. intros [?|?]%elem_of_cons; done.
Qed.

Lemma size_foldl_delete {V} (m : gmap string V) ids :
  NoDup ids → (∀ x, x ∈ ids → is_Some (m !! x)) →
  size (foldl (λ subs i, delete i subs) m ids) + length ids = size m.
Proof.
  intros Hnd. revert m. induction Hnd as [|i ids Hi Hnd IH]; intros m Hin; simpl.
  { lia. }
  rewrite Nat.add_succ_r, IH.
  - destruct (Hin i) as [v Hv]; [left|]. rewrite map_size_delete, Hv. simpl.
    assert (size m ≠ 0); [|lia]. intros Hz%map_size_empty_inv. by rewrite Hz in Hv.
  - intros x Hx. rewrite lookup_delete_ne by (intros ->; done). apply Hin. by right.
Qed.

Lemma indexConsistent_new : indexConsistent newBus.
Proof.
  split; simpl.
  - intros s sid. rewrite lookup_empty. simpl. rewrite elem_of_nil. split; [done|].
    intros (sub & Hsub & _). by rewrite lookup_empty in Hsub.
  - intros s ids. by rewrite lookup_empty.
  - unfold totalSubscribers. simpl. by rewrite map_size_empty, indexTotal_empty.
Qed.

Lemma subscribe_consistent bus pattern s handler options uuid :
  indexConsistent bus → m_subscriptions bus !! uuid = None →
  indexConsistent (subscribe bus pattern s handler options uuid).1.
Proof.
  intros [Hown Hlists Htotal] Hfresh. unfold subscribe.
  destruct handler as [h|]; [|done]. simpl.
  set (old := default [] (m_subscriberIndex bus !! s)).
  assert (uuid ∉ old) as Hnotin.
  { intros Hin. apply Hown in Hin as (sub & Hsub & _). congruence. }
  assert (NoDup old) as Hnd.
  { unfold old. destruct (m_subscriberIndex bus !! s) as [ids|] eqn:Hs; simpl.
    - by apply (Hlists s).
    - constructor. }
  split; simpl.
  - intros s' sid. destruct (decide (s' = s)) as [->|Hne].
    + rewrite lookup_insert_eq. simpl. rewrite elem_of_app, list_elem_of_singleton.
      unfold old. rewrite (Hown s sid). split.
      * intros [(sub & Hsub & Hs)| ->].
        -- exists sub. split; [|done]. rewrite lookup_insert_ne; [done|]. congruence.
        -- eexists. split; [apply lookup_insert_eq|done].
      * intros (sub & Hsub & Hs). destruct (decide (sid = uuid)) as [->|Hne']; [by right|].
        left. exists sub. split; [|done]. by rewrite lookup_insert_ne in Hsub.
    + rewrite lookup_insert_ne by done. rewrite (Hown s' sid). split.
      * intros (sub & Hsub & Hs). exists sub. split; [|done].
        rewrite lookup_insert_ne; [done|]. congruence.
      * intros (sub & Hsub & Hs). destruct (decide (sid = uuid)) as [->|Hne'].
        -- rewrite lookup_insert_eq in Hsub. injection Hsub as <-. simpl in Hs. congruence.
        -- exists sub. split; [|done]. by rewrite lookup_insert_ne in Hsub.
  - intros s' ids. destruct (decide (s' = s)) as [->|Hne].
    + rewrite lookup_insert_eq. intros [= <-]. split.
      * intros Hnil. by apply app_eq_nil in Hnil as [_ ?].
      * apply NoDup_app. split_and!; [done| |apply NoDup_singleton].
        intros x Hx ->%list_elem_of_singleton. done.
    + rewrite lookup_insert_ne by done. apply Hlists.
  - unfold totalSubscribers in *. simpl. rewrite map_size_insert_None by done.
    rewrite Htotal, indexTotal_insert, length_app. simpl. subst old.
    destruct (m_subscriberIndex bus !! s) as [ids|] eqn:Hs; simpl.
    + rewrite (indexTotal_delete _ s ids) by done. lia.
    + rewrite delete_id by done. lia.
Qed.

Lemma unsubscribe_consistent bus sid :
  indexConsistent bus → indexConsistent (unsubscribe bus sid).1.
Proof.
  intros [Hown Hlists Htotal]. unfold unsubscribe.
  destruct (m_subscriptions bus !! sid) as [sub|] eqn:Hsub; [|done]. simpl.
  set (s := subscriberId sub).
  assert (sid ∈ default [] (m_subscriberIndex bus !! s)) as Hin.
  { apply Hown. by exists sub. }
  destruct (m_subscriberIndex bus !! s) as [old|] eqn:Hs; simpl in Hin;
    [|by apply elem_of_nil in Hin].
  destruct (Hlists s old Hs) as [_ Hnd].
  assert (∀ s', default [] (dropFromIndex s sid (m_subscriberIndex bus) !! s')
                = if decide (s' = s) then removeAll sid old
                  else default [] (m_subscriberIndex bus !! s')) as Hdrop.
  { intros s'. unfold dropFromIndex. rewrite Hs. simpl.
    destruct (removeAll sid old) as [|r rs] eqn:Hrem.
    - destruct (decide (s' = s)) as [->|Hne].
      + by rewrite lookup_delete_eq.
      + by rewrite lookup_delete_ne.
    - destruct (decide (s' = s)) as [->|Hne].
      + by rewrite lookup_insert_eq.
      + by rewrite lookup_insert_ne. }
  split; simpl.
  - intros s' x. rewrite Hdrop. destruct (decide (s' = s)) as [->|Hne].
    + rewrite elem_of_removeAll. specialize (Hown s x). rewrite Hs in Hown. simpl in Hown.
      rewrite Hown. split.
      * intros [(sub' & Hsub' & Hs') Hx]. exists sub'. by rewrite lookup_delete_ne.
      * intros (sub' & Hsub' & Hs'). destruct (decide (x = sid)) as [->|Hx].
        -- by rewrite lookup_delete_eq in Hsub'.
        -- rewrite lookup_delete_ne in Hsub' by done. eauto.
    + rewrite (Hown s' x). split.
      * intros (sub' & Hsub' & Hs'). exists sub'. split; [|done].
        rewrite lookup_delete_ne; [done|]. intros ->. unfold s in Hne. congruence.
      * intros (sub' & Hsub' & Hs'). destruct (decide (x = sid)) as [->|Hx].
        -- by rewrite lookup_delete_eq in Hsub'.
        -- rewrite lookup_delete_ne in Hsub' by done. eauto.
  - intros s' ids. unfold dropFromIndex. rewrite Hs. simpl.
    destruct (removeAll sid old) as [|r rs] eqn:Hrem.
    + destruct (decide (s' = s)) as [->|Hne].
      * by rewrite lookup_delete_eq.
      * rewrite lookup_delete_ne by done. apply Hlists.
    + destruct (decide (s' = s)) as [->|Hne].
      * rewrite lookup_insert_eq. intros [= <-]. split; [done|].
        rewrite <- Hrem. unfold removeAll. by apply NoDup_filter.
      * rewrite lookup_insert_ne by done. apply Hlists.
  - unfold totalSubscribers in *. simpl.
    rewrite map_size_delete, Hsub. simpl. rewrite Htotal.
    rewrite (indexTotal_delete _ s old) by done.
    pose proof (length_removeAll sid old Hnd Hin) as Hlen.
    unfold dropFromIndex. rewrite Hs. simpl.
    destruct (removeAll sid old) as [|r rs] eqn:Hrem.
    + simpl in Hlen. lia.
    + rewrite indexTotal_insert. lia.
Qed.

Lemma unsubscribeAll_consistent bus s :
  indexConsistent bus → indexConsistent (unsubscribeAll bus s).
Proof.
  intros [Hown Hlists Htotal]. unfold unsubscribeAll.
  set (ids := default [] (m_subscriberIndex bus !! s)).
  split; simpl.
  - intros s' x. rewrite lookup_foldl_delete. destruct (decide (s' = s)) as [->|Hne].
    + rewrite lookup_delete_eq. simpl. rewrite elem_of_nil. split; [done|].
      intros (sub & Hsub & Hs). destruct (decide (x ∈ ids)) as [|Hx]; [done|].
      apply Hx, Hown. eauto.
    + rewrite lookup_delete_ne by done. rewrite (Hown s' x). split.
      * intros (sub & Hsub & Hs). exists sub. split; [|done].
        rewrite decide_False; [done|]. intros (sub' & Hsub' & Hs')%Hown. congruence.
      * intros (sub & Hsub & Hs). destruct (decide (x ∈ ids)); [done|]. eauto.
  - intros s' l. destruct (decide (s' = s)) as [->|Hne].
    + by rewrite lookup_delete_eq.
    + rewrite lookup_delete_ne by done. apply Hlists.
  - unfold totalSubscribers in *. simpl.
    assert (NoDup ids ∧ indexTotal (m_subscriberIndex bus)
              = length ids + indexTotal (delete s (m_subscriberIndex bus))) as [Hnd Hsum].
    { unfold ids. destruct (m_subscriberIndex bus !! s) as [l|] eqn:Hs; simpl.
      - split; [by apply (Hlists s)|by apply indexTotal_delete].
      - split; [constructor|by rewrite delete_id]. }
    pose proof (size_foldl_delete (m_subscriptions bus) ids Hnd) as Hsize.
    rewrite <- Hsize in Htotal.
    + lia.
    + intros x (sub & Hsub & _)%Hown. eauto.
Qed.

(** C10.  Subscribing under a fresh id, unsubscribing and bulk removal
    keep the subscription table and the subscriber index consistent: an
    id is listed under a subscriber exactly when the table holds a
    subscription with that id owned by that subscriber, no subscriber
    maps to an empty list, and [totalSubscribers] is the number of ids
    the index holds; so [subscriptionsFor] returns exactly the ids of
    the live subscriptions of its argument. *)
Theorem index_consistency_preserved bus :
  indexConsistent bus →
  (∀ pattern s handler options uuid,
     m_subscriptions bus !! uuid = None →
     indexConsistent (subscribe bus pattern s handler options uuid).1) ∧
  (∀ sid, indexConsistent (unsubscribe bus sid).1) ∧
  (∀ s, indexConsistent (unsubscribeAll bus s)) ∧
  (∀ s sid,
     sid ∈ subscriptionsFor bus s ↔
     ∃ sub, m_subscriptions bus !! sid = Some sub ∧ subscriberId sub = s) ∧
  (∀ s, subscriptionsFor bus s ≠ [] ↔ is_Some (m_subscriberIndex bus !! s)) ∧
  totalSubscribers bus = indexTotal (m_subscriberIndex bus).
Proof.
  intros Hinv. split_and!.
  - intros. by apply subscribe_consistent.
  - intros. by apply unsubscribe_consistent.
  - intros. by apply unsubscribeAll_consistent.
  - apply Hinv.
  - intros s. unfold subscriptionsFor.
    destruct (m_subscriberIndex bus !! s) as [ids|] eqn:Hs; simpl.
    + split; [eauto|]. intros _. by apply (index_lists _ Hinv s).
    + split; [done|]. by intros [? ?].
  - apply Hinv.
Qed.
End index_consistent.

Section index_examples.
Import EventBus BusExamples.
#[local] Existing Instance keyOrder.
#[local] Existing Instance stableSort.
#[local] Existing Instance TopicPattern.unlimited.
#[local] Existing Instance logPayload.

Lemma index_consistency_new_bus :
  indexConsistent
    (subscribe newBus "orders/*" "plugin-a" (Some (writes "a")) (inlineAt 0)
       "d3b07384-d9a0-4c9b-8f5e-5a1c2b3d4e5f").1.
Proof.
  apply (index_consistency_preserved newBus).
  - apply indexConsistent_new.
  - reflexivity.
Defined.
End index_examples.

(** ** Delivery *)

Section delivery.
Import EventBus.
Context `{QHashOrder} `{StdSort} `{Payload} `{TopicPattern.RegexEngine}.
Implicit Types bus : Bus.

Lemma std_sort_nil {A} (comp : A → A → bool) : std_sort comp [] = [].
Proof. apply Permutation_nil_r, std_sort_perm. Qed.

Lemma deliverEvent_outcome bus event synchronous w :
  (deliverEvent bus event synchronous w).2
  = (deliverLoop event synchronous
       (std_sort byPriority (findMatchingSubscriptions bus (topic event))) 0 [] w).2.
Proof.
  unfold deliverEvent, findMatchingSubscriptions. simpl.
  destruct (filter _ _) as [|sub subs] eqn:Hmatches; simpl; [|done].
  by rewrite std_sort_nil.
Qed.

Lemma deliverEvent_posted bus event synchronous w :
  (deliverEvent bus event synchronous w).1.2
  = (deliverLoop event synchronous
       (std_sort byPriority (findMatchingSubscriptions bus (topic event))) 0 [] w).1.
Proof.
  unfold deliverEvent, findMatchingSubscriptions. simpl.
  destruct (filter _ _) as [|sub subs] eqn:Hmatches; simpl; [|done].
  by rewrite std_sort_nil.
Qed.

(** The matcher kept with a subscription is the expression that
    [matchesTopic] compiles from the same pattern. *)
Lemma subscribe_matcher bus pattern subscriberId handler options uuid topic :
  ∃ sub,
    m_subscriptions (subscribe bus pattern subscriberId (Some handler) options uuid).1 !! uuid
      = Some sub ∧
    TopicPattern.hasMatch (regex sub) topic = TopicPattern.matchesTopic topic pattern.
Proof. eexists. split; [apply lookup_insert_eq|reflexivity]. Qed.

Lemma Sorted_weaken {A} (R R' : relation A) (l : list A) :
  (∀ a b, R a b → R' a b) → Sorted R l → Sorted R' l.
Proof.
  intros Himp Hsorted. induction Hsorted as [|x l Hsorted IH Hhd]; constructor; [done|].
  destruct Hhd; constructor. by apply Himp.
Qed.

Lemma std_sort_byPriority (subs : list Subscription) :
  StronglySorted descending (std_sort byPriority subs).
Proof.
  apply Sorted_StronglySorted.
  { intros a b c. unfold descending. lia. }
  pose proof (std_sort_sorted Subscription byPriority (λ sub, priority (options sub)) subs)
    as Hsorted.
  eapply Sorted_weaken; [|apply Hsorted; done].
  intros a b. unfold byPriority, descending. rewrite bool_decide_eq_false. lia.
Qed.

Lemma notifiedOf_cons event sub subs :
  notifiedOf event (sub :: subs)
  = if skipped event sub then notifiedOf event subs else sub :: notifiedOf event subs.
Proof.
  unfold notifiedOf. rewrite filter_cons.
  destruct (skipped event sub); [by rewrite decide_False|by rewrite decide_True].
Qed.

Lemma inlineOf_cons synchronous sub (subs : list Subscription) :
  inlineOf synchronous (sub :: subs)
  = if queuedFor synchronous sub then inlineOf synchronous subs
    else sub :: inlineOf synchronous subs.
Proof.
  unfold inlineOf. rewrite filter_cons.
  destruct (queuedFor synchronous sub); [by rewrite decide_False|by rewrite decide_True].
Qed.

Lemma queuedOf_cons synchronous sub (subs : list Subscription) :
  queuedOf synchronous (sub :: subs)
  = if queuedFor synchronous sub then sub :: queuedOf synchronous subs
    else queuedOf synchronous subs.
Proof.
  unfold queuedOf. rewrite filter_cons.
  destruct (queuedFor synchronous sub); [by rewrite decide_True|by rewrite decide_False].
Qed.

(** The loop, read off the matches it does not pass over: the handlers
    called inline are called one after the other, and the calls posted
    are those of the asynchronous subscriptions it gets to. *)
Lemma deliverLoop_run event synchronous subs notified queue w :
  deliverLoop event synchronous subs notified queue w
  = (queue ++ (taskFor event
                 <$> queuedOf synchronous
                       (reachedOf event synchronous (notifiedOf event subs) w)),
     match runHandlers event (inlineOf synchronous (notifiedOf event subs)) w with
     | Returned _ w' =>
         Returned (notified + Z.of_nat (length (notifiedOf event subs)))%Z w'
     | Raised e w' => Raised e w'
     end).
Proof.
  revert notified queue w.
  induction subs as [|sub subs IH]; intros notified queue w; simpl.
  { rewrite app_nil_r. do 2 f_equal. lia. }
  rewrite notifiedOf_cons. destruct (skipped event sub); [apply IH|].
  rewrite inlineOf_cons. cbn [reachedOf].
  change (async (options sub) && negb synchronous) with (queuedFor synchronous sub).
  destruct (queuedFor synchronous sub) eqn:Hq.
  - rewrite queuedOf_cons, Hq, IH, <- app_assoc. simpl. f_equal.
    destruct (runHandlers _ _ _); [|done]. f_equal. lia.
  - simpl. destruct (handler sub event w) as [[] w'|e w'].
    + rewrite queuedOf_cons, Hq, IH. f_equal.
      destruct (runHandlers _ _ _); [|done]. f_equal. lia.
    + rewrite queuedOf_cons, Hq. simpl. by rewrite app_nil_r.
Qed.

Lemma reachedOf_prefix event synchronous (subs : list Subscription) w :
  reachedOf event synchronous subs w `prefix_of` subs.
Proof.
  revert w. induction subs as [|sub subs IH]; intros w; simpl; [done|].
  destruct (queuedFor synchronous sub); [by apply prefix_cons|].
  destruct (handler sub event w) as [[] w'|e w']; [by apply prefix_cons|].
  by exists subs.
Qed.

Lemma reachedOf_returned event synchronous (subs : list Subscription) w u w' :
  runHandlers event (inlineOf synchronous subs) w = Returned u w' →
  reachedOf event synchronous subs w = subs.
Proof.
  revert w. induction subs as [|sub subs IH]; intros w; simpl; [done|].
  rewrite inlineOf_cons. destruct (queuedFor synchronous sub).
  - intros Hrun. f_equal. by eapply IH.
  - simpl. destruct (handler sub event w) as [[] w1|e w1]; [|done].
    intros Hrun. f_equal. by eapply IH.
Qed.

Lemma reachedOf_raised event synchronous (subs : list Subscription) w e w' :
  runHandlers event (inlineOf synchronous subs) w = Raised e w' →
  ∃ sub w0, last (reachedOf event synchronous subs w) = Some sub ∧
            queuedFor synchronous sub = false ∧ handler sub event w0 = Raised e w'.
Proof.
  revert w. induction subs as [|sub subs IH]; intros w; simpl; [done|].
  rewrite inlineOf_cons. destruct (queuedFor synchronous sub) eqn:Hq.
  - intros (sub' & w0 & Hlast & Hrest)%IH. exists sub', w0. split; [|done].
    rewrite last_cons. by rewrite Hlast.
  - simpl. destruct (handler sub event w) as [[] w1|e1 w1] eqn:Hcall.
    + intros (sub' & w0 & Hlast & Hrest)%IH. exists sub', w0. split; [|done].
      rewrite last_cons. by rewrite Hlast.
    + intros [= -> ->]. exists sub, w. done.
Qed.

Lemma runHandlers_reached event synchronous (subs : list Subscription) w :
  runHandlers event (inlineOf synchronous (reachedOf event synchronous subs w)) w
  = runHandlers event (inlineOf synchronous subs) w.
Proof.
  revert w. induction subs as [|sub subs IH]; intros w; simpl; [done|].
  destruct (queuedFor synchronous sub) eqn:Hq.
  - by rewrite !inlineOf_cons, Hq.
  - destruct (handler sub event w) as [[] w1|e1 w1] eqn:Hcall.
    + rewrite !inlineOf_cons, Hq. simpl. by rewrite Hcall.
    + rewrite !inlineOf_cons, Hq. simpl. by rewrite Hcall.
Qed.

Lemma inlineOf_synchronous subs : inlineOf true subs = subs.
Proof.
  unfold inlineOf, queuedFor. induction subs as [|sub subs IH]; [done|].
  rewrite filter_cons, andb_false_r, decide_True by done. by f_equal.
Qed.

Lemma queuedOf_synchronous subs : queuedOf true subs = [].
Proof.
  unfold queuedOf, queuedFor. induction subs as [|sub subs IH]; [done|].
  rewrite filter_cons, andb_false_r, decide_False by done. done.
Qed.

Lemma notifiedOf_perm event subs subs' :
  subs ≡ₚ subs' → notifiedOf event subs ≡ₚ notifiedOf event subs'.
Proof. intros Hp. unfold notifiedOf. by rewrite Hp. Qed.

Lemma runHandlers_returning event subs w :
  (∀ sub w0, sub ∈ subs → ∃ w1, handler sub event w0 = Returned () w1) →
  ∃ w', runHandlers event subs w = Returned () w'.
Proof.
  revert w. induction subs as [|sub subs IH]; intros w Hret; simpl; [eauto|].
  destruct (Hret sub w) as [w1 ->]; [left|]. apply IH.
  intros sub' w0 Hin. apply Hret. by right.
Qed.


(** What [publishSync] does.  A match is passed over exactly when it
    does not receive its own events and its subscriber is the sender;
    the handlers of the other matches are called inline, in the sorted
    order, and no call is posted.  When all of them return, the result is
    the number of matches not passed over.  A handler that raises ends
    the delivery: the exception leaves [publishSync], which then returns
    no count. *)
Lemma publishSync_notified bus topic data sender now w :
  let event := {| topic := topic; senderId := sender; data := data; timestamp := now |} in
  let matches := findMatchingSubscriptions bus topic in
  (∀ sub, skipped event sub = true ↔
          receiveOwnEvents (options sub) = false ∧ subscriberId sub = sender) ∧
  (publishSync bus topic data sender now w).1.2 = [] ∧
  (publishSync bus topic data sender now w).2
  = match runHandlers event (notifiedOf event (std_sort byPriority matches)) w with
    | Returned _ w' => Returned (Z.of_nat (length (notifiedOf event matches))) w'
    | Raised e w' => Raised e w'
    end ∧
  ((∀ sub w0, sub ∈ notifiedOf event matches → ∃ w1, handler sub event w0 = Returned () w1) →
   ∃ w', (publishSync bus topic data sender now w).2
         = Returned (Z.of_nat (length (notifiedOf event matches))) w').
Proof.
  intros event matches.
  assert ((publishSync bus topic data sender now w).2
          = match runHandlers event (notifiedOf event (std_sort byPriority matches)) w with
            | Returned _ w' => Returned (Z.of_nat (length (notifiedOf event matches))) w'
            | Raised e w' => Raised e w'
            end) as Hcall.
  { unfold publishSync. fold event. rewrite deliverEvent_outcome, deliverLoop_run.
    rewrite inlineOf_synchronous. simpl.
    assert (length (notifiedOf event (std_sort byPriority (findMatchingSubscriptions bus topic)))
            = length (notifiedOf event matches)) as ->; [|done].
    apply Permutation_length, notifiedOf_perm, std_sort_perm. }
  split_and!; [| |done|].
  - intros sub. unfold skipped. simpl.
    rewrite andb_true_iff, negb_true_iff, bool_decide_eq_true. done.
  - unfold publishSync. rewrite deliverEvent_posted, deliverLoop_run.
    by rewrite queuedOf_synchronous.
  - intros Hret. rewrite Hcall.
    destruct (runHandlers_returning event (notifiedOf event (std_sort byPriority matches)) w)
      as [w' ->]; [|eauto].
    assert (notifiedOf event (std_sort byPriority matches) ≡ₚ notifiedOf event matches)
      as Hp by apply notifiedOf_perm, std_sort_perm.
    intros sub w0 Hin. apply Hret. by rewrite <- Hp.
Qed.
End delivery.

Section delivery_examples.
Import EventBus BusExamples.
#[local] Existing Instance keyOrder.
#[local] Existing Instance stableSort.
#[local] Existing Instance TopicPattern.unlimited.
#[local] Existing Instance logPayload.

(** Two subscriptions of equal priority, "first" made before "second":
    with the table iterated by key, the handler of "second" is called
    first. *)
Lemma second_subscriber_called_first :
  (publishSync firstThenSecond "test" [] "sender" 0 []).2
  = Returned 2%Z ["second"; "first"].
Proof. vm_compute. reflexivity. Qed.

(** A higher priority subscribed later is called first
    ([testPriority]). *)
Lemma high_priority_called_first :
  (publishSync lowThenHigh "test" [] "sender" 0 []).2 = Returned 2%Z ["high"; "low"].
Proof. vm_compute. reflexivity. Qed.

(** A call posted before a handler throws stays posted: [publish]
    leaves by the exception of the inline handler, and the call of the
    asynchronous subscription of higher priority is in the queue. *)
Lemma posted_call_survives_raise :
  (publish queuedThenThrows "test" [] "sender" 0 []).2 = Raised (std_exception "boom") [] ∧
  (publish queuedThenThrows "test" [] "sender" 0 []).1.2
  = [{| task_handler := writes "later";
        task_event := {| topic := "test"; senderId := "sender"; data := [];
                         timestamp := 0 |} |}].
Proof. split; vm_compute; reflexivity. Qed.

End delivery_examples.

Section raising.
Import EventBus BusExamples.
#[local] Existing Instance logPayload.
Context `{QHashOrder} `{StdSort} `{TopicPattern.RegexEngine}.

Lemma hasMatch_test : TopicPattern.hasMatch (TopicPattern.compilePattern "test") "test" = true.
Proof. eapply TopicPattern.hasMatch_longest; reflexivity. Qed.

Lemma throwsFirst_matches :
  findMatchingSubscriptions throwsFirst "test" ≡ₚ [brokenSubscription; fineSubscription].
Proof.
  unfold findMatchingSubscriptions, qhash_values.
  rewrite (qhash_iter_perm _ (m_subscriptions throwsFirst)).
  assert ((map_to_list (m_subscriptions throwsFirst)).*2
          = [fineSubscription; brokenSubscription]) as -> by (vm_compute; reflexivity).
  rewrite !filter_cons, filter_nil. cbn [regex fineSubscription brokenSubscription].
  rewrite !decide_True by apply hasMatch_test.
  apply Permutation_swap.
Qed.

Lemma throwsFirst_sorted :
  std_sort byPriority (findMatchingSubscriptions throwsFirst "test")
  = [brokenSubscription; fineSubscription].
Proof.
  pose proof (std_sort_byPriority (findMatchingSubscriptions throwsFirst "test")) as Hsorted.
  pose proof (std_sort_perm _ byPriority (findMatchingSubscriptions throwsFirst "test")) as Hperm.
  pose proof (transitivity Hperm throwsFirst_matches) as Hboth. clear Hperm.
  symmetry in Hboth. rename Hboth into Hperm.
  apply Permutation_length_2_inv in Hperm as [->| Hswap]; [done|].
  rewrite Hswap in Hsorted. apply StronglySorted_inv in Hsorted as [_ Hfirst].
  apply Forall_cons in Hfirst as [Hle _]. unfold descending in Hle. simpl in Hle. lia.
Qed.

(** C5.  The code at a failing input: of two matching subscriptions
    that are not passed over, the one of higher priority has a handler
    that raises.  Whatever the iteration order of the table and the
    sorting function, [publishSync] returns no count, the exception
    reaches the caller, and the handler of the other subscription is
    not called (the world is unchanged). *)
Lemma raising_handler_ends_delivery :
  length (notifiedOf {| topic := "test"; senderId := "sender"; data := [];
                        timestamp := 0 |}
            (findMatchingSubscriptions throwsFirst "test")) = 2 ∧
  (publishSync throwsFirst "test" [] "sender" 0 []).2 = Raised (std_exception "boom") [].
Proof.
  split.
  - erewrite Permutation_length; [|apply notifiedOf_perm, throwsFirst_matches]. reflexivity.
  - unfold publishSync. rewrite deliverEvent_outcome. simpl topic.
    rewrite throwsFirst_sorted. reflexivity.
Qed.
End raising.

(** ** Request and response *)

Section requests.
Import EventBus.
Context `{QHashOrder} `{StdSort} `{Payload} `{TopicPattern.RegexEngine}.
Implicit Types bus : Bus.

Lemma request_answerOf bus topic data sender timeoutMs now w entry :
  m_requestHandlers bus !! topic = Some entry →
  request bus topic data sender timeoutMs now w
  = answerOf (entry_handler entry)
      {| topic := topic; senderId := sender; data := data; timestamp := now |} w.
Proof.
  intros Hentry. unfold request, answerOf. rewrite Hentry. unfold tryCatch.
  destruct (entry_handler entry _ w) as [response w'|[what|] w']; done.
Qed.

(** C6.  A request on a topic without handler gives no value; a request
    whose handler raises gives no value as well, on the world the
    handler left; and [request] itself never raises. *)
Theorem request_contains_failures bus topic data sender timeoutMs now w :
  let event := {| topic := topic; senderId := sender; data := data; timestamp := now |} in
  (m_requestHandlers bus !! topic = None →
     request bus topic data sender timeoutMs now w = Returned None w) ∧
  (∀ entry e w',
     m_requestHandlers bus !! topic = Some entry →
     entry_handler entry event w = Raised e w' →
     request bus topic data sender timeoutMs now w = Returned None w') ∧
  (∀ entry response w',
     m_requestHandlers bus !! topic = Some entry →
     entry_handler entry event w = Returned response w' →
     request bus topic data sender timeoutMs now w = Returned (Some response) w') ∧
  (∀ e w', request bus topic data sender timeoutMs now w ≠ Raised e w').
Proof.
  intros event. split_and!.
  - intros Hnone. unfold request. by rewrite Hnone.
  - intros entry e w' Hentry Hraise.
    rewrite (request_answerOf _ _ _ _ _ _ _ entry) by done.
    unfold answerOf. fold event. by rewrite Hraise.
  - intros entry response w' Hentry Hret.
    rewrite (request_answerOf _ _ _ _ _ _ _ entry) by done.
    unfold answerOf. fold event. by rewrite Hret.
  - intros e w'. destruct (m_requestHandlers bus !! topic) as [entry|] eqn:Hentry.
    + rewrite (request_answerOf _ _ _ _ _ _ _ entry) by done. unfold answerOf.
      by destruct (entry_handler entry _ w).
    + unfold request. by rewrite Hentry.
Qed.

(** C7.  A topic has at most one handler: registering on a topic that
    has one returns false and changes nothing, and so does registering
    with an empty topic or a null handler; after a first registration
    a second one on the same topic fails and a request on the topic is
    answered by the first handler. *)
Theorem registerHandler_first_wins bus topic handlerId handler :
  (is_Some (m_requestHandlers bus !! topic) →
     registerHandler bus topic handlerId handler = (bus, false)) ∧
  (topic = "" ∨ handler = None →
     registerHandler bus topic handlerId handler = (bus, false)) ∧
  (∀ first bus1 handlerId2 handler2,
     handler = Some first →
     registerHandler bus topic handlerId handler = (bus1, true) →
     registerHandler bus1 topic handlerId2 handler2 = (bus1, false) ∧
     ∀ data sender timeoutMs now w,
       request bus1 topic data sender timeoutMs now w
       = answerOf first
           {| topic := topic; senderId := sender; data := data; timestamp := now |} w).
Proof.
  split_and!.
  - intros [entry Hentry]. unfold registerHandler.
    destruct handler; [|done]. destruct (isEmpty topic); [done|]. by rewrite Hentry.
  - intros [-> | ->]; unfold registerHandler; [|done]. by destruct handler.
  - intros first bus1 handlerId2 handler2 -> Hreg. unfold registerHandler in Hreg.
    destruct (isEmpty topic) eqn:Hempty; [done|].
    destruct (m_requestHandlers bus !! topic) eqn:Hfree; [done|].
    injection Hreg as <-.
    split.
    + unfold registerHandler. destruct handler2; [|done]. rewrite Hempty. simpl.
      by rewrite lookup_insert_eq.
    + intros data sender timeoutMs now w.
      erewrite request_answerOf; [|simpl; apply lookup_insert_eq]. done.
Qed.
End requests.

(** ** Tables and owner indexes *)

Section owned.
Import EventBus.
Context {V : Type} (owner : V → string).
Implicit Types (table : gmap string V) (index : gmap string (list string)).

Lemma ownedBy_empty : ownedBy owner ∅ ∅.
Proof.
  split.
  - intros o k. rewrite lookup_empty. simpl. rewrite elem_of_nil. split; [done|].
    intros (v & Hv & _). by rewrite lookup_empty in Hv.
  - intros o ks. by rewrite lookup_empty.
Qed.

Lemma ownedBy_no_keys table index o :
  ownedBy owner table index → default [] (index !! o) = [] → index !! o = None.
Proof.
  intros [_ Hlists] Hnil. destruct (index !! o) as [ks|] eqn:Ho; [|done].
  simpl in Hnil. by destruct (Hlists o ks Ho).
Qed.

Lemma ownedBy_NoDup table index o :
  ownedBy owner table index → NoDup (default [] (index !! o)).
Proof.
  intros [_ Hlists]. destruct (index !! o) as [ks|] eqn:Ho; simpl.
  - by apply (Hlists o).
  - constructor.
Qed.

Lemma ownedBy_insert table index k v :
  ownedBy owner table index → table !! k = None →
  ownedBy owner (<[k := v]> table)
    (<[owner v := default [] (index !! owner v) ++ [k]]> index).
Proof.
  intros Hinv Hfresh. pose proof (ownedBy_NoDup _ _ (owner v) Hinv) as Hnd.
  destruct Hinv as [Hown Hlists].
  set (old := default [] (index !! owner v)) in *.
  assert (k ∉ old) as Hnotin.
  { intros Hin. apply Hown in Hin as (v' & Hv' & _). congruence. }
  split.
  - intros o x. destruct (decide (o = owner v)) as [->|Hne].
    + rewrite lookup_insert_eq. simpl. rewrite elem_of_app, list_elem_of_singleton.
      unfold old. rewrite (Hown (owner v) x). split.
      * intros [(v' & Hv' & Ho)| ->].
        -- exists v'. split; [|done]. rewrite lookup_insert_ne; [done|]. congruence.
        -- eexists. split; [apply lookup_insert_eq|done].
      * intros (v' & Hv' & Ho). destruct (decide (x = k)) as [->|Hx]; [by right|].
        left. exists v'. split; [|done]. by rewrite lookup_insert_ne in Hv'.
    + rewrite lookup_insert_ne by done. rewrite (Hown o x). split.
      * intros (v' & Hv' & Ho). exists v'. split; [|done].
        rewrite lookup_insert_ne; [done|]. congruence.
      * intros (v' & Hv' & Ho). destruct (decide (x = k)) as [->|Hx].
        -- rewrite lookup_insert_eq in Hv'. injection Hv' as <-. congruence.
        -- exists v'. split; [|done]. by rewrite lookup_insert_ne in Hv'.
  - intros o ks. destruct (decide (o = owner v)) as [->|Hne].
    + rewrite lookup_insert_eq. intros [= <-]. split.
      * intros Hnil. by apply app_eq_nil in Hnil as [_ ?].
      * apply NoDup_app. split_and!; [done| |apply NoDup_singleton].
        intros x Hx ->%list_elem_of_singleton. done.
    + rewrite lookup_insert_ne by done. apply Hlists.
Qed.

Lemma lookup_dropFromIndex index o k o' :
  default [] (dropFromIndex o k index !! o')
  = if decide (o' = o) then removeAll k (default [] (index !! o))
    else default [] (index !! o').
Proof.
  unfold dropFromIndex. destruct (removeAll k (default [] (index !! o))) as [|r rs] eqn:Hrem.
  - destruct (decide (o' = o)) as [->|Hne].
    + by rewrite lookup_delete_eq.
    + by rewrite lookup_delete_ne.
  - destruct (decide (o' = o)) as [->|Hne].
    + by rewrite lookup_insert_eq.
    + by rewrite lookup_insert_ne.
Qed.

Lemma ownedBy_drop table index k v :
  ownedBy owner table index → table !! k = Some v →
  ownedBy owner (delete k table) (dropFromIndex (owner v) k index).
Proof.
  intros Hinv Hv. pose proof (ownedBy_NoDup _ _ (owner v) Hinv) as Hnd.
  destruct Hinv as [Hown Hlists]. split.
  - intros o x. rewrite lookup_dropFromIndex. destruct (decide (o = owner v)) as [->|Hne].
    + rewrite elem_of_removeAll, (Hown (owner v) x). split.
      * intros [(v' & Hv' & Ho) Hx]. exists v'. by rewrite lookup_delete_ne.
      * intros (v' & Hv' & Ho). destruct (decide (x = k)) as [->|Hx].
        -- by rewrite lookup_delete_eq in Hv'.
        -- rewrite lookup_delete_ne in Hv' by done. eauto.
    + rewrite (Hown o x). split.
      * intros (v' & Hv' & Ho). exists v'. split; [|done].
        rewrite lookup_delete_ne; [done|]. intros ->. congruence.
      * intros (v' & Hv' & Ho). destruct (decide (x = k)) as [->|Hx].
        -- by rewrite lookup_delete_eq in Hv'.
        -- rewrite lookup_delete_ne in Hv' by done. eauto.
  - intros o ks. unfold dropFromIndex.
    destruct (removeAll k (default [] (index !! owner v))) as [|r rs] eqn:Hrem.
    + destruct (decide (o = owner v)) as [->|Hne].
      * by rewrite lookup_delete_eq.
      * rewrite lookup_delete_ne by done. apply Hlists.
    + destruct (decide (o = owner v)) as [->|Hne].
      * rewrite lookup_insert_eq. intros [= <-]. split; [done|].
        rewrite <- Hrem. unfold removeAll. by apply NoDup_filter.
      * rewrite lookup_insert_ne by done. apply Hlists.
Qed.

(** Bulk removal leaves exactly the entries of the other owners. *)
Lemma dropAll_filter table index o :
  ownedBy owner table index →
  foldl (λ t k, delete k t) table (default [] (index !! o))
  = filter (λ entry, owner entry.2 ≠ o) table.
Proof.
  intros [Hown _]. apply map_eq. intros k. rewrite lookup_foldl_delete.
  destruct (table !! k) as [v|] eqn:Hv.
  - destruct (decide (k ∈ default [] (index !! o))) as [Hin|Hout]; symmetry.
    + apply map_lookup_filter_None. right. intros v' Hv' Hne. simpl in Hne.
      apply Hown in Hin as (v'' & Hv'' & Ho). congruence.
    + apply map_lookup_filter_Some. split; [done|]. simpl.
      intros Ho. apply Hout, Hown. eauto.
  - destruct (decide _); symmetry; apply map_lookup_filter_None; by left.
Qed.

Lemma ownedBy_dropAll table index o :
  ownedBy owner table index →
  ownedBy owner (foldl (λ t k, delete k t) table (default [] (index !! o))) (delete o index).
Proof.
  intros Hinv. rewrite (dropAll_filter _ _ _ Hinv). destruct Hinv as [Hown Hlists]. split.
  - intros o' x. destruct (decide (o' = o)) as [->|Hne].
    + rewrite lookup_delete_eq. simpl. rewrite elem_of_nil. split; [done|].
      intros (v & [Hv Hkeep]%map_lookup_filter_Some & Ho). done.
    + rewrite lookup_delete_ne by done. rewrite (Hown o' x). split.
      * intros (v & Hv & Ho). exists v. split; [|done].
        apply map_lookup_filter_Some. split; [done|]. simpl. congruence.
      * intros (v & [Hv _]%map_lookup_filter_Some & Ho). eauto.
  - intros o' ks. destruct (decide (o' = o)) as [->|Hne].
    + by rewrite lookup_delete_eq.
    + rewrite lookup_delete_ne by done. apply Hlists.
Qed.

(** Entering a key under its owner and dropping it again gives the
    index back. *)
Lemma dropFromIndex_insert table index k v :
  ownedBy owner table index → table !! k = None →
  dropFromIndex (owner v) k (<[owner v := default [] (index !! owner v) ++ [k]]> index)
  = index.
Proof.
  intros Hinv Hfresh. unfold dropFromIndex. rewrite lookup_insert_eq. simpl.
  assert (k ∉ default [] (index !! owner v)) as Hnotin.
  { intros Hin. apply Hinv in Hin as (v' & Hv' & _). congruence. }
  assert (removeAll k (default [] (index !! owner v) ++ [k]) = default [] (index !! owner v))
    as ->.
  { unfold removeAll. rewrite filter_app, filter_cons, decide_False, filter_nil, app_nil_r
      by (intros Hne; by apply Hne).
    by apply removeAll_absent. }
  destruct (index !! owner v) as [ks|] eqn:Ho; simpl.
  - destruct ks as [|x ks]; [by destruct (owned_lists _ _ _ Hinv _ _ Ho)|].
    rewrite insert_insert_eq. by apply insert_id.
  - rewrite delete_insert_eq. by apply delete_id.
Qed.
End owned.

(** ** The request handlers and their index *)

Section handler_index.
Import EventBus.
Context `{QHashOrder} `{StdSort} `{Payload} `{TopicPattern.RegexEngine}.
Implicit Types bus : Bus.

Lemma handlersConsistent_new : handlersConsistent newBus.
Proof. apply ownedBy_empty. Qed.

Lemma registerHandler_consistent bus topic h handler :
  handlersConsistent bus → handlersConsistent (registerHandler bus topic h handler).1.
Proof.
  intros Hinv. unfold registerHandler.
  destruct handler as [f|]; [|done]. destruct (isEmpty topic); [done|].
  destruct (m_requestHandlers bus !! topic) as [entry|] eqn:Hentry; [done|].
  by apply (ownedBy_insert handlerId _ _ topic
              {| entry_topic := topic; handlerId := h; entry_handler := f |}).
Qed.

(** X1.  Registering, unregistering and bulk unregistering keep the
    handler table and the handler index consistent: a topic is listed
    under a handler id exactly when the table holds the handler of the
    topic under that id, each topic once, and no handler id maps to an
    empty list; so a topic has a handler exactly when some handler id
    lists it. *)
Theorem handler_index_preserved bus :
  handlersConsistent bus →
  (∀ topic h handler, handlersConsistent (registerHandler bus topic h handler).1) ∧
  (∀ topic, handlersConsistent (unregisterHandler bus topic).1) ∧
  (∀ h, handlersConsistent (unregisterAllHandlers bus h)) ∧
  (∀ topic, hasHandler bus topic = true ↔
            ∃ h, topic ∈ default [] (m_handlerIndex bus !! h)).
Proof.
  intros Hinv. split_and!.
  - intros topic h handler. by apply registerHandler_consistent.
  - intros topic. unfold unregisterHandler.
    destruct (m_requestHandlers bus !! topic) as [entry|] eqn:Hentry; [|done].
    by apply (ownedBy_drop handlerId).
  - intros h. by apply (ownedBy_dropAll handlerId).
  - intros topic. unfold hasHandler. rewrite bool_decide_eq_true. split.
    + intros [entry Hentry]. exists (handlerId entry). apply Hinv. eauto.
    + intros [h (entry & Hentry & _)%Hinv]. eauto.
Qed.

(** X2.  [unregisterAllHandlers] removes exactly the handlers
    registered under the given id: the handlers of the other ids stay
    as they are and answer requests as before. *)
Theorem unregisterAllHandlers_exact bus h :
  handlersConsistent bus →
  m_requestHandlers (unregisterAllHandlers bus h)
    = filter (λ entry, handlerId entry.2 ≠ h) (m_requestHandlers bus) ∧
  (∀ topic, hasHandler (unregisterAllHandlers bus h) topic = true ↔
            ∃ entry, m_requestHandlers bus !! topic = Some entry ∧ handlerId entry ≠ h) ∧
  (∀ topic entry data sender timeoutMs now w,
     m_requestHandlers bus !! topic = Some entry → handlerId entry ≠ h →
     request (unregisterAllHandlers bus h) topic data sender timeoutMs now w
     = request bus topic data sender timeoutMs now w).
Proof.
  intros Hinv.
  assert (m_requestHandlers (unregisterAllHandlers bus h)
          = filter (λ entry, handlerId entry.2 ≠ h) (m_requestHandlers bus)) as Htable
    by apply (dropAll_filter handlerId _ _ _ Hinv).
  split_and!; [done| |].
  - intros topic. unfold hasHandler. rewrite bool_decide_eq_true, Htable. split.
    + intros [entry [Hentry Hkeep]%map_lookup_filter_Some]. eauto.
    + intros (entry & Hentry & Hkeep). exists entry. by apply map_lookup_filter_Some.
  - intros topic entry data sender timeoutMs now w Hentry Hkeep.
    unfold request. rewrite Htable, Hentry.
    by rewrite (map_lookup_filter_Some_2 _ _ topic entry).
Qed.

(** X3.  Registering a handler on a free topic and unregistering the
    topic gives the bus back as it was. *)
Theorem register_unregister bus topic h handler :
  handlersConsistent bus → topic ≠ "" → m_requestHandlers bus !! topic = None →
  unregisterHandler (registerHandler bus topic h (Some handler)).1 topic = (bus, true).
Proof.
  intros Hinv Htopic Hfree. unfold registerHandler.
  unfold isEmpty. rewrite bool_decide_eq_false_2, Hfree by done.
  unfold unregisterHandler. simpl. rewrite lookup_insert_eq. simpl.
  rewrite delete_insert_eq, delete_id by done.
  rewrite (dropFromIndex_insert handlerId (m_requestHandlers bus) _ topic
             {| entry_topic := topic; handlerId := h; entry_handler := handler |})
    by done.
  by destruct bus.
Qed.
End handler_index.

Section handler_examples.
Import EventBus BusExamples.
#[local] Existing Instance keyOrder.
#[local] Existing Instance stableSort.
#[local] Existing Instance TopicPattern.unlimited.
#[local] Existing Instance logPayload.

Lemma handler_index_after_register :
  handlersConsistent
    (registerHandler newBus "orders/getAll" "plugin-a" (Some (answers []))).1.
Proof.
  destruct (handler_index_preserved newBus handlersConsistent_new) as (Hregister & _).
  apply Hregister.
Defined.

Lemma unregisterAllHandlers_example :
  hasHandler
    (unregisterAllHandlers
       (registerHandler newBus "orders/getAll" "plugin-a" (Some (answers []))).1
       "plugin-a") "orders/getAll" = true ↔
  ∃ entry,
    m_requestHandlers (registerHandler newBus "orders/getAll" "plugin-a"
                         (Some (answers []))).1 !! "orders/getAll" = Some entry ∧
    handlerId entry ≠ "plugin-a".
Proof.
  destruct (unregisterAllHandlers_exact
              (registerHandler newBus "orders/getAll" "plugin-a" (Some (answers []))).1
              "plugin-a") as (_ & Hhas & _).
  - apply registerHandler_consistent, handlersConsistent_new.
  - apply Hhas.
Defined.

Lemma register_unregister_new_bus :
  unregisterHandler
    (registerHandler newBus "orders/getAll" "plugin-a" (Some (answers []))).1
    "orders/getAll" = (newBus, true).
Proof.
  apply (register_unregister newBus "orders/getAll" "plugin-a" (answers [])).
  - apply handlersConsistent_new.
  - done.
  - reflexivity.
Defined.
End handler_examples.

(** ** The subscriptions and their index, once more *)

Section subscriber_index.
Import EventBus.
Context `{QHashOrder} `{StdSort} `{Payload} `{TopicPattern.RegexEngine}.
Implicit Types bus : Bus.

Lemma indexConsistent_ownedBy bus :
  indexConsistent bus → ownedBy subscriberId (m_subscriptions bus) (m_subscriberIndex bus).
Proof. intros [Hown Hlists _]. by split. Qed.

(** X4.  [unsubscribeAll] removes exactly the subscriptions of the
    given subscriber: its list becomes empty, the table loses as many
    entries as the list held, the subscriptions of the others stay, and
    a later delivery reaches the former matches but those of the
    subscriber. *)
Theorem unsubscribeAll_exact bus s :
  indexConsistent bus →
  m_subscriptions (unsubscribeAll bus s)
    = filter (λ entry, subscriberId entry.2 ≠ s) (m_subscriptions bus) ∧
  subscriptionsFor (unsubscribeAll bus s) s = [] ∧
  (∀ s', s' ≠ s → subscriptionsFor (unsubscribeAll bus s) s' = subscriptionsFor bus s') ∧
  totalSubscribers (unsubscribeAll bus s) + length (subscriptionsFor bus s)
    = totalSubscribers bus ∧
  (∀ topic sub,
     sub ∈ findMatchingSubscriptions (unsubscribeAll bus s) topic ↔
     sub ∈ findMatchingSubscriptions bus topic ∧ subscriberId sub ≠ s).
Proof.
  intros Hinv. pose proof (indexConsistent_ownedBy bus Hinv) as Howned.
  assert (m_subscriptions (unsubscribeAll bus s)
          = filter (λ entry, subscriberId entry.2 ≠ s) (m_subscriptions bus)) as Htable
    by apply (dropAll_filter subscriberId _ _ _ Howned).
  split_and!; [done| | | |].
  - unfold subscriptionsFor, unsubscribeAll. simpl. by rewrite lookup_delete_eq.
  - intros s' Hne. unfold subscriptionsFor, unsubscribeAll. simpl.
    by rewrite lookup_delete_ne.
  - unfold totalSubscribers, subscriptionsFor, unsubscribeAll. simpl.
    apply size_foldl_delete; [by apply (ownedBy_NoDup subscriberId _ _ _ Howned)|].
    intros x (sub & Hsub & _)%Howned. eauto.
  - intros topic sub. unfold findMatchingSubscriptions.
    rewrite !list_elem_of_filter, !elem_of_qhash_values, Htable. split.
    + intros [Hmatch [k [Hk Hkeep]%map_lookup_filter_Some]]. eauto.
    + intros [[Hmatch [k Hk]] Hkeep]. split; [done|]. exists k.
      by apply map_lookup_filter_Some.
Qed.

(** X5.  Subscribing under a fresh id and unsubscribing that id gives
    the bus back as it was. *)
Theorem subscribe_unsubscribe bus pattern s handler options uuid :
  indexConsistent bus → m_subscriptions bus !! uuid = None →
  unsubscribe (subscribe bus pattern s (Some handler) options uuid).1 uuid = (bus, true).
Proof.
  intros Hinv Hfresh. pose proof (indexConsistent_ownedBy bus Hinv) as Howned.
  unfold subscribe, unsubscribe. simpl. rewrite lookup_insert_eq. simpl.
  rewrite delete_insert_eq, delete_id by done.
  rewrite (dropFromIndex_insert subscriberId (m_subscriptions bus) _ uuid
             {| sub_id := uuid; pattern := pattern; subscriberId := s; options := options;
                regex := TopicPattern.compilePattern pattern; handler := handler |})
    by done.
  by destruct bus.
Qed.
End subscriber_index.

Section subscriber_examples.
Import EventBus BusExamples.
#[local] Existing Instance keyOrder.
#[local] Existing Instance stableSort.
#[local] Existing Instance TopicPattern.unlimited.
#[local] Existing Instance logPayload.

Lemma unsubscribeAll_first :
  subscriptionsFor (unsubscribeAll firstThenSecond "first") "first" = [].
Proof.
  destruct (unsubscribeAll_exact firstThenSecond "first") as (_ & Hnone & _).
  - unfold firstThenSecond.
    apply subscribe_consistent; [apply subscribe_consistent|]; [|done..].
    apply indexConsistent_new.
  - apply Hnone.
Defined.

Lemma subscribe_unsubscribe_new_bus :
  unsubscribe (subscribe newBus "orders/*" "plugin-a" (Some (writes "a")) (inlineAt 0)
                 firstId).1 firstId
  = (newBus, true).
Proof.
  apply (subscribe_unsubscribe newBus "orders/*" "plugin-a" (writes "a") (inlineAt 0) firstId).
  - apply indexConsistent_new.
  - reflexivity.
Defined.
End subscriber_examples.

(** ** Matchers, counts and statistics *)

Section queries.
Import EventBus.
Context `{QHashOrder} `{StdSort} `{Payload} `{TopicPattern.RegexEngine}.
Implicit Types bus : Bus.

Lemma deliverEvent_bus bus event synchronous w :
  (deliverEvent bus event synchronous w).1.1
  = {| m_subscriptions := m_subscriptions bus;
       m_subscriberIndex := m_subscriberIndex bus;
       m_topicStats := recordEvent event (m_topicStats bus);
       m_requestHandlers := m_requestHandlers bus;
       m_handlerIndex := m_handlerIndex bus |}.
Proof. unfold deliverEvent. by destruct (findMatchingSubscriptions _ _). Qed.

Lemma filter_agree {A} (P Q : A → Prop) `{∀ x, Decision (P x)} `{∀ x, Decision (Q x)}
    (l : list A) :
  (∀ x, x ∈ l → P x ↔ Q x) → filter P l = filter Q l.
Proof.
  induction l as [|x l IH]; intros Hagree; [done|]. rewrite !filter_cons.
  rewrite IH by (intros y Hy; apply Hagree; by right).
  destruct (decide (P x)) as [HP|HP].
  - rewrite decide_True; [done|]. apply Hagree; [by left|done].
  - rewrite decide_False; [done|]. intros HQ. apply HP, Hagree; [by left|done].
Qed.

Lemma countMatching_length topic (subs : list Subscription) :
  countMatching topic subs
  = Z.of_nat (length (filter (λ sub, TopicPattern.hasMatch (regex sub) topic = true) subs)).
Proof.
  unfold countMatching.
  assert (∀ n, foldl (λ count sub,
                        if TopicPattern.hasMatch (regex sub) topic then (count + 1)%Z
                        else count) n subs
               = (n + Z.of_nat (length (filter (λ sub, TopicPattern.hasMatch (regex sub) topic
                                                       = true) subs)))%Z) as Hfold.
  { induction subs as [|sub subs IH]; intros n; simpl; [lia|].
    rewrite IH, filter_cons. destruct (TopicPattern.hasMatch (regex sub) topic).
    - rewrite decide_True by done. simpl. lia.
    - by rewrite decide_False. }
  by rewrite Hfold.
Qed.

(** X6.  Every subscription made by [subscribe] carries the expression
    compiled from its pattern, and no operation of the bus changes
    that; so a delivery, [subscriberCount] and [topicStats] take
    exactly the stored subscriptions whose pattern [matchesTopic]
    accepts for the topic. *)
Theorem matchers_compiled bus :
  compiledMatchers bus →
  (∀ pattern s handler options uuid,
     compiledMatchers (subscribe bus pattern s handler options uuid).1) ∧
  (∀ sid, compiledMatchers (unsubscribe bus sid).1) ∧
  (∀ s, compiledMatchers (unsubscribeAll bus s)) ∧
  (∀ event synchronous w, compiledMatchers (deliverEvent bus event synchronous w).1.1) ∧
  (∀ topic sub,
     sub ∈ findMatchingSubscriptions bus topic ↔
     (∃ sid, m_subscriptions bus !! sid = Some sub) ∧
     TopicPattern.matchesTopic topic (pattern sub) = true) ∧
  (∀ topic,
     subscriberCount bus topic
     = length (filter (λ sub, TopicPattern.matchesTopic topic (pattern sub) = true)
                 (qhash_values (m_subscriptions bus))) ∧
     ts_subscriberCount (topicStats bus topic) = Z.of_nat (subscriberCount bus topic)).
Proof.
  intros Hinv.
  assert (∀ topic,
            filter (λ sub, TopicPattern.hasMatch (regex sub) topic = true)
              (qhash_values (m_subscriptions bus))
            = filter (λ sub, TopicPattern.matchesTopic topic (pattern sub) = true)
                (qhash_values (m_subscriptions bus))) as Hsame.
  { intros topic. apply filter_agree. intros sub [sid Hsub]%elem_of_qhash_values.
    unfold TopicPattern.matchesTopic. by rewrite (Hinv sid sub Hsub). }
  split_and!.
  - intros pattern s handler options uuid. unfold subscribe.
    destruct handler as [h|]; [|done]. simpl. by apply map_Forall_insert_2.
  - intros sid. unfold unsubscribe.
    destruct (m_subscriptions bus !! sid) as [sub|]; [|done]. simpl.
    by apply map_Forall_delete.
  - intros s sid sub. unfold unsubscribeAll. simpl. rewrite lookup_foldl_delete.
    destruct (decide _); [done|]. apply Hinv.
  - intros event synchronous w. by rewrite deliverEvent_bus.
  - intros topic sub. unfold findMatchingSubscriptions.
    rewrite Hsame, list_elem_of_filter, elem_of_qhash_values. tauto.
  - intros topic. unfold subscriberCount, findMatchingSubscriptions. rewrite Hsame.
    split; [done|]. unfold topicStats.
    assert (countMatching topic (qhash_values (m_subscriptions bus))
            = Z.of_nat (length (filter (λ sub, TopicPattern.matchesTopic topic (pattern sub)
                                               = true)
                                  (qhash_values (m_subscriptions bus))))) as Hcount
      by (by rewrite countMatching_length, Hsame).
    by destruct (m_topicStats bus !! topic).
Qed.

Lemma length_skipped event (subs : list Subscription) :
  length (notifiedOf event subs) + length (filter (λ sub, skipped event sub = true) subs)
  = length subs.
Proof.
  unfold notifiedOf. induction subs as [|sub subs IH]; [done|].
  rewrite !filter_cons. destruct (skipped event sub).
  - rewrite decide_False, decide_True by done. simpl. lia.
  - rewrite decide_True, decide_False by done. simpl. lia.
Qed.

Lemma runHandlers_raised event (subs : list Subscription) w e w' :
  runHandlers event subs w = Raised e w' →
  ∃ sub w0, sub ∈ subs ∧ handler sub event w0 = Raised e w'.
Proof.
  revert w. induction subs as [|sub subs IH]; intros w; simpl; [done|].
  destruct (handler sub event w) as [[] w1|e1 w1] eqn:Hcall.
  - intros (sub' & w0 & Hin & Hraised)%IH. exists sub', w0. split; [by right|done].
  - intros [= -> ->]. exists sub, w. split; [by left|done].
Qed.

(** X7.  A delivery that returns has notified every match but those it
    passes over as the sender's own: the count returned and the number
    passed over add up to [subscriberCount], in both modes, and it has
    posted one call for each asynchronous match among them.  A
    synchronous delivery posts nothing, whether it returns or raises.
    A delivery raises only what the handler of a match it calls inline
    has raised, and has then posted no more calls than there are
    asynchronous matches. *)
Theorem deliverEvent_count bus event synchronous w :
  let matches := findMatchingSubscriptions bus (topic event) in
  let queue := (deliverEvent bus event synchronous w).1.2 in
  match (deliverEvent bus event synchronous w).2 with
  | Returned notified _ =>
      (notified + Z.of_nat (length (filter (λ sub, skipped event sub = true) matches)))%Z
        = Z.of_nat (subscriberCount bus (topic event)) ∧
      length queue = length (queuedOf synchronous (notifiedOf event matches)) ∧
      (synchronous = true → queue = [])
  | Raised e w' =>
      (∃ sub w0, sub ∈ matches ∧ skipped event sub = false ∧
                 queuedFor synchronous sub = false ∧ handler sub event w0 = Raised e w') ∧
      length queue ≤ length (queuedOf synchronous (notifiedOf event matches)) ∧
      (synchronous = true → queue = [])
  end.
Proof.
  intros matches queue. unfold queue. clear queue.
  rewrite deliverEvent_outcome, deliverEvent_posted, deliverLoop_run. fold matches.
  set (ordered := std_sort byPriority matches).
  assert (ordered ≡ₚ matches) as Hperm by apply std_sort_perm.
  cbn [fst snd app].
  assert (length (queuedOf synchronous (notifiedOf event ordered))
          = length (queuedOf synchronous (notifiedOf event matches))) as Hlen.
  { apply Permutation_length. unfold queuedOf.
    by rewrite (notifiedOf_perm event _ _ Hperm). }
  assert (synchronous = true →
          taskFor event
            <$> queuedOf synchronous
                  (reachedOf event synchronous (notifiedOf event ordered) w) = []) as Hsync.
  { intros ->. by rewrite queuedOf_synchronous. }
  destruct (runHandlers event (inlineOf synchronous (notifiedOf event ordered)) w)
    as [[] w'|e w'] eqn:Hrun.
  - split_and!; [| |done].
    + unfold subscriberCount. fold matches. rewrite <- (length_skipped event matches).
      rewrite (Permutation_length (notifiedOf_perm event _ _ Hperm)). lia.
    + rewrite length_fmap, (reachedOf_returned _ _ _ _ _ _ Hrun). done.
  - split_and!; [| |done].
    + apply runHandlers_raised in Hrun as (sub & w0 & Hin & Hraised).
      exists sub, w0. unfold inlineOf, notifiedOf in Hin.
      apply list_elem_of_filter in Hin as [Hinline Hin].
      apply list_elem_of_filter in Hin as [Hown Hin]. rewrite Hperm in Hin. done.
    + rewrite length_fmap, <- Hlen.
      destruct (reachedOf_prefix event synchronous (notifiedOf event ordered) w) as [k Hk].
      rewrite Hk at 2. unfold queuedOf. rewrite filter_app, length_app. lia.
Qed.

Lemma topicStats_recordEvent bus event t :
  let bus' := {| m_subscriptions := m_subscriptions bus;
                 m_subscriberIndex := m_subscriberIndex bus;
                 m_topicStats := recordEvent event (m_topicStats bus);
                 m_requestHandlers := m_requestHandlers bus;
                 m_handlerIndex := m_handlerIndex bus |} in
  topicStats bus' t
  = if decide (topic event = t)
    then {| ts_topic := t;
            ts_subscriberCount := ts_subscriberCount (topicStats bus t);
            ts_eventCount := (ts_eventCount (topicStats bus t) + 1)%Z;
            ts_lastEventTime := timestamp event |}
    else topicStats bus t.
Proof.
  intros bus'. unfold topicStats, bus', recordEvent. simpl.
  destruct (decide (topic event = t)) as [<-|Hne].
  - rewrite lookup_insert_eq. by destruct (m_topicStats bus !! topic event).
  - by rewrite lookup_insert_ne.
Qed.

Lemma afterDeliveries_subscriptions bus runs :
  m_subscriptions (afterDeliveries bus runs) = m_subscriptions bus.
Proof.
  revert bus. induction runs as [|run runs IH]; intros bus; [done|].
  unfold afterDeliveries in *. cbn [foldl]. by rewrite IH, deliverEvent_bus.
Qed.

Lemma lastTime_cons latest event (events : list Event) :
  lastTime latest (event :: events) = lastTime (timestamp event) events.
Proof.
  unfold lastTime. rewrite last_cons. by destruct (last events).
Qed.

(** X8.  Every delivery is recorded once in the statistics of its
    topic, whether or not a subscription matches and whether or not a
    handler raises: after a series of deliveries the event count of a
    topic has grown by the number of events on it and its last event
    time is that of the last of them.  The subscriptions, the handlers
    and their indexes are as before. *)
Theorem topicStats_after_deliveries bus runs t :
  let bus' := afterDeliveries bus runs in
  ts_eventCount (topicStats bus' t)
    = (ts_eventCount (topicStats bus t) + Z.of_nat (length (eventsOn t runs)))%Z ∧
  ts_lastEventTime (topicStats bus' t)
    = lastTime (ts_lastEventTime (topicStats bus t)) (eventsOn t runs) ∧
  ts_subscriberCount (topicStats bus' t) = ts_subscriberCount (topicStats bus t) ∧
  m_subscriptions bus' = m_subscriptions bus ∧
  m_subscriberIndex bus' = m_subscriberIndex bus ∧
  m_requestHandlers bus' = m_requestHandlers bus ∧
  m_handlerIndex bus' = m_handlerIndex bus.
Proof.
  revert bus. induction runs as [|[[event synchronous] w] runs IH]; intros bus.
  { simpl. split_and!; try done. lia. }
  specialize (IH (deliverEvent bus event synchronous w).1.1).
  unfold afterDeliveries in *. cbn [foldl fst snd].
  destruct IH as (-> & -> & -> & -> & -> & -> & ->).
  assert (eventsOn t ((event, synchronous, w) :: runs)
          = if decide (topic event = t) then event :: eventsOn t runs
            else eventsOn t runs) as ->.
  { unfold eventsOn. cbn [fmap list_fmap fst]. rewrite filter_cons. by destruct (decide _). }
  rewrite deliverEvent_bus, topicStats_recordEvent. cbn [m_subscriptions m_subscriberIndex
    m_requestHandlers m_handlerIndex].
  destruct (decide (topic event = t)) as [Ht|Ht].
  - rewrite lastTime_cons. cbn [ts_eventCount ts_lastEventTime ts_subscriberCount length].
    split_and!; try done. lia.
  - done.
Qed.

Lemma lookup_patterns (subs : list Subscription) (patterns : gmap string ()) p :
  is_Some (foldl (λ (patterns : gmap string ()) sub, <[pattern sub := ()]> patterns)
             patterns subs !! p) ↔
  is_Some (patterns !! p) ∨ ∃ sub, sub ∈ subs ∧ pattern sub = p.
Proof.
  revert patterns. induction subs as [|sub subs IH]; intros patterns; simpl.
  { split; [by left|]. intros [?|(sub & Hin & _)]; [done|]. by apply elem_of_nil in Hin. }
  rewrite IH, lookup_insert_is_Some. split.
  - intros [[Hp|[_ Hp]]|(sub' & Hin & Hp)].
    + right. exists sub. split; [by left|done].
    + by left.
    + right. exists sub'. split; [by right|done].
  - intros [Hp|(sub' & [->|Hin]%elem_of_cons & Hp)].
    + destruct (decide (pattern sub = p)); [left; by left|]. left. by right.
    + left. by left.
    + right. eauto.
Qed.

(** X9.  [activeTopics] lists the patterns of the stored subscriptions,
    each once however many subscriptions share it; a topic that events
    were published on is not listed unless it is such a pattern. *)
Theorem activeTopics_patterns bus :
  NoDup (activeTopics bus) ∧
  (∀ p, p ∈ activeTopics bus ↔
        ∃ sid sub, m_subscriptions bus !! sid = Some sub ∧ pattern sub = p) ∧
  (∀ runs, activeTopics (afterDeliveries bus runs) = activeTopics bus).
Proof.
  split_and!.
  - apply NoDup_qhash_keys.
  - intros p. unfold activeTopics. rewrite elem_of_qhash_keys, lookup_patterns, lookup_empty.
    split.
    + intros [[? [=]]|(sub & [sid Hsub]%elem_of_qhash_values & Hp)]. eauto.
    + intros (sid & sub & Hsub & Hp). right. exists sub. split; [|done].
      apply elem_of_qhash_values. eauto.
  - intros runs. unfold activeTopics. by rewrite afterDeliveries_subscriptions.
Qed.
Lemma qhash_values_insert {V} (m : gmap string V) k v :
  m !! k = None → qhash_values (<[k := v]> m) ≡ₚ v :: qhash_values m.
Proof.
  intros Hfresh. unfold qhash_values. rewrite !qhash_iter_perm.
  by rewrite map_to_list_insert.
Qed.

(** X27.  A subscription made under a fresh id counts once, and only
    for the topics its pattern matches: [subscriberCount] of a topic
    grows by one when [matchesTopic] accepts the topic for the pattern
    and stays as it is otherwise, and [totalSubscribers] grows by
    one. *)
Theorem subscribe_counts bus pattern s handler options uuid topic :
  m_subscriptions bus !! uuid = None →
  subscriberCount (subscribe bus pattern s (Some handler) options uuid).1 topic
    = subscriberCount bus topic
      + (if TopicPattern.matchesTopic topic pattern then 1 else 0) ∧
  totalSubscribers (subscribe bus pattern s (Some handler) options uuid).1
    = S (totalSubscribers bus).
Proof.
  intros Hfresh. split.
  - unfold subscriberCount, findMatchingSubscriptions, subscribe. simpl.
    rewrite (Permutation_length
               (filter_Permutation _ _ _ (qhash_values_insert _ uuid _ Hfresh))).
    rewrite filter_cons. simpl. unfold TopicPattern.matchesTopic.
    destruct (TopicPattern.hasMatch (TopicPattern.compilePattern pattern) topic).
    + rewrite decide_True by done. simpl. lia.
    + rewrite decide_False by done. lia.
  - unfold totalSubscribers, subscribe. simpl. by rewrite map_size_insert_None.
Qed.

Lemma inlineOf_all_async (subs : list Subscription) :
  (∀ sub, sub ∈ subs → async (options sub) = true) →
  inlineOf false subs = [] ∧ queuedOf false subs = subs.
Proof.
  intros Hasync. unfold inlineOf, queuedOf, queuedFor. split.
  - induction subs as [|sub subs IH]; [done|]. rewrite filter_cons.
    case_decide as Hinline.
    + rewrite (Hasync sub) in Hinline by left. done.
    + apply IH. intros sub' Hin. apply Hasync. by right.
  - induction subs as [|sub subs IH]; [done|]. rewrite filter_cons.
    case_decide as Hqueued.
    + f_equal. apply IH. intros sub' Hin. apply Hasync. by right.
    + rewrite (Hasync sub) in Hqueued by left. done.
Qed.

(** X28.  When every match that [publish] does not pass over is
    asynchronous, [publish] calls no handler: it returns on the world
    it was given, it cannot raise, and what it posts is one call for
    each of these matches, each with the event as published. *)
Theorem publish_async_only bus topic data sender now w :
  let event := {| topic := topic; senderId := sender; data := data; timestamp := now |} in
  (∀ sub, sub ∈ findMatchingSubscriptions bus topic → skipped event sub = false →
          async (options sub) = true) →
  ∃ queue,
    (publish bus topic data sender now w).1.2 = queue ∧
    (publish bus topic data sender now w).2 = Returned (Z.of_nat (length queue)) w ∧
    Forall (λ task, task_event task = event) queue ∧
    task_handler <$> queue ≡ₚ handler <$> notifiedOf event (findMatchingSubscriptions bus topic).
Proof.
  intros event Hasync. unfold publish. fold event.
  rewrite deliverEvent_outcome, deliverEvent_posted, deliverLoop_run.
  change (EventBus.topic event) with topic.
  set (ordered := std_sort byPriority (findMatchingSubscriptions bus topic)).
  assert (ordered ≡ₚ findMatchingSubscriptions bus topic) as Hperm by apply std_sort_perm.
  destruct (inlineOf_all_async (notifiedOf event ordered)) as [Hinline Hqueued].
  { intros sub [Hown Hin]%list_elem_of_filter. rewrite Hperm in Hin. by apply Hasync. }
  rewrite Hinline. cbn [runHandlers fst snd app].
  rewrite (reachedOf_returned event false (notifiedOf event ordered) w () w)
    by (by rewrite Hinline).
  rewrite Hqueued. exists (taskFor event <$> notifiedOf event ordered). split_and!.
  - done.
  - by rewrite length_fmap.
  - apply Forall_fmap, Forall_true. done.
  - rewrite <- list_fmap_compose. by rewrite (notifiedOf_perm event _ _ Hperm).
Qed.
End queries.

Section queries_examples.
Import EventBus BusExamples.
#[local] Existing Instance keyOrder.
#[local] Existing Instance stableSort.
#[local] Existing Instance TopicPattern.unlimited.
#[local] Existing Instance logPayload.

Lemma matchers_compiled_new_bus :
  compiledMatchers
    (subscribe newBus "orders/*" "plugin-a" (Some (writes "a")) (inlineAt 0) firstId).1.
Proof.
  destruct (matchers_compiled newBus) as (Hsubscribe & _).
  - apply map_Forall_empty.
  - apply Hsubscribe.
Defined.
Lemma subscribe_counts_new_bus :
  subscriberCount
    (subscribe newBus "orders/*" "plugin-a" (Some (writes "a")) (inlineAt 0) firstId).1
    "orders/created"
  = subscriberCount newBus "orders/created"
    + (if TopicPattern.matchesTopic "orders/created" "orders/*" then 1 else 0).
Proof.
  destruct (subscribe_counts newBus "orders/*" "plugin-a" (writes "a") (inlineAt 0) firstId
              "orders/created") as [Hcount _].
  - reflexivity.
  - exact Hcount.
Defined.

Lemma publish_async_only_example :
  ∃ queue,
    (publish
       (subscribe newBus "test" "listener" (Some (throws "boom"))
          {| priority := 0; async := true; receiveOwnEvents := false |} firstId).1
       "test" [] "sender" 0 []).1.2 = queue ∧
    (publish
       (subscribe newBus "test" "listener" (Some (throws "boom"))
          {| priority := 0; async := true; receiveOwnEvents := false |} firstId).1
       "test" [] "sender" 0 []).2
    = Returned (Z.of_nat (length queue)) [] ∧
    Forall (λ task, task_event task
                    = {| topic := "test"; senderId := "sender"; data := [];
                         timestamp := 0 |}) queue ∧
    task_handler <$> queue
    ≡ₚ handler <$> notifiedOf {| topic := "test"; senderId := "sender"; data := [];
                                 timestamp := 0 |}
                     (findMatchingSubscriptions
                        (subscribe newBus "test" "listener" (Some (throws "boom"))
                           {| priority := 0; async := true; receiveOwnEvents := false |}
                           firstId).1 "test").
Proof.
  apply (publish_async_only
           (subscribe newBus "test" "listener" (Some (throws "boom"))
              {| priority := 0; async := true; receiveOwnEvents := false |} firstId).1
           "test" [] "sender" 0 []).
  intros sub Hin _. vm_compute in Hin.
  apply list_elem_of_singleton in Hin. by subst sub.
Defined.
End queries_examples.

(** ** Requests from QML *)

Section qml_requests.
Import EventBus QmlRequests.
Context `{QHashOrder} `{StdSort} `{TopicPattern.RegexEngine}.
Context {QVariant Host : Type} (fromBool : bool → QVariant) (fromString : string → QVariant).

#[local] Abbreviation QmlBus := (@Bus (@variantPayload QVariant Host)).

Lemma request_returns (bus : QmlBus) topic data sender timeoutMs now (w : Host) :
  ∃ answer w', request bus topic data sender timeoutMs now w = Returned answer w'.
Proof.
  destruct (m_requestHandlers bus !! topic) as [entry|] eqn:Hentry.
  - rewrite (request_answerOf _ _ _ _ _ _ _ entry) by done. unfold answerOf.
    destruct (entry_handler entry _ w); eauto.
  - unfold request. rewrite Hentry. eauto.
Qed.

(** X10.  [requestFromQml] never raises and its result always has the
    entry [__success]: true exactly when [request] gave a value, and
    then the other entries are those of the response (an entry
    [__success] of the response itself is overwritten); false
    otherwise, and then the result is the same two entries whether the
    topic has no handler or the handler failed. *)
Theorem requestFromQml_result (bus : QmlBus) topic data sender timeoutMs now (w : Host) :
  ∃ answer result w',
    request bus topic data sender timeoutMs now w = Returned answer w' ∧
    requestFromQml fromBool fromString bus topic data sender timeoutMs now w
      = Returned result w' ∧
    result !! "__success" = Some (fromBool (bool_decide (is_Some answer))) ∧
    match answer with
    | Some response => ∀ key, key ≠ "__success" → result !! key = response !! key
    | None =>
        result = {[ "__success" := fromBool false;
                    "__error" := fromString "No handler or handler failed" ]}
    end.
Proof.
  destruct (request_returns bus topic data sender timeoutMs now w) as (answer & w' & Hrequest).
  unfold requestFromQml. rewrite Hrequest. destruct answer as [response|].
  - eexists _, _, _. split_and!; [done|done| |].
    + exact (lookup_insert_eq _ _ _).
    + intros key Hkey. apply (lookup_insert_ne (M := gmap string)). congruence.
  - eexists _, _, _. split_and!; [done|done| |done].
    exact (lookup_insert_eq _ _ _).
Qed.
End qml_requests.

(** ** The manager, further *)

Section precedes_more.
Context {A : Type}.
Implicit Types l : list A.

Lemma precedes_split (a b : A) l :
  precedes a b l ↔ ∃ l1 l2 l3, l = l1 ++ a :: l2 ++ b :: l3.
Proof.
  split.
  - intros (i & j & Hi & Hj & Hlt).
    exists (take i l), (take (j - S i) (drop (S i) l)), (drop (S (j - S i)) (drop (S i) l)).
    rewrite <- (take_drop_middle l i a Hi) at 1. do 2 f_equal.
    apply symmetry, take_drop_middle. rewrite lookup_drop. rewrite <- Hj. f_equal. lia.
  - intros (l1 & l2 & l3 & ->). exists (length l1), (length l1 + S (length l2)).
    split_and!.
    + by apply list_lookup_middle.
    + rewrite lookup_app_r by lia. replace (length l1 + S (length l2) - length l1)
        with (S (length l2)) by lia. simpl. by apply list_lookup_middle.
    + lia.
Qed.

Lemma precedes_reverse (a b : A) l : precedes a b l → precedes b a (reverse l).
Proof.
  rewrite !precedes_split. intros (l1 & l2 & l3 & ->).
  exists (reverse l3), (reverse l2), (reverse l1).
  rewrite reverse_app, reverse_cons, reverse_app, reverse_cons.
  by rewrite <- !app_assoc.
Qed.

End precedes_more.

Lemma precedes_omap {A B} (f : A → option B) (a b : A) x y (l : list A) :
  f a = Some x → f b = Some y → precedes a b l → precedes x y (omap f l).
Proof.
  intros Ha Hb. rewrite !precedes_split. intros (l1 & l2 & l3 & ->).
  exists (omap f l1), (omap f l2), (omap f l3).
  rewrite omap_app. simpl. rewrite Ha, omap_app. simpl. by rewrite Hb.
Qed.

Section manager_more.
Import PluginManager.
Context `{QHashOrder} `{QVersionNumber} `{Loadable}.
Implicit Types mgr : Manager.

Lemma service_unprovided mgr service :
  wellDiscovered mgr →
  (m_serviceProviderMap mgr !! service = None ↔
   ¬ ∃ k loader, m_pluginMap mgr !! k = Some loader ∧ service ∈ provides (metadata loader)).
Proof.
  intros [_ Hprov Hclaimed]. split.
  - intros Hnone (k & loader & Hk & Hin).
    destruct (Hclaimed k loader service Hk Hin) as [p Hp]. congruence.
  - intros Hno. destruct (m_serviceProviderMap mgr !! service) as [p|] eqn:Hp; [|done].
    destruct Hno. destruct (Hprov service p Hp) as (loader & Hl & Hin). eauto.
Qed.

(** X16.  In a manager whose tables discovery has filled, the
    dependency check reports [service:<id>] exactly when the record
    has a mandatory requirement on that service and no discovered
    plugin lists the service in its [provides]. *)
Theorem unmet_service_iff_unprovided mgr meta service :
  wellDiscovered mgr → providersNamed mgr →
  ("service:" +:+ service ∈ checkDependencies mgr meta ↔
   (∃ dep, dep ∈ requires meta ∧ dep_type dep = Service ∧ dep_id dep = service ∧
           optional dep = false) ∧
   ¬ ∃ k loader, m_pluginMap mgr !! k = Some loader ∧ service ∈ provides (metadata loader)).
Proof.
  intros Hinv Hnamed. unfold checkDependencies.
  rewrite foldl_checkDependency by done. rewrite app_nil_l, list_elem_of_omap.
  rewrite <- (service_unprovided mgr service Hinv). split.
  - intros (dep & [Hmandatory Hdep]%list_elem_of_filter & Hdescr).
    unfold unresolvedDescriptor in Hdescr. destruct (dep_type dep) eqn:Htype.
    + destruct (m_pluginMap mgr !! dep_id dep) as [found|].
      * destruct (version_lt _ _); [|done]. by injection Hdescr.
      * by injection Hdescr.
    + destruct (m_serviceProviderMap mgr !! dep_id dep) eqn:Hp; [done|].
      injection Hdescr as Hid. change (dep_id dep = service) in Hid. subst service.
      split; [|done]. exists dep. done.
  - intros [(dep & Hdep & Htype & <- & Hmandatory) Hnone]. exists dep. split.
    + by apply list_elem_of_filter.
    + unfold unresolvedDescriptor. by rewrite Htype, Hnone.
Qed.

(** X17.  [stopAll] and [unloadAll] go through the plugins in the
    reverse of the load order, so a plugin of the order comes before
    every plugin it depends on: the dependents are stopped and
    unloaded first. *)
Theorem teardown_dependents_first mgr b d :
  b ∈ computeLoadOrder mgr → dependsOn mgr b d → precedes b d (teardownOrder mgr).
Proof.
  intros Hb Hdep. apply precedes_reverse.
  by apply (computeLoadOrder_spec mgr).
Qed.

Lemma checkDependency_relaxService mgr wanted unsatisfied dep :
  checkDependency mgr unsatisfied (relaxService wanted dep)
  = checkDependency mgr unsatisfied dep.
Proof.
  unfold relaxService. destruct (dep_type dep) eqn:Htype; [done|].
  unfold checkDependency. simpl. by rewrite Htype.
Qed.

(** X18.  The minimal version of a requirement on a service is never
    looked at: whatever versions the service requirements of a record
    ask for, [checkDependencies] reports the same. *)
Theorem service_versions_ignored mgr wanted meta :
  checkDependencies mgr (relaxServices wanted meta) = checkDependencies mgr meta.
Proof.
  unfold checkDependencies, relaxServices. simpl. generalize (@nil string).
  induction (requires meta) as [|dep deps IH]; intros unsatisfied; [done|].
  simpl. by rewrite checkDependency_relaxService, IH.
Qed.

(** X19.  The sweep of [loadAll] does not look at how the load of a
    dependency went: a plugin of the load order whose dependencies are
    discovered in sufficient versions and whose own [load()] succeeds
    is reported loaded after the error of a plugin it depends on. *)
Theorem load_after_failed_dependency mgr k d loader message :
  k ∈ computeLoadOrder mgr → dependsOn mgr k d →
  loadOutcome mgr d = Some (pluginError d message) →
  m_pluginMap mgr !! k = Some loader →
  checkDependencies mgr (metadata loader) = [] → (load loader).1 = true →
  precedes (pluginError d message) (pluginLoaded k) (loadAll mgr).1.2.
Proof.
  intros Hk Hdep Hd Hloader Hdeps Hload.
  destruct (loadAll_inv mgr) as (-> & _).
  apply (precedes_omap (loadOutcome mgr) d k); [done| |].
  - unfold loadOutcome. by rewrite Hloader, Hdeps, Hload.
  - by apply (computeLoadOrder_spec mgr).
Qed.

(** X20.  Loading changes no answer of the dependency check: after
    [loadAll], [checkDependencies] reports for every record what it
    reported before, and the provider of every service is the same. *)
Theorem checkDependencies_after_loadAll mgr meta :
  checkDependencies (loadAll mgr).2 meta = checkDependencies mgr meta ∧
  ∀ service, resolveServiceProvider (loadAll mgr).2 service
             = resolveServiceProvider mgr service.
Proof.
  destruct (loadAll_inv mgr) as (_ & _ & Hprov & Hmap). split.
  - apply checkDependencies_during; [done|]. intros k. rewrite Hmap.
    apply loaderDuring_metadata.
  - intros service. unfold resolveServiceProvider. by rewrite Hprov.
Qed.
(** X29.  When the resolver issues no warning and [loadAll] returns
    true, every discovered plugin has been reported loaded. *)
Theorem loadAll_complete mgr :
  cycleWarnings mgr = [] → (loadAll mgr).1.1 = true →
  ∀ k, is_Some (m_pluginMap mgr !! k) → pluginLoaded k ∈ (loadAll mgr).1.2.
Proof.
  intros Hnone Hall k Hk.
  destruct (loadAll_inv mgr) as (Hsignals & Hflag & _).
  rewrite Hflag in Hall. rewrite Hsignals in Hall |- *.
  destruct (loadOutcome_discovered mgr k Hk) as [signal Hsignal].
  assert (k ∈ computeLoadOrder mgr) as Hin.
  { apply (computeLoadOrder_spec mgr). split; [done|]. intros (c & _ & Hc).
    apply (acyclic_no_warnings mgr) in Hnone. by destruct (Hnone c). }
  assert (signal ∈ omap (loadOutcome mgr) (computeLoadOrder mgr)) as Hemitted
    by (apply list_elem_of_omap; eauto).
  rewrite forallb_forall in Hall. rewrite <- (loadOutcome_names mgr k signal); [done..|].
  apply Hall. by apply list_elem_of_In.
Qed.
End manager_more.

Section manager_more_examples.
Import PluginManager ManagerExamples DiscoveryExamples.
#[local] Existing Instance keyOrder.
#[local] Existing Instance natVersion.
#[local] Existing Instance flagLibrary.

Lemma wellDiscovered_noPlugins : wellDiscovered noPlugins.
Proof.
  split; simpl.
  - intros k loader. by rewrite lookup_empty.
  - intros service p. by rewrite lookup_empty.
  - intros k loader service. by rewrite lookup_empty.
Qed.

Lemma discover_pluginsDirectory :
  wellDiscovered (discover named noPlugins (Some pluginsDirectory)).1.1.
Proof.
  apply (discover_wellDiscovered named noPlugins (Some pluginsDirectory)).
  apply wellDiscovered_noPlugins.
Defined.

Lemma wellDiscovered_shop : wellDiscovered shop.
Proof.
  unfold shop, discoverAll. simpl.
  apply accept_wellDiscovered, accept_wellDiscovered, wellDiscovered_noPlugins.
Qed.

Lemma providersNamed_shop : providersNamed shop.
Proof.
  unfold shop, discoverAll. simpl.
  apply accept_providersNamed; [done|]. apply accept_providersNamed; [done|].
  apply map_Forall_empty.
Qed.

Lemma unmet_service_shop :
  "service:BarService" ∈ checkDependencies shop
     (metadata (plugin "com.test.other" [requireService "BarService"] [])) ↔
  (∃ dep, dep ∈ [requireService "BarService"] ∧ dep_type dep = Service ∧
          dep_id dep = "BarService" ∧ optional dep = false) ∧
  ¬ ∃ k loader, m_pluginMap shop !! k = Some loader ∧
                "BarService" ∈ provides (metadata loader).
Proof.
  apply (unmet_service_iff_unprovided shop
           (metadata (plugin "com.test.other" [requireService "BarService"] []))
           "BarService").
  - apply wellDiscovered_shop.
  - apply providersNamed_shop.
Defined.

Lemma teardown_shop :
  precedes "com.test.consumer" "com.test.provider" (teardownOrder shop).
Proof.
  apply (teardown_dependents_first shop "com.test.consumer" "com.test.provider").
  - vm_compute. set_solver.
  - exists consumer, (requireService "FooService").
    split_and!; [by vm_compute|by left|by vm_compute|done|]. vm_compute. eauto.
Defined.

Lemma load_after_failed_dependency_fragile :
  precedes (pluginError "com.test.broken" "Cannot load library")
    (pluginLoaded "com.test.dependent") (loadAll fragile).1.2.
Proof.
  apply (load_after_failed_dependency fragile "com.test.dependent" "com.test.broken"
           dependent "Cannot load library").
  - vm_compute. set_solver.
  - exists dependent, (requirePlugin "com.test.broken").
    split_and!; [by vm_compute|by left|done|done|]. vm_compute. eauto.
  - by vm_compute.
  - by vm_compute.
  - by vm_compute.
  - by vm_compute.
Defined.
Lemma loadAll_complete_shop :
  pluginLoaded "com.test.consumer" ∈ (loadAll shop).1.2.
Proof.
  apply (loadAll_complete shop).
  - by vm_compute.
  - by vm_compute.
  - vm_compute. eauto.
Defined.
End manager_more_examples.

(** ** Routes and the navigation stack *)

Section qstring.
Import NavigationService.
Implicit Types s t : string.

Lemma startsWith_spec prefix s :
  startsWith prefix s = true ↔ ∃ rest, s = prefix +:+ rest.
Proof.
  unfold startsWith. revert s. induction prefix as [|c prefix IH]; intros s; simpl.
  { split; [eauto|done]. }
  destruct s as [|d s]; [split; [done|by intros [? ?]]|].
  rewrite andb_true_iff, IH. split.
  - intros [->%Ascii.eqb_eq [rest ->]]. eauto.
  - intros [rest [= -> ->]]. split; [apply Ascii.eqb_refl|eauto].
Qed.

Lemma endsWith_spec suffix s :
  endsWith suffix s = true ↔ ∃ before, s = before +:+ suffix.
Proof.
  induction s as [|c s IH]; cbn [endsWith].
  - rewrite orb_false_r, String.eqb_eq. split.
    + intros <-. by exists "".
    + intros [before Hs]. destruct before; [done|discriminate].
  - rewrite orb_true_iff, String.eqb_eq, IH. split.
    + intros [<-|[before ->]]; [by exists ""|by exists (String c before)].
    + intros [[|d before] Hs]; [by left|]. injection Hs as <- ->. right. eauto.
Qed.

Lemma length_append s t : String.length (s +:+ t) = String.length s + String.length t.
Proof. induction s as [|c s IH]; [done|]. rewrite append_cons. simpl. by rewrite IH. Qed.

Lemma left_append s t : left (String.length s) (s +:+ t) = s.
Proof. induction s as [|c s IH]; [by destruct t|]. rewrite append_cons. simpl. by rewrite IH. Qed.

Lemma accepts_spec pattern route :
  accepts pattern route = true ↔
  pattern = route ∨ pattern = "*" ∨
  ∃ prefix rest, pattern = prefix +:+ "/*" ∧ route = prefix +:+ rest.
Proof.
  unfold accepts. rewrite !orb_true_iff, andb_true_iff, !String.eqb_eq, endsWith_spec.
  split.
  - intros [[?|?]|[[prefix ->] Hstarts]]; [by left|right; by left|].
    right. right. exists prefix.
    rewrite length_append in Hstarts. simpl in Hstarts.
    replace (String.length prefix + 2 - 2) with (String.length prefix) in Hstarts by lia.
    rewrite left_append in Hstarts. apply startsWith_spec in Hstarts as [rest ->]. eauto.
  - intros [?|[?|(prefix & rest & -> & ->)]]; [left; by left|left; by right|].
    right. split; [eauto|]. rewrite length_append. simpl.
    replace (String.length prefix + 2 - 2) with (String.length prefix) by lia.
    rewrite left_append. apply startsWith_spec. eauto.
Qed.
End qstring.

Section routes.
Import NavigationService.
Context {QVariantMap : Type}.
Implicit Types (nav : Navigation QVariantMap) (routes : list RouteEntry).

Lemma findRoute_cons entry routes route :
  findRoute (entry :: routes) route
  = if accepts (pattern entry) route then Some (component entry) else findRoute routes route.
Proof.
  simpl. unfold accepts.
  destruct (String.eqb (pattern entry) route || String.eqb (pattern entry) "*"); [done|].
  by destruct (_ && _).
Qed.

Lemma findRoute_head routes route :
  findRoute routes route
  = component <$> head (filter (λ entry, accepts (pattern entry) route = true) routes).
Proof.
  induction routes as [|entry routes IH]; [done|].
  rewrite findRoute_cons, filter_cons.
  destruct (accepts (pattern entry) route) eqn:Haccepts.
  - by rewrite decide_True.
  - by rewrite decide_False.
Qed.

Lemma findRoute_app routes more route :
  findRoute (routes ++ more) route
  = match findRoute routes route with
    | Some url => Some url
    | None => findRoute more route
    end.
Proof.
  induction routes as [|entry routes IH]; [done|].
  rewrite <- app_comm_cons, !findRoute_cons. by destruct (accepts (pattern entry) route).
Qed.

(** X21.  A route is resolved by the first entry, in the order of
    registration, whose pattern takes it.  A pattern takes the route
    equal to it; the pattern [*] takes every route; and a pattern
    [p/*] takes every route that begins with [p], the route [p] itself
    and routes in which [p] is followed by something other than a
    slash included. *)
Theorem findRoute_first_accepted routes route :
  findRoute routes route
    = component <$> head (filter (λ entry, accepts (pattern entry) route = true) routes) ∧
  ∀ pattern,
    accepts pattern route = true ↔
    pattern = route ∨ pattern = "*" ∨
    ∃ prefix rest, pattern = prefix +:+ "/*" ∧ route = prefix +:+ rest.
Proof. split; [apply findRoute_head|intros pattern; apply accepts_spec]. Qed.

(** X22.  [registerRoute] never changes how a route that an earlier
    entry takes is resolved: the new entry is asked only when no
    earlier one takes the route, ahead of the fall-back for routes that
    end in [.qml].  Registering a pattern a second time therefore has
    no effect on any route. *)
Theorem registerRoute_never_overrides nav pattern url route :
  resolveComponent (registerRoute nav pattern url) route
    = match findRoute (m_routes nav) route with
      | Some earlier => Some earlier
      | None =>
          if accepts pattern route then Some url
          else if endsWith ".qml" route then Some route else None
      end ∧
  ∀ other,
    resolveComponent (registerRoute (registerRoute nav pattern url) pattern other) route
    = resolveComponent (registerRoute nav pattern url) route.
Proof.
  assert (∀ nav' p u,
            resolveComponent (registerRoute nav' p u) route
            = match findRoute (m_routes nav') route with
              | Some earlier => Some earlier
              | None =>
                  if accepts p route then Some u
                  else if endsWith ".qml" route then Some route else None
              end) as Hregister.
  { intros nav' p u. unfold resolveComponent, registerRoute. simpl.
    rewrite findRoute_app, findRoute_cons. simpl.
    destruct (findRoute (m_routes nav') route); [done|]. by destruct (accepts p route). }
  split; [apply Hregister|]. intros other. rewrite Hregister.
  unfold registerRoute at 1. simpl. rewrite findRoute_app, findRoute_cons. simpl.
  rewrite Hregister. destruct (findRoute (m_routes nav) route); [done|].
  by destruct (accepts pattern route).
Qed.

(** X23.  [resolveComponent] gives no component exactly when no
    registered pattern takes the route and the route does not end in
    [.qml]; a route that ends in [.qml] and that no pattern takes is
    resolved to itself. *)
Theorem resolveComponent_none nav route :
  (resolveComponent nav route = None ↔
   (∀ entry, entry ∈ m_routes nav → accepts (pattern entry) route = false) ∧
   endsWith ".qml" route = false) ∧
  ((∀ entry, entry ∈ m_routes nav → accepts (pattern entry) route = false) →
   endsWith ".qml" route = true → resolveComponent nav route = Some route).
Proof.
  assert (findRoute (m_routes nav) route = None ↔
          ∀ entry, entry ∈ m_routes nav → accepts (pattern entry) route = false) as Hnone.
  { induction (m_routes nav) as [|entry routes IH].
    - split; [|done]. intros _ entry Hin. by apply elem_of_nil in Hin.
    - rewrite findRoute_cons. destruct (accepts (pattern entry) route) eqn:Haccepts.
      + split; [done|]. intros Hall. specialize (Hall entry). rewrite Haccepts in Hall.
        discriminate Hall. by left.
      + rewrite IH. split.
        * intros Hall e [->|Hin]%elem_of_cons; [done|by apply Hall].
        * intros Hall e Hin. apply Hall. by right. }
  unfold resolveComponent. split.
  - destruct (findRoute (m_routes nav) route) as [url|].
    + split; [done|]. intros [Hall _]. by apply Hnone in Hall.
    + destruct (endsWith ".qml" route).
      * split; [done|]. by intros [_ ?].
      * split; [|done]. intros _. split; [by apply Hnone|done].
  - intros Hall ->. apply Hnone in Hall. by rewrite Hall.
Qed.
End routes.

Section stack.
Import NavigationService.
Context {QVariantMap : Type}.
Implicit Types (nav : Navigation QVariantMap) (stack : list (StackEntry QVariantMap)).

Lemma dropTop_snoc stack top : dropTop (stack ++ [top]) = stack.
Proof. apply removelast_last. Qed.

Lemma head_dropTop stack : 2 ≤ length stack → head (dropTop stack) = head stack.
Proof.
  intros Hlen. destruct stack as [|bottom [|next stack]]; simpl in *; [lia..|done].
Qed.

Lemma length_dropTop stack : length (dropTop stack) = length stack - 1.
Proof.
  unfold dropTop. rewrite removelast_firstn_len, length_take. lia.
Qed.

Lemma iter_dropTop n stack :
  n = length stack - 1 → Nat.iter n dropTop stack = take 1 stack.
Proof.
  revert stack. induction n as [|n IH]; intros stack Hn.
  - simpl. destruct stack as [|bottom [|next stack]]; simpl in *; [done|done|lia].
  - rewrite Nat.iter_succ_r. rewrite IH by (rewrite length_dropTop; lia).
    destruct stack as [|bottom [|next stack]]; simpl in *; [lia|lia|done].
Qed.

(** X24.  The entry at the bottom of the stack is never taken off:
    [push], [pop] and [popToRoot] leave it where it is, whatever the
    QML side answers, and [replace] on a stack that is not empty gives
    a stack of the same depth.  None of the four touches the routes. *)
Theorem stack_bottom_kept nav route params view bottom :
  head (m_stack nav) = Some bottom →
  head (m_stack (push nav route params view).1) = Some bottom ∧
  head (m_stack (pop nav view).1) = Some bottom ∧
  head (m_stack (popToRoot nav view)) = Some bottom ∧
  stackDepth (replace nav route params view).1 = stackDepth nav ∧
  m_routes (push nav route params view).1 = m_routes nav ∧
  m_routes (pop nav view).1 = m_routes nav ∧
  m_routes (popToRoot nav view) = m_routes nav ∧
  m_routes (replace nav route params view).1 = m_routes nav.
Proof.
  intros Hbottom. split_and!.
  - unfold push. destruct (found view); [|done]. simpl.
    destruct (resolveComponent nav route) as [url|]; [|done].
    destruct (hasErrors view url); [done|]. destruct (answers view); [|done]. simpl.
    by rewrite head_snoc, Hbottom.
  - unfold pop. destruct (found view); [|done]. simpl.
    destruct (length (m_stack nav) <=? 1) eqn:Hdepth; [done|].
    apply Nat.leb_gt in Hdepth. destruct (answers view); [|done]. simpl.
    rewrite head_dropTop by lia. done.
  - unfold popToRoot. destruct (found view); [|done]. simpl.
    rewrite iter_dropTop by done. by destruct (m_stack nav).
  - unfold replace, stackDepth. destruct (found view); [|done]. cbn [negb].
    destruct (resolveComponent nav route) as [url|]; [|done].
    destruct (answers view); [|done]. cbn [fst m_stack].
    destruct (m_stack nav) as [|first stack]; [done|].
    rewrite length_app, length_dropTop. simpl. lia.
  - unfold push. destruct (found view); [|done]. simpl.
    destruct (resolveComponent nav route) as [url|]; [|done].
    destruct (hasErrors view url); [done|]. by destruct (answers view).
  - unfold pop. destruct (negb (found view) || _); [done|]. by destruct (answers view).
  - unfold popToRoot. by destruct (found view).
  - unfold replace. destruct (found view); [|done]. simpl.
    destruct (resolveComponent nav route) as [url|]; [|done]. by destruct (answers view).
Qed.

(** X25.  Once the stack view is found, [popToRoot] cuts the stack
    down to its bottom entry whether or not the call into the view
    gave a valid value; afterwards there is no way back, and a second
    [popToRoot] changes nothing. *)
Theorem popToRoot_root nav view :
  found view = true →
  m_stack (popToRoot nav view) = take 1 (m_stack nav) ∧
  canGoBack (popToRoot nav view) = false ∧
  (∀ view', popToRoot (popToRoot nav view) view' = popToRoot nav view).
Proof.
  intros Hfound.
  assert (∀ nav', m_stack (popToRoot nav' view) = take 1 (m_stack nav')) as Hcut.
  { intros nav'. unfold popToRoot. rewrite Hfound. simpl. by apply iter_dropTop. }
  split_and!; [apply Hcut| |].
  - unfold canGoBack. rewrite Hcut. apply Nat.ltb_ge. rewrite length_take. lia.
  - intros view'. unfold popToRoot at 1. destruct (found view'); [|done]. simpl.
    rewrite iter_dropTop by done. rewrite Hcut, take_take. simpl.
    unfold popToRoot. rewrite Hfound. simpl. rewrite iter_dropTop by done. done.
Qed.

(** X26.  A [push] or [replace] that returns true makes the given
    route the current one, [push] on a stack one deeper; a [pop] that
    returns true had a way back and leaves a stack one less deep; and
    each of the three leaves the service as it was when it returns
    false. *)
Theorem navigation_steps nav route params view :
  (if (push nav route params view).2
   then currentRoute (push nav route params view).1 = route ∧
        stackDepth (push nav route params view).1 = S (stackDepth nav)
   else (push nav route params view).1 = nav) ∧
  (if (replace nav route params view).2
   then currentRoute (replace nav route params view).1 = route
   else (replace nav route params view).1 = nav) ∧
  (if (pop nav view).2
   then canGoBack nav = true ∧ S (stackDepth (pop nav view).1) = stackDepth nav
   else (pop nav view).1 = nav).
Proof.
  split_and!.
  - unfold push. destruct (found view); [|done]. simpl.
    destruct (resolveComponent nav route) as [url|]; [|done].
    destruct (hasErrors view url); [done|]. destruct (answers view); [|done]. simpl.
    unfold currentRoute, stackDepth. simpl. rewrite last_snoc, length_app. simpl.
    split; [done|lia].
  - unfold replace. destruct (found view); [|done]. simpl.
    destruct (resolveComponent nav route) as [url|]; [|done].
    destruct (answers view); [|done]. simpl.
    unfold currentRoute. simpl. by rewrite last_snoc.
  - unfold pop. destruct (found view); [|done]. simpl.
    destruct (length (m_stack nav) <=? 1) eqn:Hdepth; [done|].
    apply Nat.leb_gt in Hdepth. destruct (answers view); [|done]. simpl.
    unfold canGoBack, stackDepth. simpl. rewrite length_dropTop. split; [|lia].
    by apply Nat.ltb_lt.
Qed.
End stack.

Section navigation_examples.
Import NavigationService.

(** Two routes, the first of them a prefix pattern. *)
Lemma stack_bottom_kept_home :
  head (m_stack (pop {| m_routes := [{| pattern := "orders/*"; component := "Orders.qml" |}];
                        m_stack := [{| route := "home"; params := () |};
                                    {| route := "orders/1"; params := () |}] |}
                  {| found := true; hasErrors := λ _, false; answers := true |}).1)
  = Some {| route := "home"; params := () |}.
Proof.
  destruct (stack_bottom_kept
              {| m_routes := [{| pattern := "orders/*"; component := "Orders.qml" |}];
                 m_stack := [{| route := "home"; params := () |};
                             {| route := "orders/1"; params := () |}] |}
              "orders/2" ()
              {| found := true; hasErrors := λ _, false; answers := true |}
              {| route := "home"; params := () |}) as (_ & Hpop & _).
  - reflexivity.
  - exact Hpop.
Defined.

Lemma popToRoot_root_home :
  m_stack (popToRoot {| m_routes := [];
                        m_stack := [{| route := "home"; params := () |};
                                    {| route := "orders/1"; params := () |}] |}
             {| found := true; hasErrors := λ _, false; answers := false |})
  = take 1 [{| route := "home"; params := () |}; {| route := "orders/1"; params := () |}].
Proof.
  destruct (popToRoot_root
              {| m_routes := [];
                 m_stack := [{| route := "home"; params := () |};
                             {| route := "orders/1"; params := () |}] |}
              {| found := true; hasErrors := λ _, false; answers := false |})
    as (Hcut & _).
  - reflexivity.
  - exact Hcut.
Defined.
End navigation_examples.

